(** * The table allocator of convergence-games, embedded in Rocq

    Source: [src/convergence_games/algorithm/game_allocator.py]
    (class [GameAllocator], method [allocate] and its local functions).

    Python integers are [Z]; [len] is a [nat] injected into [Z] wherever
    the source compares it with a player count.  A Python [dict] that is
    only read and written by key is a [gmap]; a [dict] whose iteration
    order the source relies on is an association list.  Every failing
    subscript raises [KeyError]; the module [random] is an entropy tape
    that [random_sample] consumes. *)

From Stdlib Require Import ZArith List Lia Permutation Sorted String.
From stdpp Require Import base option list gmap.

Local Open Scope Z_scope.

(** ** Exceptions and the two effect layers *)

Inductive exn : Type :=
| KeyError
| ValueError (msg : string)
| AssertionError.

Inductive result (A : Type) : Type :=
| Ok (a : A)
| Raise (e : exn).
Arguments Ok {A} a.
Arguments Raise {A} e.

Definition rbind {A B : Type} (r : result A) (k : A -> result B) : result B :=
  match r with
  | Ok a => k a
  | Raise e => Raise e
  end.

(** [d[k]] on a dictionary: [KeyError] when the key is absent. *)
Definition getitem {A : Type} (o : option A) : result A :=
  match o with
  | Some a => Ok a
  | None => Raise KeyError
  end.

(** The state of the module-level random generator. *)
Definition rng : Type := list nat.

Definition M (A : Type) : Type := rng -> result (A * rng).

Definition ret {A : Type} (a : A) : M A := fun g => Ok (a, g).

Definition bind {A B : Type} (m : M A) (k : A -> M B) : M B :=
  fun g =>
    match m g with
    | Ok (a, g') => k a g'
    | Raise e => Raise e
    end.

Definition raise {A : Type} (e : exn) : M A := fun _ => Raise e.

Definition lift {A : Type} (r : result A) : M A :=
  fun g =>
    match r with
    | Ok a => Ok (a, g)
    | Raise e => Raise e
    end.

Declare Scope res_scope.
Delimit Scope res_scope with res.
Declare Scope rand_scope.
Delimit Scope rand_scope with rand.

Notation "x <- e ;; k" := (rbind e (fun x => k))
  (at level 100, e at next level, right associativity) : res_scope.
Notation "x <- e ;; k" := (bind e (fun x => k))
  (at level 100, e at next level, right associativity) : rand_scope.

(** ** [random.sample(l, len(l))]

    Each element is inserted at a position drawn from the tape, so every
    permutation of [l] is the answer for some tape and nothing else is. *)

Definition draw (g : rng) : nat * rng :=
  match g with
  | [] => (0%nat, [])
  | x :: g' => (x, g')
  end.

Fixpoint insert_at {A : Type} (i : nat) (a : A) (l : list A) : list A :=
  match i, l with
  | S i', y :: l' => y :: insert_at i' a l'
  | _, _ => a :: l
  end.

Fixpoint random_sample {A : Type} (l : list A) : M (list A) :=
  match l with
  | [] => ret []
  | a :: l' =>
      fun g =>
        match random_sample l' g with
        | Ok (r, g') =>
            let (x, g'') := draw g' in
            Ok (insert_at (x mod S (length r)) a r, g'')
        | Raise e => Raise e
        end
  end.

(** ** [sorted] and [itertools.groupby]

    Python's sort is stable, also under [reverse=True]. *)

Fixpoint insert_by {A : Type} (before : A -> A -> bool) (x : A) (l : list A)
  : list A :=
  match l with
  | [] => [x]
  | y :: l' => if before x y then x :: y :: l' else y :: insert_by before x l'
  end.

Definition sorted {A : Type} (key : A -> Z) (l : list A) : list A :=
  foldr (insert_by (fun x y => key x <=? key y)) [] l.

Definition sorted_reverse {A : Type} (key : A -> Z) (l : list A) : list A :=
  foldr (insert_by (fun x y => key y <=? key x)) [] l.

Fixpoint groupby {A : Type} (key : A -> Z) (l : list A) : list (Z * list A) :=
  match l with
  | [] => []
  | x :: l' =>
      match groupby key l' with
      | (k, grp) :: rest =>
          if key x =? k then (k, x :: grp) :: rest
          else (key x, [x]) :: (k, grp) :: rest
      | [] => [(key x, [x])]
      end
  end.

(** [list.remove(x)]: drops the first occurrence, [ValueError] when there
    is none. *)
Fixpoint list_remove_first (x : Z) (l : list Z) : option (list Z) :=
  match l with
  | [] => None
  | y :: l' =>
      if x =? y then Some l'
      else match list_remove_first x l' with
           | Some r => Some (y :: r)
           | None => None
           end
  end.

Definition py_remove (x : Z) (l : list Z) : result (list Z) :=
  match list_remove_first x l with
  | Some r => Ok r
  | None => Raise (ValueError "list.remove(x): x not in list")
  end.

Definition len {A : Type} (l : list A) : Z := Z.of_nat (length l).

(** ** The data the allocator reads *)

Record Game : Type := {
  minimum_players : Z;
  optimal_players : Z;
  maximum_players : Z
}.

Record SessionPreference : Type := {
  person_id : Z;
  table_allocation_id : Z;
  preference : Z
}.

Record TableAllocation : Type := {
  id_of : Z;
  game : Game;
  session_preferences : list SessionPreference
}.

(** [dict[ta_loss_t, list[ta_id_t]]] built by [dict(enumerate(...))]: the
    keys are [0 .. n-1] in order, so the list itself, looked up by index. *)
Abbreviation tiers := (list (list Z)).

Abbreviation allocations := (gmap Z (list Z)).

(** ** [GameAllocator._order_preferences_for_player] *)

Fixpoint sample_groups (groups : list (Z * list SessionPreference))
  : M (list (list SessionPreference)) :=
  match groups with
  | [] => ret []
  | (_, v) :: rest =>
      (s <- random_sample v ;;
       ss <- sample_groups rest ;;
       ret (s :: ss))%rand
  end.

Definition _order_preferences_for_player (preferences : list SessionPreference)
  : M tiers :=
  (groups <- sample_groups
               (groupby preference (sorted_reverse preference preferences)) ;;
   ret (map (map table_allocation_id) groups))%rand.

(** The comprehension
    [{ta_id: ta_loss for ta_loss, ta_ids in ... for ta_id in ta_ids}];
    a later write to the same key wins. *)
Fixpoint loss_of_tiers (ta_loss : nat) (ts : tiers) (acc : gmap Z nat)
  : gmap Z nat :=
  match ts with
  | [] => acc
  | ta_ids :: rest =>
      loss_of_tiers (S ta_loss) rest
        (foldl (fun m ta_id => <[ta_id := ta_loss]> m) acc ta_ids)
  end.

(** [loss_by_player_and_table[player_id][ta_id]], when both keys exist. *)
Definition loss_at (loss_by_player_and_table : gmap Z (gmap Z nat))
  (player_id ta_id : Z) : option nat :=
  match loss_by_player_and_table !! player_id with
  | Some losses => losses !! ta_id
  | None => None
  end.

(** ** The local functions of [GameAllocator.allocate]

    They close over three dictionaries built before the first trial. *)

Section Closures.

Context (table_allocation_lookup : gmap Z TableAllocation).
Context (ordered_preferences_by_player : gmap Z tiers).
Context (loss_by_player_and_table : gmap Z (gmap Z nat)).

(** *** [initial_allocate] *)

(** The sort key of the polite pass:
    [maximum_players - len(current_allocations[ta_id])]. *)
Definition missing_players (current_allocations : allocations) (ta_id : Z)
  : result Z :=
  (t <- getitem (table_allocation_lookup !! ta_id) ;;
   l <- getitem (current_allocations !! ta_id) ;;
   Ok (maximum_players (game t) - len l))%res.

Fixpoint decorate (current_allocations : allocations) (ta_ids : list Z)
  : result (list (Z * Z)) :=
  match ta_ids with
  | [] => Ok []
  | ta_id :: rest =>
      (k <- missing_players current_allocations ta_id ;;
       ks <- decorate current_allocations rest ;;
       Ok ((ta_id, k) :: ks))%res
  end.

Definition ta_ids_sorted_by_missing_players
  (current_allocations : allocations) (table_allocation_ids : list Z)
  : result (list Z) :=
  (ks <- decorate current_allocations table_allocation_ids ;;
   Ok (map fst (sorted snd ks)))%res.

(** The loop "politely try to join available tables". [Some] is the
    early [return current_allocations, True]. *)
Fixpoint polite (current_allocations : allocations) (player_id : Z)
  (ta_ids : list Z) : result (option allocations) :=
  match ta_ids with
  | [] => Ok None
  | ta_id :: rest =>
      (l <- getitem (current_allocations !! ta_id) ;;
       t <- getitem (table_allocation_lookup !! ta_id) ;;
       if len l <? maximum_players (game t)
       then Ok (Some (<[ta_id := l ++ [player_id]]> current_allocations))
       else polite current_allocations player_id rest)%res
  end.

(** The three mutations of a bump, in source order. *)
Definition move_and_join (current_allocations : allocations)
  (player_id ta_id other_player_id other_ta_id : Z) : result allocations :=
  (l1 <- getitem (current_allocations !! ta_id) ;;
   l1' <- py_remove other_player_id l1 ;;
   let c1 := <[ta_id := l1']> current_allocations in
   l2 <- getitem (c1 !! other_ta_id) ;;
   let c2 := <[other_ta_id := l2 ++ [other_player_id]]> c1 in
   l3 <- getitem (c2 !! ta_id) ;;
   Ok (<[ta_id := l3 ++ [player_id]]> c2))%res.

Fixpoint try_other_tables (current_allocations : allocations)
  (player_id ta_id other_player_id : Z) (other_ta_ids : list Z)
  : result (option allocations) :=
  match other_ta_ids with
  | [] => Ok None
  | other_ta_id :: rest =>
      (l <- getitem (current_allocations !! other_ta_id) ;;
       t <- getitem (table_allocation_lookup !! other_ta_id) ;;
       if len l <? maximum_players (game t)
       then c <- move_and_join current_allocations player_id ta_id
                   other_player_id other_ta_id ;;
            Ok (Some c)
       else try_other_tables current_allocations player_id ta_id
              other_player_id rest)%res
  end.

Fixpoint try_other_players (current_allocations : allocations)
  (player_id : Z) (our_ta_loss : nat) (ta_id : Z)
  (other_players_at_table : list Z) : M (option allocations) :=
  match other_players_at_table with
  | [] => ret None
  | other_player_id :: rest =>
      (losses <- lift (getitem (loss_by_player_and_table !! other_player_id)) ;;
       other_ta_loss <- lift (getitem (losses !! ta_id)) ;;
       if (our_ta_loss <=? other_ta_loss)%nat
       then
         other_preferences <-
           lift (getitem (ordered_preferences_by_player !! other_player_id)) ;;
         tier <- lift (getitem (other_preferences !! other_ta_loss)) ;;
         shuffled <- random_sample tier ;;
         r <- lift (try_other_tables current_allocations player_id ta_id
                      other_player_id shuffled) ;;
         match r with
         | Some c => ret (Some c)
         | None => try_other_players current_allocations player_id
                     our_ta_loss ta_id rest
         end
       else try_other_players current_allocations player_id our_ta_loss
              ta_id rest)%rand
  end.

Fixpoint try_move (current_allocations : allocations) (player_id : Z)
  (our_ta_loss : nat) (ta_ids : list Z) : M (option allocations) :=
  match ta_ids with
  | [] => ret None
  | ta_id :: rest =>
      (other_players_at_table <-
         lift (getitem (current_allocations !! ta_id)) ;;
       r <- try_other_players current_allocations player_id our_ta_loss
              ta_id other_players_at_table ;;
       match r with
       | Some c => ret (Some c)
       | None => try_move current_allocations player_id our_ta_loss rest
       end)%rand
  end.

(** The loop over [our_preferences.items()], [our_ta_loss] counting up. *)
Fixpoint walk_tiers (current_allocations : allocations) (player_id : Z)
  (our_ta_loss : nat) (our_preferences : tiers) : M (allocations * bool) :=
  match our_preferences with
  | [] => ret (current_allocations, false)
  | table_allocation_ids :: rest =>
      (sorted_ids <- lift (ta_ids_sorted_by_missing_players
                             current_allocations table_allocation_ids) ;;
       r <- lift (polite current_allocations player_id sorted_ids) ;;
       match r with
       | Some c => ret (c, true)
       | None =>
           shuffled <- random_sample table_allocation_ids ;;
           r' <- try_move current_allocations player_id our_ta_loss shuffled ;;
           match r' with
           | Some c => ret (c, true)
           | None => walk_tiers current_allocations player_id
                       (S our_ta_loss) rest
           end
       end)%rand
  end.

Definition initial_allocate (current_allocations : allocations)
  (player_id : Z) : M (allocations * bool) :=
  (our_preferences <-
     lift (getitem (ordered_preferences_by_player !! player_id)) ;;
   walk_tiers current_allocations player_id 0%nat our_preferences)%rand.

(** *** [try_make_up_numbers] *)

Definition member (x : Z) (l : list Z) : bool := existsb (Z.eqb x) l.

(** The inner loop of the candidate scan, over the players of one donor. *)
Fixpoint scan_players (ta_id other_ta_id : Z) (players : list Z)
  : result (list (Z * Z)) :=
  match players with
  | [] => Ok []
  | other_player_id :: rest =>
      (losses <- getitem (loss_by_player_and_table !! other_player_id) ;;
       other_ta_loss <- getitem (losses !! other_ta_id) ;;
       this_ta_loss <- getitem (losses !! ta_id) ;;
       if (this_ta_loss <? other_ta_loss)%nat
       then scan_players ta_id other_ta_id rest
       else
         other_preferences <-
           getitem (ordered_preferences_by_player !! other_player_id) ;;
         tier <- getitem (other_preferences !! other_ta_loss) ;;
         if member ta_id tier
         then more <- scan_players ta_id other_ta_id rest ;;
              Ok ((other_ta_id, other_player_id) :: more)
         else scan_players ta_id other_ta_id rest)%res
  end.

Fixpoint scan_tables (current_allocations : allocations) (ta_id : Z)
  (tables_with_more_than_sweet_spot : list Z) : result (list (Z * Z)) :=
  match tables_with_more_than_sweet_spot with
  | [] => Ok []
  | other_ta_id :: rest =>
      if other_ta_id =? ta_id
      then scan_tables current_allocations ta_id rest
      else
        (players <- getitem (current_allocations !! other_ta_id) ;;
         here <- scan_players ta_id other_ta_id players ;;
         more <- scan_tables current_allocations ta_id rest ;;
         Ok (here ++ more))%res
  end.

Definition selected_from (other_ta_id : Z) (selected : list (Z * Z)) : Z :=
  len (filter (fun tp => fst tp =? other_ta_id) selected).

(** The greedy selection; returning is either the [break] or the end of
    the candidates. *)
Fixpoint select_players (current_allocations : allocations)
  (sweetspot_deficit : Z) (selected_players_to_move : list (Z * Z))
  (candidates : list (Z * Z)) : result (list (Z * Z)) :=
  match candidates with
  | [] => Ok selected_players_to_move
  | (other_ta_id, other_player_id) :: rest =>
      (l <- getitem (current_allocations !! other_ta_id) ;;
       let current_players_in_other_ta_if_post_move :=
         len l - selected_from other_ta_id selected_players_to_move in
       t <- getitem (table_allocation_lookup !! other_ta_id) ;;
       if current_players_in_other_ta_if_post_move <=? optimal_players (game t)
       then select_players current_allocations sweetspot_deficit
              selected_players_to_move rest
       else
         let selected' :=
           selected_players_to_move ++ [(other_ta_id, other_player_id)] in
         if len selected' =? sweetspot_deficit
         then Ok selected'
         else select_players current_allocations sweetspot_deficit
                selected' rest)%res
  end.

Fixpoint apply_moves (current_allocations : allocations) (ta_id : Z)
  (moves : list (Z * Z)) : result allocations :=
  match moves with
  | [] => Ok current_allocations
  | (other_ta_id, other_player_id) :: rest =>
      (l <- getitem (current_allocations !! other_ta_id) ;;
       l' <- py_remove other_player_id l ;;
       let c1 := <[other_ta_id := l']> current_allocations in
       l2 <- getitem (c1 !! ta_id) ;;
       apply_moves (<[ta_id := l2 ++ [other_player_id]]> c1) ta_id rest)%res
  end.

Definition try_make_up_numbers (current_allocations : allocations)
  (ta_id : Z) (tables_with_more_than_sweet_spot : list Z)
  : M (allocations * bool) :=
  (t <- lift (getitem (table_allocation_lookup !! ta_id)) ;;
   l <- lift (getitem (current_allocations !! ta_id)) ;;
   let minimum_deficit := minimum_players (game t) - len l in
   let sweetspot_deficit := optimal_players (game t) - len l in
   possible_players_to_move <-
     lift (scan_tables current_allocations ta_id
             tables_with_more_than_sweet_spot) ;;
   if len possible_players_to_move <? minimum_deficit
   then ret (current_allocations, false)
   else
     shuffled <- random_sample possible_players_to_move ;;
     selected_players_to_move <-
       lift (select_players current_allocations sweetspot_deficit []
               shuffled) ;;
     if len selected_players_to_move <? minimum_deficit
     then ret (current_allocations, false)
     else
       c <- lift (apply_moves current_allocations ta_id
                    selected_players_to_move) ;;
       ret (c, true))%rand.

(** *** [evaluate_total_loss] *)

Fixpoint loss_of_players (ta_id : Z) (player_ids : list Z) : result nat :=
  match player_ids with
  | [] => Ok 0%nat
  | player_id :: rest =>
      (losses <- getitem (loss_by_player_and_table !! player_id) ;;
       x <- getitem (losses !! ta_id) ;;
       s <- loss_of_players ta_id rest ;;
       Ok (x + s)%nat)%res
  end.

Fixpoint loss_of_items (items : list (Z * list Z)) : result nat :=
  match items with
  | [] => Ok 0%nat
  | (ta_id, player_ids) :: rest =>
      (x <- loss_of_players ta_id player_ids ;;
       s <- loss_of_items rest ;;
       Ok (x + s)%nat)%res
  end.

Definition evaluate_total_loss (current_allocations : allocations)
  : result nat :=
  loss_of_items (map_to_list current_allocations).

End Closures.

(** ** The body of [GameAllocator.allocate] *)

(** [d.setdefault(k, []).append(v)] on an insertion-ordered dictionary. *)
Fixpoint setdefault_append (k : Z) (v : SessionPreference)
  (d : list (Z * list SessionPreference)) : list (Z * list SessionPreference) :=
  match d with
  | [] => [(k, [v])]
  | (k', vs) :: d' =>
      if k =? k' then (k', vs ++ [v]) :: d'
      else (k', vs) :: setdefault_append k v d'
  end.

Definition all_preferences_by_player (all_table_allocations : list TableAllocation)
  : list (Z * list SessionPreference) :=
  foldl (fun d ta =>
           foldl (fun d' sp => setdefault_append (person_id sp) sp d')
             d (session_preferences ta))
    [] all_table_allocations.

Definition table_allocation_lookup (all_table_allocations : list TableAllocation)
  : gmap Z TableAllocation :=
  foldl (fun m ta => <[id_of ta := ta]> m) ∅ all_table_allocations.

(** The comprehension that calls [_order_preferences_for_player] once per
    player, in the order of [all_preferences_by_player.items()]. *)
Fixpoint ordered_preferences_by_player
  (items : list (Z * list SessionPreference)) (acc : gmap Z tiers)
  : M (gmap Z tiers) :=
  match items with
  | [] => ret acc
  | (player_id, preferences) :: rest =>
      (ordered <- _order_preferences_for_player preferences ;;
       ordered_preferences_by_player rest (<[player_id := ordered]> acc))%rand
  end.

Definition loss_by_player_and_table (ordered : gmap Z tiers)
  : gmap Z (gmap Z nat) :=
  (fun ordered_preferences => loss_of_tiers 0 ordered_preferences ∅) <$> ordered.

(** What the trials share: everything computed before [for seed in ...]. *)
Record prepared : Type := {
  tables : list TableAllocation;
  lookup_table : gmap Z TableAllocation;
  players : list Z;
  ordered : gmap Z tiers;
  losses : gmap Z (gmap Z nat)
}.

Definition prepare (all_table_allocations : list TableAllocation) : M prepared :=
  (let prefs := all_preferences_by_player all_table_allocations in
   ord <- ordered_preferences_by_player prefs ∅ ;;
   ret {| tables := all_table_allocations;
          lookup_table := table_allocation_lookup all_table_allocations;
          players := map fst prefs;
          ordered := ord;
          losses := loss_by_player_and_table ord |})%rand.

Definition empty_allocations (all_table_allocations : list TableAllocation)
  : allocations :=
  foldl (fun m ta => <[id_of ta := []]> m) ∅ all_table_allocations.

(** [[ta.id for ta in all_table_allocations if test(len(...), ta.game)]] *)
Fixpoint tables_where (test : Z -> Game -> bool)
  (current_allocations : allocations)
  (all_table_allocations : list TableAllocation) : result (list Z) :=
  match all_table_allocations with
  | [] => Ok []
  | ta :: rest =>
      (l <- getitem (current_allocations !! id_of ta) ;;
       more <- tables_where test current_allocations rest ;;
       Ok (if test (len l) (game ta) then id_of ta :: more else more))%res
  end.

Definition too_many (n : Z) (g : Game) : bool := maximum_players g <? n.
Definition too_few (n : Z) (g : Game) : bool := n <? minimum_players g.
Definition more_than_sweet_spot (n : Z) (g : Game) : bool :=
  optimal_players g <? n.

Record best : Type := {
  best_loss : option nat;
  best_allocations : option allocations;
  best_loss_each_iteration : list nat
}.

Definition keep_best (b : best) (current_allocations : allocations)
  (loss : nat) : best :=
  let improved :=
    match best_loss b with
    | None => true
    | Some l => (loss <? l)%nat
    end in
  let loss' :=
    match best_loss b with
    | None => loss
    | Some l => if improved then loss else l
    end in
  {| best_loss := Some loss';
     best_allocations :=
       if improved then Some current_allocations else best_allocations b;
     best_loss_each_iteration := best_loss_each_iteration b ++ [loss'] |}.

Section Trial.

Context (P : prepared).

(** [for player_id in shuffled_player_ids] *)
Fixpoint place_all (current_allocations : allocations)
  (shuffled_player_ids : list Z) : M allocations :=
  match shuffled_player_ids with
  | [] => ret current_allocations
  | player_id :: rest =>
      (r <- initial_allocate (lookup_table P) (ordered P) (losses P)
              current_allocations player_id ;;
       if snd r then place_all (fst r) rest
       else raise (ValueError "Failed to allocate all players"))%rand
  end.

(** [for ta_id in tables_with_too_few_players] *)
Fixpoint make_up_all (current_allocations : allocations)
  (tables_with_too_few_players : list Z) : M allocations :=
  match tables_with_too_few_players with
  | [] => ret current_allocations
  | ta_id :: rest =>
      (tables_with_more_than_sweet_spot <-
         lift (tables_where more_than_sweet_spot current_allocations
                 (tables P)) ;;
       r <- try_make_up_numbers (lookup_table P) (ordered P) (losses P)
              current_allocations ta_id tables_with_more_than_sweet_spot ;;
       if snd r then make_up_all (fst r) rest
       else raise (ValueError "Failed to make up numbers"))%rand
  end.

(** The placement half of one pass of the loop, up to the [assert]. *)
Definition place_trial : M allocations :=
  (shuffled_player_ids <- random_sample (players P) ;;
   current_allocations <-
     place_all (empty_allocations (tables P)) shuffled_player_ids ;;
   tables_with_too_many_players <-
     lift (tables_where too_many current_allocations (tables P)) ;;
   match tables_with_too_many_players with
   | [] => ret current_allocations
   | _ :: _ => raise AssertionError
   end)%rand.

(** The repair half. *)
Definition repair_trial (current_allocations : allocations) : M allocations :=
  (tables_with_too_few_players <-
     lift (tables_where too_few current_allocations (tables P)) ;;
   make_up_all current_allocations tables_with_too_few_players)%rand.

(** One pass of [for seed in range(1, n_trials + 1)], up to the loss.
    The list of tables that are still too small is built once more after
    the repairs, only to be printed; it is left out. *)
Definition trial : M (allocations * nat) :=
  (placed <- place_trial ;;
   current_allocations <- repair_trial placed ;;
   loss <- lift (evaluate_total_loss (losses P) current_allocations) ;;
   ret (current_allocations, loss))%rand.

Fixpoint trials (remaining : nat) (b : best) : M best :=
  match remaining with
  | O => ret b
  | S remaining' =>
      (r <- trial ;;
       trials remaining' (keep_best b (fst r) (snd r)))%rand
  end.

End Trial.

Definition n_trials : nat := 10.

Definition no_best : best :=
  {| best_loss := None; best_allocations := None;
     best_loss_each_iteration := [] |}.

(** [allocate], from the loaded table allocations of the time slot to the
    best allocation it prints.  The loss and sweet-spot breakdowns printed
    after the loop do not change the result and are left out. *)
Definition allocate (all_table_allocations : list TableAllocation) : M best :=
  (P <- prepare all_table_allocations ;;
   trials P n_trials no_best)%rand.

(** ** The breakdowns printed after the loop *)

(** [d[k] = d.get(k, 0) + 1] *)
Definition count_up `{Countable K} (k : K) (d : gmap K nat) : gmap K nat :=
  <[k := (default 0%nat (d !! k) + 1)%nat]> d.

Section Breakdowns.

Context (table_allocation_lookup : gmap Z TableAllocation).
Context (loss_by_player_and_table : gmap Z (gmap Z nat)).

(** *** [evaluate_loss_breakdown] *)

Fixpoint breakdown_of_players (ta_id : Z) (player_ids : list Z)
  (loss_breakdown : gmap nat nat) : result (gmap nat nat) :=
  match player_ids with
  | [] => Ok loss_breakdown
  | player_id :: rest =>
      (losses <- getitem (loss_by_player_and_table !! player_id) ;;
       loss <- getitem (losses !! ta_id) ;;
       breakdown_of_players ta_id rest (count_up loss loss_breakdown))%res
  end.

Fixpoint breakdown_of_items (items : list (Z * list Z))
  (loss_breakdown : gmap nat nat) : result (gmap nat nat) :=
  match items with
  | [] => Ok loss_breakdown
  | (ta_id, player_ids) :: rest =>
      (b <- breakdown_of_players ta_id player_ids loss_breakdown ;;
       breakdown_of_items rest b)%res
  end.

Definition evaluate_loss_breakdown (current_allocations : allocations)
  : result (gmap nat nat) :=
  breakdown_of_items (map_to_list current_allocations) ∅.

(** *** [evaluate_delta_from_sweetspot_breakdown]

    The two [print]s for a delta above 2 are left out.  The result is
    [dict(sorted(....items()))]: the entries in ascending order of the
    delta, which is the order of the pairs because no delta occurs
    twice. *)

Fixpoint delta_of_items (items : list (Z * list Z))
  (delta_from_sweetspot_breakdown : gmap Z nat) : result (gmap Z nat) :=
  match items with
  | [] => Ok delta_from_sweetspot_breakdown
  | (ta_id, player_ids) :: rest =>
      (t <- getitem (table_allocation_lookup !! ta_id) ;;
       let delta := len player_ids - optimal_players (game t) in
       delta_of_items rest (count_up delta delta_from_sweetspot_breakdown))%res
  end.

Definition evaluate_delta_from_sweetspot_breakdown
  (current_allocations : allocations) : result (list (Z * nat)) :=
  (d <- delta_of_items (map_to_list current_allocations) ∅ ;;
   Ok (sorted fst (map_to_list d)))%res.

End Breakdowns.

(** ** [create_mock_data]: the rows it generates, before they are stored

    [random.seed(42)] fixes the generator; the model runs on any tape.
    Only the fields that the allocator reads are kept. *)

Definition N_GAMES : nat := 30.
Definition N_PLAYERS : nat := 150.
Definition N_POPULAR_GAMES : nat := 10.
Definition N_UNPOPULAR_GAMES : nat := 10.

(** [range(n)] *)
Definition range (n : nat) : list Z := map Z.of_nat (seq 0 n).

(** [random.randint(a, b)], both ends included. *)
Definition randint (a b : Z) : M Z :=
  fun g =>
    if b <? a then Raise (ValueError "empty range for randrange()")
    else let (x, g') := draw g in
         Ok (a + Z.of_nat x mod (b - a + 1), g').

(** [random.choice] of a list literal, which is never empty. *)
Definition choice {A : Type} (first : A) (others : list A) : M A :=
  fun g =>
    let (x, g') := draw g in
    Ok (nth (x mod S (length others)) (first :: others) first, g').

(** A list comprehension whose element expression draws from [random]. *)
Fixpoint for_each {A B : Type} (f : A -> M B) (l : list A) : M (list B) :=
  match l with
  | [] => ret []
  | a :: rest =>
      (b <- f a ;;
       bs <- for_each f rest ;;
       ret (b :: bs))%rand
  end.

Record Person : Type := {
  id_of_person : Z;
  golden_d20s : Z
}.

Record MockSessionData : Type := {
  mock_games : list (Z * Game);
  mock_table_allocations : list Z;
  mock_players : list Person;
  mock_session_preferences : list SessionPreference
}.

Definition mock_player (i : Z) : M Person :=
  (d20 <- choice 0 [0; 0; 0; 0; 1] ;;
   ret {| id_of_person := Z.of_nat N_GAMES + i; golden_d20s := d20 |})%rand.

Definition mock_game (i : Z) : M (Z * Game) :=
  (x <- randint 2 4 ;;
   y <- randint x 5 ;;
   z <- randint y 7 ;;
   ret (i, {| minimum_players := x; optimal_players := y;
              maximum_players := z |}))%rand.

Definition POPULAR_GAMES (game_index : Z) : bool :=
  (0 <=? game_index) && (game_index <? Z.of_nat N_POPULAR_GAMES).

Definition UNPOPULAR_GAMES (game_index : Z) : bool :=
  (Z.of_nat N_POPULAR_GAMES <=? game_index)
  && (game_index <? Z.of_nat N_POPULAR_GAMES + Z.of_nat N_UNPOPULAR_GAMES).

Definition make_preference (golden_d20s game_index : Z) : M Z :=
  if POPULAR_GAMES game_index
  then (if golden_d20s =? 0 then choice 3 [4; 5] else choice 3 [4; 5; 20])
  else if UNPOPULAR_GAMES game_index
  then choice 0 [0; 1; 2]
  else (if golden_d20s =? 0 then choice 0 [1; 2; 3; 4; 5]
        else choice 0 [1; 2; 3; 4; 5; 20]).

Definition mock_preference (player : Person) (table_allocation : Z)
  : M SessionPreference :=
  (score <- make_preference (golden_d20s player) table_allocation ;;
   ret {| person_id := id_of_person player;
          table_allocation_id := table_allocation;
          preference := score |})%rand.

Definition create_mock_data : M MockSessionData :=
  (players <- for_each mock_player (range N_PLAYERS) ;;
   games <- for_each mock_game (range N_GAMES) ;;
   let table_allocations := map fst games in
   rows <- for_each (fun player =>
                       for_each (mock_preference player) table_allocations)
             players ;;
   ret {| mock_games := games;
          mock_table_allocations := table_allocations;
          mock_players := players;
          mock_session_preferences := concat rows |})%rand.

(** * The template filter [extract_title]

    Source: [src/convergence_games/app/app_config/template_config.py].
    The argument is a jinjax [CallerWrapper]; [text.find] and
    [text._content] read the same string, and the model takes that
    string. *)

(** [str.find(sub, start)]: the first index at or after [start], [-1]
    when there is none; a negative [start] counts from the end. *)
Definition py_find (text sub : string) (start : Z) : Z :=
  let n := Z.of_nat (String.length text) in
  let from := if start <? 0 then Z.max 0 (start + n) else start in
  match String.index (Z.to_nat from) sub text with
  | Some i => Z.of_nat i
  | None => -1
  end.

(** [s[lo:hi]]: a negative bound counts from the end, and both bounds are
    cut to the string. *)
Definition py_slice (s : string) (lo hi : Z) : string :=
  let n := Z.of_nat (String.length s) in
  let clamp i := if i <? 0 then Z.max 0 (i + n) else Z.min i n in
  String.substring (Z.to_nat (clamp lo)) (Z.to_nat (clamp hi - clamp lo)) s.

(** [not title_start] holds for [0] only. *)
Definition extract_title (text : string) : string :=
  let title_start := py_find text "<title>" 0 in
  if title_start =? 0 then ""%string
  else
    let title_end := py_find text "</title>" title_start in
    py_slice text (title_start + 7) title_end.

(** ** Predicates used in the statements *)

(** What makes [(other_ta_id, other_player_id)] a candidate of the repair
    of [ta_id]: the player sits at another table, the target is in the
    tier of the player's current loss, and the target's loss is not below
    the current one. *)
Definition candidate (opp : gmap Z tiers) (lpt : gmap Z (gmap Z nat))
  (cur : allocations) (ta_id : Z) (c : Z * Z) : Prop :=
  fst c <> ta_id
  /\ (exists ps, cur !! fst c = Some ps /\ snd c ∈ ps)
  /\ exists k k' ts tier,
      loss_at lpt (snd c) (fst c) = Some k
      /\ loss_at lpt (snd c) ta_id = Some k'
      /\ (k <= k')%nat
      /\ opp !! snd c = Some ts
      /\ ts !! k = Some tier
      /\ ta_id ∈ tier.

(** One successful call of [initial_allocate] for [player_id], whose tiers
    are [our_preferences]: either the polite seat, or the bump that sends
    an incumbent of [ta_id] to a free table of the tier of its own loss. *)
Inductive placement (tal : gmap Z TableAllocation) (opp : gmap Z tiers)
  (lpt : gmap Z (gmap Z nat)) (our_preferences : tiers)
  (cur : allocations) (player_id : Z) : allocations -> Prop :=
| polite_seat (our_ta_loss : nat) (tier : list Z) (ta_id : Z) (l : list Z)
    (t : TableAllocation) :
    our_preferences !! our_ta_loss = Some tier -> ta_id ∈ tier ->
    cur !! ta_id = Some l -> tal !! ta_id = Some t ->
    len l < maximum_players (game t) ->
    placement tal opp lpt our_preferences cur player_id
      (<[ta_id := l ++ [player_id]]> cur)
| bump_seat (our_ta_loss : nat) (tier : list Z) (ta_id : Z)
    (others : list Z) (other_player_id : Z) (other_ta_loss : nat)
    (other_preferences : tiers) (other_tier : list Z) (other_ta_id : Z)
    (l : list Z) (t : TableAllocation) (cur' : allocations) :
    our_preferences !! our_ta_loss = Some tier -> ta_id ∈ tier ->
    cur !! ta_id = Some others -> other_player_id ∈ others ->
    loss_at lpt other_player_id ta_id = Some other_ta_loss ->
    (our_ta_loss <= other_ta_loss)%nat ->
    opp !! other_player_id = Some other_preferences ->
    other_preferences !! other_ta_loss = Some other_tier ->
    other_ta_id ∈ other_tier ->
    cur !! other_ta_id = Some l -> tal !! other_ta_id = Some t ->
    len l < maximum_players (game t) ->
    move_and_join cur player_id ta_id other_player_id other_ta_id = Ok cur' ->
    placement tal opp lpt our_preferences cur player_id cur'.

(** [player_id] is in the list of table [ta_id]. *)
Definition seated (cur : allocations) (player_id ta_id : Z) : Prop :=
  exists l, cur !! ta_id = Some l /\ player_id ∈ l.

(** The loss map of every player is the one built from that player's
    tiers, and no table occurs twice in them. *)
Definition coherent (opp : gmap Z tiers) (lpt : gmap Z (gmap Z nat)) : Prop :=
  forall p m, lpt !! p = Some m ->
    exists ts, opp !! p = Some ts /\ m = loss_of_tiers 0 ts ∅
               /\ NoDup (concat ts).

(** A mutation of the allocation by one of the two passes; the option is
    the player being placed, if any. *)
Inductive allocator_move (tal : gmap Z TableAllocation) (opp : gmap Z tiers)
  (lpt : gmap Z (gmap Z nat)) (cur : allocations)
  : option Z -> allocations -> Prop :=
| move_by_placement (player_id : Z) (g g' : rng) (cur' : allocations) :
    initial_allocate tal opp lpt cur player_id g = Ok ((cur', true), g') ->
    allocator_move tal opp lpt cur (Some player_id) cur'
| move_by_repair (ta_id : Z) (donors : list Z) (g g' : rng)
    (cur' : allocations) :
    try_make_up_numbers tal opp lpt cur ta_id donors g
    = Ok ((cur', true), g') ->
    allocator_move tal opp lpt cur None cur'.

(** Every player seated before is seated after, at a table of the same
    loss. *)
Definition keeps_losses (lpt : gmap Z (gmap Z nat)) (cur cur' : allocations)
  : Prop :=
  forall q t, seated cur q t ->
    exists t', seated cur' q t' /\ loss_at lpt q t' = loss_at lpt q t.

(** Every seat taken after, except by the newcomer, belongs to a player
    who had a seat of the same loss before. *)
Definition no_worse_seat (lpt : gmap Z (gmap Z nat)) (newcomer : option Z)
  (cur cur' : allocations) : Prop :=
  forall q t', seated cur' q t' ->
    newcomer = Some q
    \/ exists t, seated cur q t /\ loss_at lpt q t' = loss_at lpt q t.

(** [k] trials in a row succeed, taking the random state from [g] to
    [g']. *)
Inductive trials_run (P : prepared) : nat -> rng -> rng -> Prop :=
| run_none (g : rng) : trials_run P 0 g g
| run_more (k : nat) (g g1 g2 : rng) (r : allocations * nat) :
    trial P g = Ok (r, g1) -> trials_run P k g1 g2 ->
    trials_run P (S k) g g2.

(** All preference rows of the time slot, table by table. *)
Definition all_rows (all_table_allocations : list TableAllocation)
  : list SessionPreference :=
  flat_map session_preferences all_table_allocations.

Definition rows_of_person (p : Z) (rows : list SessionPreference)
  : list SessionPreference :=
  List.filter (fun sp => person_id sp =? p) rows.

(** [d.get(k)] on the insertion-ordered dictionary. *)
Fixpoint get_item (d : list (Z * list SessionPreference)) (k : Z)
  : option (list SessionPreference) :=
  match d with
  | [] => None
  | (k', v) :: d' => if k =? k' then Some v else get_item d' k
  end.

(** The capacity triple of the data model: [1 <= min <= optimal <= max]. *)
Definition valid_capacities (g : Game) : Prop :=
  1 <= minimum_players g
  /\ minimum_players g <= optimal_players g
  /\ optimal_players g <= maximum_players g.

(** Table ids are unique and every capacity triple is valid. *)
Definition input_contract (all_table_allocations : list TableAllocation)
  : Prop :=
  NoDup (map id_of all_table_allocations)
  /\ Forall (fun ta => valid_capacities (game ta)) all_table_allocations.

(** I1: no table holds more players than its maximum. *)
Definition within_capacity (all_table_allocations : list TableAllocation)
  (cur : allocations) : Prop :=
  forall ta, ta ∈ all_table_allocations ->
    exists l, cur !! id_of ta = Some l /\ len l <= maximum_players (game ta).


(** ** Further notions used in the statements *)

(** Everybody seated anywhere, table by table. *)
Definition occupants (cur : allocations) : list Z :=
  concat (map snd (map_to_list cur)).

(** The loss of every seat, table by table; [None] where a seated player
    has no loss for the table. *)
Definition seat_losses (lpt : gmap Z (gmap Z nat)) (cur : allocations)
  : list (option nat) :=
  flat_map (fun tl => map (fun q => loss_at lpt q (fst tl)) (snd tl))
    (map_to_list cur).

(** Adding up, with [KeyError] at the first missing loss. *)
Fixpoint sum_losses (l : list (option nat)) : result nat :=
  match l with
  | [] => Ok 0%nat
  | Some x :: rest => (s <- sum_losses rest ;; Ok (x + s)%nat)%res
  | None :: _ => Raise KeyError
  end.

(** The outcomes of the trials of a run, in order. *)
Inductive trials_log (P : prepared)
  : list (allocations * nat) -> rng -> rng -> Prop :=
| log_none (g : rng) : trials_log P [] g g
| log_more (r : allocations * nat) (rs : list (allocations * nat))
    (g g1 g2 : rng) :
    trial P g = Ok (r, g1) -> trials_log P rs g1 g2 ->
    trials_log P (r :: rs) g g2.

(** The smallest value so far, position by position. *)
Fixpoint minima_from (m : nat) (l : list nat) : list nat :=
  match l with
  | [] => []
  | x :: rest => Nat.min m x :: minima_from (Nat.min m x) rest
  end.

Definition running_minima (l : list nat) : list nat :=
  match l with
  | [] => []
  | x :: rest => x :: minima_from x rest
  end.

(** Table [t] has no free seat. *)
Definition full (tal : gmap Z TableAllocation) (cur : allocations) (t : Z)
  : Prop :=
  exists l ta, cur !! t = Some l /\ tal !! t = Some ta
               /\ maximum_players (game ta) <= len l.

(** The counts of a breakdown added up, and the losses it stands for. *)
Definition counted {K : Type} (entries : list (K * nat)) : nat :=
  foldr (fun kc s => (snd kc + s)%nat) 0%nat entries.

Definition weighted (entries : list (nat * nat)) : nat :=
  foldr (fun kc s => (fst kc * snd kc + s)%nat) 0%nat entries.

(** How many seats have the loss [k]. *)
Definition seats_with_loss (lpt : gmap Z (gmap Z nat)) (cur : allocations)
  (k : nat) : nat :=
  length (filter (fun o => o = Some k) (seat_losses lpt cur)).

(** The signed distance of a table from its sweet spot. *)
Definition delta_at (tal : gmap Z TableAllocation) (tl : Z * list Z)
  : option Z :=
  match tal !! fst tl with
  | Some t => Some (len (snd tl) - optimal_players (game t))
  | None => None
  end.

(** How many tables are [delta] players away from their sweet spot. *)
Definition tables_with_delta (tal : gmap Z TableAllocation)
  (cur : allocations) (delta : Z) : nat :=
  length (filter (fun tl => delta_at tal tl = Some delta) (map_to_list cur)).

(** Counting a list of keys into a breakdown, one [count_up] each. *)
Definition tally `{Countable K} (ks : list K) (d : gmap K nat) : gmap K nat :=
  foldl (fun d k => count_up k d) d ks.

(** What a failing subscript or [list.remove] raises. *)
Definition lookup_failure (e : exn) : Prop :=
  e = KeyError \/ e = ValueError "list.remove(x): x not in list".

(** Every preference row hangs off the table it rates. *)
Definition rows_consistent (all_table_allocations : list TableAllocation)
  : Prop :=
  forall ta sp, ta ∈ all_table_allocations -> sp ∈ session_preferences ta ->
    table_allocation_id sp = id_of ta.

(** Whoever rated one table has rated every table. *)
Definition dense (all_table_allocations : list TableAllocation) : Prop :=
  forall ta sp ta', ta ∈ all_table_allocations ->
    sp ∈ session_preferences ta -> ta' ∈ all_table_allocations ->
    exists sp', sp' ∈ session_preferences ta'
                /\ person_id sp' = person_id sp.

(** The sum of the maximum number of players for each game. *)
Definition total_seats (all_table_allocations : list TableAllocation) : Z :=
  foldr (fun ta s => maximum_players (game ta) + s) 0 all_table_allocations.

(** The sort key of the polite pass, where it is defined. *)
Definition free_seats (tal : gmap Z TableAllocation) (cur : allocations)
  (ta_id : Z) : option Z :=
  match tal !! ta_id, cur !! ta_id with
  | Some t, Some l => Some (maximum_players (game t) - len l)
  | _, _ => None
  end.

(** Adding up [f] over a list of tables. *)
Definition sum_over (f : Z -> Z) (ta_ids : list Z) : Z :=
  foldr (fun d s => f d + s) 0 ta_ids.

(** How many players a table holds above its sweet spot. *)
Definition surplus (tal : gmap Z TableAllocation) (cur : allocations)
  (ta_id : Z) : Z :=
  match cur !! ta_id, tal !! ta_id with
  | Some l, Some t => Z.max 0 (len l - optimal_players (game t))
  | _, _ => 0
  end.

(** How many of the candidates can move: from every donor table as many
    as it has candidates, but no more than its surplus. *)
Definition movable (tal : gmap Z TableAllocation) (cur : allocations)
  (candidates : list (Z * Z)) : Z :=
  sum_over (fun d => Z.min (selected_from d candidates) (surplus tal cur d))
    (remove_dups (map fst candidates)).

(** ** Concrete inputs used by the examples below *)

Definition seats (mn op mx : Z) : Game :=
  {| minimum_players := mn; optimal_players := op; maximum_players := mx |}.

Definition table (i : Z) (g : Game) (sps : list SessionPreference)
  : TableAllocation :=
  {| id_of := i; game := g; session_preferences := sps |}.

Definition likes (p t score : Z) : SessionPreference :=
  {| person_id := p; table_allocation_id := t; preference := score |}.

(** One player with a Golden D20 on table 2, two tables with the
    score 3 and one table the player does not want. *)
Definition example_preferences : list SessionPreference :=
  [likes 7 1 3; likes 7 2 20; likes 7 3 3; likes 7 4 0].




(** Two single-seat tables; player 101 likes both equally, player 102
    likes table 1 better.  Player 101 already sits at table 1. *)
Definition single_seats : gmap Z TableAllocation :=
  table_allocation_lookup [table 1 (seats 1 1 1) []; table 2 (seats 1 1 1) []].

Definition single_seats_ordered : gmap Z tiers :=
  <[101 := [[1; 2]]]> (<[102 := [[1]; [2]]]> ∅).

Definition one_seated : allocations := <[1 := [101]]> (<[2 := []]> ∅).

Definition both_seated : allocations := <[1 := [102]]> (<[2 := [101]]> ∅).

(** A donor table 1 with four players above its sweet spot of two, and an
    empty table 2 that needs two; everybody likes both tables equally. *)
Definition donor_and_empty : gmap Z TableAllocation :=
  table_allocation_lookup [table 1 (seats 2 2 4) []; table 2 (seats 2 3 4) []].

Definition four_friends_ordered : gmap Z tiers :=
  <[11 := [[1; 2]]]> (<[12 := [[1; 2]]]> (<[13 := [[1; 2]]]>
    (<[14 := [[1; 2]]]> ∅))).

Definition all_at_donor : allocations :=
  <[1 := [11; 12; 13; 14]]> (<[2 := []]> ∅).

Definition two_moved : allocations :=
  <[1 := [13; 14]]> (<[2 := [11; 12]]> ∅).

(** The same tables, but player 11 never rated table 2. *)
Definition one_stranger_ordered : gmap Z tiers :=
  <[11 := [[1]]]> (<[12 := [[1; 2]]]> (<[13 := [[1; 2]]]> ∅)).

Definition strangers_at_donor : allocations :=
  <[1 := [12; 11; 13]]> (<[2 := []]> ∅).

(** Two single-seat tables; player 101 rated table 1 only, player 102
    rated both and likes table 1 better. *)
Definition picky_tables : list TableAllocation :=
  [ table 1 (seats 1 1 1) [likes 102 1 5; likes 101 1 5];
    table 2 (seats 1 1 1) [likes 102 2 4] ].

(** Two single-seat tables; player 7 likes both equally, player 8 likes
    table 2 better. *)
Definition indifferent_tables : list TableAllocation :=
  [ table 1 (seats 1 1 1) [likes 7 1 5; likes 8 1 0];
    table 2 (seats 1 1 1) [likes 7 2 5; likes 8 2 5] ].

(** Three tables; player 7 rated tables 1 and 3 but not table 2. *)
Definition unrated_tables : list TableAllocation :=
  [ table 1 (seats 1 1 2) [likes 7 1 3; likes 8 1 5];
    table 2 (seats 1 1 2) [likes 8 2 3];
    table 3 (seats 1 1 2) [likes 7 3 5] ].


(** ** Further concrete inputs *)


(** Two single-seat tables; player 101 has a tier for table 1 only, and
    player 102, who sits there, has no other table in the same tier. *)
Definition picky_ordered : gmap Z tiers :=
  <[101 := [[1]]]> (<[102 := [[1]; [2]]]> ∅).

Definition first_come : allocations := <[1 := [102]]> (<[2 := []]> ∅).

(** With [single_seats_ordered]: player 101 at table 1 and player 102 at
    its second choice. *)
Definition second_choice : allocations := <[1 := [101]]> (<[2 := [102]]> ∅).

(** Two single-seat tables and one player who rated both: one of the
    tables stays empty. *)
Definition lonely_tables : list TableAllocation :=
  [ table 1 (seats 1 1 1) [likes 7 1 5]; table 2 (seats 1 1 1) [likes 7 2 5] ].

(** The two single-seat tables before anybody is seated. *)
Definition nobody_seated : allocations := <[1 := []]> (<[2 := []]> ∅).
(** * Verification *)

(** ** Inversion of the two binds *)

Lemma rbind_Ok {A B : Type} (r : result A) (k : A -> result B) (b : B) :
  rbind r k = Ok b -> exists a, r = Ok a /\ k a = Ok b.
Proof. destruct r as [a|e]; simpl; [eauto | discriminate]. Qed.

Lemma bind_Ok {A B : Type} (m : M A) (k : A -> M B) (g g' : rng) (b : B) :
  bind m k g = Ok (b, g') ->
  exists a g1, m g = Ok (a, g1) /\ k a g1 = Ok (b, g').
Proof.
  unfold bind. destruct (m g) as [[a g1]|e]; [eauto | discriminate].
Qed.

Lemma lift_Ok {A : Type} (r : result A) (g g' : rng) (a : A) :
  lift r g = Ok (a, g') -> r = Ok a /\ g' = g.
Proof. unfold lift. destruct r; intros H; inversion H; auto. Qed.

Lemma getitem_Ok {A : Type} (o : option A) (a : A) :
  getitem o = Ok a -> o = Some a.
Proof. destruct o; simpl; intros H; inversion H; auto. Qed.

Lemma ret_Ok {A : Type} (a b : A) (g g' : rng) :
  ret a g = Ok (b, g') -> b = a /\ g' = g.
Proof. unfold ret. intros H; inversion H; auto. Qed.

(** Peels one layer of a successful computation. *)
Ltac ok_step H :=
  match type of H with
  | rbind _ _ = Ok _ =>
      let a := fresh "v" in let H1 := fresh "E" in
      apply rbind_Ok in H; destruct H as (a & H1 & H)
  | bind _ _ _ = Ok _ =>
      let a := fresh "v" in let g := fresh "g" in let H1 := fresh "E" in
      apply bind_Ok in H; destruct H as (a & g & H1 & H)
  | lift _ _ = Ok _ =>
      let H1 := fresh "Eg" in
      apply lift_Ok in H; destruct H as (H & H1); subst
  | getitem _ = Ok _ => apply getitem_Ok in H
  | ret _ _ = Ok _ =>
      let H1 := fresh "Eg" in
      apply ret_Ok in H; destruct H as (H & H1); subst
  | Ok _ = Ok _ => inversion H; subst; clear H
  end.

(** ** [random_sample] returns a permutation and never raises *)

Lemma insert_at_perm {A : Type} (i : nat) (a : A) (l : list A) :
  Permutation (a :: l) (insert_at i a l).
Proof.
  revert i; induction l as [|y l IH]; intros [|i]; simpl; auto.
  rewrite perm_swap. constructor. apply IH.
Qed.

Lemma random_sample_total {A : Type} (l : list A) (g : rng) :
  exists r g', random_sample l g = Ok (r, g').
Proof.
  revert g; induction l as [|a l IH]; intros g; simpl.
  - unfold ret; eauto.
  - destruct (IH g) as (r & g' & ->). destruct (draw g'); eauto.
Qed.

Lemma random_sample_perm {A : Type} (l r : list A) (g g' : rng) :
  random_sample l g = Ok (r, g') -> Permutation l r.
Proof.
  revert r g g'; induction l as [|a l IH]; intros r g g'; simpl.
  - intros H; ok_step H. subst; constructor.
  - destruct (random_sample l g) as [[r0 g0]|e] eqn:E; [|discriminate].
    destruct (draw g0) as [x g1]. intros H; inversion H; subst.
    rewrite <- insert_at_perm. constructor. eapply IH; eauto.
Qed.

Lemma random_sample_In {A : Type} (l r : list A) (g g' : rng) (x : A) :
  random_sample l g = Ok (r, g') -> x ∈ r <-> x ∈ l.
Proof.
  intros H. apply random_sample_perm in H. split; intros Hx.
  - by rewrite H.
  - by rewrite <- H.
Qed.

Lemma random_sample_length {A : Type} (l r : list A) (g g' : rng) :
  random_sample l g = Ok (r, g') -> length r = length l.
Proof. intros H. apply random_sample_perm in H. by rewrite H. Qed.

(** ** [sorted]: an ordered permutation *)

Section InsertionSort.

Context {A : Type} (before : A -> A -> bool).
Hypothesis before_total : forall x y, before x y = false -> before y x = true.
Hypothesis before_trans :
  forall x y z, before x y = true -> before y z = true -> before x z = true.

Let ordered_by (x y : A) : Prop := before x y = true.

Lemma insert_by_perm (x : A) (l : list A) :
  Permutation (x :: l) (insert_by before x l).
Proof.
  induction l as [|y l IH]; simpl; [done|].
  destruct (before x y); [done|].
  rewrite perm_swap. by constructor.
Qed.

Lemma insert_by_sorted (x : A) (l : list A) :
  StronglySorted ordered_by l -> StronglySorted ordered_by (insert_by before x l).
Proof.
  induction 1 as [|y l Hl IH Hy]; simpl.
  - repeat constructor.
  - destruct (before x y) eqn:Exy.
    + constructor; [by constructor|].
      constructor; [done|].
      eapply Forall_impl; [exact Hy|]. intros z Hz. by eapply before_trans.
    + constructor; [done|].
      rewrite <- insert_by_perm. constructor; [|done].
      by apply before_total.
Qed.

Lemma foldr_insert_by_perm (l : list A) :
  Permutation l (foldr (insert_by before) [] l).
Proof.
  induction l as [|x l IH]; simpl; [done|].
  rewrite <- insert_by_perm. by constructor.
Qed.

Lemma foldr_insert_by_sorted (l : list A) :
  StronglySorted ordered_by (foldr (insert_by before) [] l).
Proof.
  induction l as [|x l IH]; simpl; [constructor|]. by apply insert_by_sorted.
Qed.

End InsertionSort.

Lemma StronglySorted_weaken {A : Type} (R1 R2 : A -> A -> Prop) (l : list A) :
  (forall x y, R1 x y -> R2 x y) -> StronglySorted R1 l -> StronglySorted R2 l.
Proof.
  intros HR. induction 1 as [|x l Hl IH Hx]; constructor; [done|].
  eapply Forall_impl; [exact Hx|]. auto.
Qed.

Lemma sorted_perm {A : Type} (key : A -> Z) (l : list A) :
  Permutation l (sorted key l).
Proof. apply foldr_insert_by_perm. Qed.

Lemma sorted_ascending {A : Type} (key : A -> Z) (l : list A) :
  StronglySorted (fun x y => key x <= key y) (sorted key l).
Proof.
  eapply StronglySorted_weaken;
    [|apply (foldr_insert_by_sorted (fun x y => key x <=? key y))].
  - intros x y H. by apply Z.leb_le.
  - intros x y H. apply Z.leb_le. apply Z.leb_gt in H. lia.
  - intros x y z H1 H2. apply Z.leb_le. apply Z.leb_le in H1, H2. lia.
Qed.

Lemma sorted_reverse_perm {A : Type} (key : A -> Z) (l : list A) :
  Permutation l (sorted_reverse key l).
Proof. apply foldr_insert_by_perm. Qed.

Lemma sorted_reverse_descending {A : Type} (key : A -> Z) (l : list A) :
  StronglySorted (fun x y => key y <= key x) (sorted_reverse key l).
Proof.
  eapply StronglySorted_weaken;
    [|apply (foldr_insert_by_sorted (fun x y => key y <=? key x))].
  - intros x y H. by apply Z.leb_le.
  - intros x y H. apply Z.leb_le. apply Z.leb_gt in H. lia.
  - intros x y z H1 H2. apply Z.leb_le. apply Z.leb_le in H1, H2. lia.
Qed.

(** ** [groupby] on a descending list: strictly descending keys *)

Section GroupBy.

Context {A : Type} (key : A -> Z).

Lemma groupby_concat (l : list A) : concat (map snd (groupby key l)) = l.
Proof.
  induction l as [|x l IH]; simpl; [done|].
  destruct (groupby key l) as [|[k grp] rest]; simpl in *.
  - by subst.
  - destruct (key x =? k); simpl; by rewrite <- IH.
Qed.

Lemma groupby_keys (l : list A) :
  Forall (fun kg => snd kg <> [] /\ Forall (fun x => key x = fst kg) (snd kg))
    (groupby key l).
Proof.
  induction l as [|x l IH]; simpl; [constructor|].
  destruct (groupby key l) as [|[k grp] rest]; simpl in *.
  - repeat constructor; simpl; done.
  - inversion IH as [|? ? [Hne Hk] Hrest]; subst; simpl in *.
    destruct (key x =? k) eqn:E.
    + apply Z.eqb_eq in E. constructor; [|done]. simpl. split; [done|].
      by constructor.
    + constructor; [simpl; split; [done | by repeat constructor]|].
      by constructor.
Qed.

Lemma groupby_key_In (l : list A) (kg : Z * list A) :
  kg ∈ groupby key l -> exists x, x ∈ l /\ key x = fst kg.
Proof.
  intros Hin.
  pose proof (groupby_keys l) as Hk. rewrite Forall_forall in Hk.
  destruct (Hk kg Hin) as [Hne Hall].
  destruct (snd kg) as [|x grp] eqn:E; [done|].
  exists x. split.
  - rewrite <- (groupby_concat l). apply list_elem_of_In, in_concat.
    exists (snd kg). split.
    + apply in_map. by apply list_elem_of_In.
    + rewrite E. by left.
  - by inversion Hall.
Qed.

Lemma groupby_descending (l : list A) :
  StronglySorted (fun x y => key y <= key x) l ->
  StronglySorted (fun a b => fst b < fst a) (groupby key l).
Proof.
  induction 1 as [|x l Hl IH Hx]; simpl; [constructor|].
  pose proof (groupby_key_In l) as Hin.
  destruct (groupby key l) as [|[k grp] rest]; simpl in *.
  - repeat constructor.
  - inversion IH as [|? ? Hrest Hk]; subst.
    destruct (Hin (k, grp)) as (y & Hy & Hky); [by left|]. simpl in Hky.
    rewrite Forall_forall in Hx.
    assert (k <= key x) as Hle by (rewrite <- Hky; apply Hx; done).
    destruct (key x =? k) eqn:E.
    + by constructor.
    + apply Z.eqb_neq in E. constructor; [done|].
      constructor; [simpl; lia|].
      eapply Forall_impl; [exact Hk|]. simpl. intros; lia.
Qed.

End GroupBy.

Lemma StronglySorted_lookup_lt {A : Type} (R : A -> A -> Prop) (l : list A)
  (i j : nat) (x y : A) :
  StronglySorted R l -> l !! i = Some x -> l !! j = Some y -> (i < j)%nat ->
  R x y.
Proof.
  intros Hs. revert i j. induction Hs as [|z l Hl IH Hz]; intros i j Hi Hj Hlt.
  - done.
  - destruct j as [|j]; [lia|]. simpl in Hj. destruct i as [|i]; simpl in Hi.
    + inversion Hi; subst. rewrite Forall_forall in Hz. apply Hz.
      eapply list_elem_of_lookup_2; eauto.
    + eapply IH; eauto. lia.
Qed.

(** ** The tiers of one player *)

Lemma sample_groups_total (groups : list (Z * list SessionPreference)) (g : rng) :
  exists ss g', sample_groups groups g = Ok (ss, g').
Proof.
  revert g; induction groups as [|[k v] rest IH]; intros g; simpl.
  - unfold ret; eauto.
  - unfold bind. destruct (random_sample_total v g) as (s & g1 & ->).
    destruct (IH g1) as (ss & g2 & ->). unfold ret; eauto.
Qed.

Lemma sample_groups_perm (groups : list (Z * list SessionPreference))
  (ss : list (list SessionPreference)) (g g' : rng) :
  sample_groups groups g = Ok (ss, g') ->
  Forall2 (fun kg s => Permutation (snd kg) s) groups ss.
Proof.
  revert ss g g'; induction groups as [|[k v] rest IH]; intros ss g g' H;
    simpl in H.
  - ok_step H. subst; constructor.
  - repeat ok_step H. subst. constructor; [|eauto].
    simpl. eapply random_sample_perm; eauto.
Qed.

Lemma _order_preferences_for_player_total
  (preferences : list SessionPreference) (g : rng) :
  exists ts g', _order_preferences_for_player preferences g = Ok (ts, g').
Proof.
  unfold _order_preferences_for_player, bind.
  destruct (sample_groups_total
              (groupby preference (sorted_reverse preference preferences)) g)
    as (ss & g' & ->).
  unfold ret; eauto.
Qed.

(** ** The loss map of one player *)

Lemma foldl_insert_lookup (n : nat) (t : list Z) (acc : gmap Z nat) (a : Z) :
  foldl (fun m ta_id => <[ta_id := n]> m) acc t !! a
  = if decide (a ∈ t) then Some n else acc !! a.
Proof.
  revert acc; induction t as [|b t IH]; intros acc; simpl.
  - destruct (decide (a ∈ [])) as [H|H]; [by apply elem_of_nil in H | done].
  - rewrite IH. repeat case_decide; try done.
    + exfalso. set_solver.
    + rewrite lookup_insert. case_decide; [done|]. exfalso. set_solver.
    + rewrite lookup_insert_ne; [done|]. set_solver.
Qed.

Lemma loss_of_tiers_notin (n : nat) (ts : tiers) (acc : gmap Z nat) (a : Z) :
  a ∉ concat ts -> loss_of_tiers n ts acc !! a = acc !! a.
Proof.
  revert n acc; induction ts as [|t ts IH]; intros n acc Hn; simpl; [done|].
  simpl in Hn. rewrite IH by set_solver.
  rewrite foldl_insert_lookup. case_decide; [|done]. exfalso. set_solver.
Qed.

Lemma loss_of_tiers_in (n i : nat) (ts : tiers) (t : list Z)
  (acc : gmap Z nat) (a : Z) :
  NoDup (concat ts) -> ts !! i = Some t -> a ∈ t ->
  loss_of_tiers n ts acc !! a = Some (n + i)%nat.
Proof.
  revert n i acc; induction ts as [|t0 ts IH]; intros n i acc Hnd Hi Ha;
    [done|].
  simpl in Hnd. apply NoDup_app in Hnd as (Hnd0 & Hdisj & Hnd1).
  destruct i as [|i]; simpl in *.
  - inversion Hi; subst. rewrite loss_of_tiers_notin by auto.
    rewrite foldl_insert_lookup. case_decide; [|done]. f_equal; lia.
  - rewrite (IH (S n) i) by done. f_equal; lia.
Qed.

(** Whatever the map says is backed by a tier, duplicates or not. *)
Lemma loss_of_tiers_sound (n k : nat) (ts : tiers) (acc : gmap Z nat) (a : Z) :
  loss_of_tiers n ts acc !! a = Some k ->
  (acc !! a = Some k /\ a ∉ concat ts)
  \/ exists i t, k = (n + i)%nat /\ ts !! i = Some t /\ a ∈ t.
Proof.
  revert n acc; induction ts as [|t ts IH]; intros n acc H; simpl in *.
  - left. split; [done|]. apply not_elem_of_nil.
  - apply IH in H as [[H Hn]|(i & t' & -> & Hi & Ha)].
    + rewrite foldl_insert_lookup in H. case_decide as Hd.
      * right. exists 0%nat, t. inversion H. split; [lia|]. done.
      * left. split; [done|]. set_solver.
    + right. exists (S i), t'. split; [lia|]. done.
Qed.

Lemma loss_of_tiers_defined (n : nat) (ts : tiers) (acc : gmap Z nat) (a : Z) :
  a ∈ concat ts -> is_Some (loss_of_tiers n ts acc !! a).
Proof.
  revert n acc; induction ts as [|t ts IH]; intros n acc Ha; simpl in *.
  - by apply elem_of_nil in Ha.
  - destruct (decide (a ∈ concat ts)) as [Hin|Hout]; [by apply IH|].
    rewrite loss_of_tiers_notin by done. rewrite foldl_insert_lookup.
    case_decide; [done|]. exfalso. set_solver.
Qed.

Lemma loss_sound (ts : tiers) (a : Z) (k : nat) :
  loss_of_tiers 0 ts ∅ !! a = Some k -> exists t, ts !! k = Some t /\ a ∈ t.
Proof.
  intros H. apply loss_of_tiers_sound in H as [[H _]|(i & t & -> & Hi & Ha)].
  - by rewrite lookup_empty in H.
  - eauto.
Qed.

(** The ids in the tiers are the ids in the preferences. *)
Lemma Forall2_perm_concat {A B : Type} (f : A -> list B) (l : list A)
  (ss : list (list B)) :
  Forall2 (fun x s => Permutation (f x) s) l ss ->
  Permutation (concat (map f l)) (concat ss).
Proof.
  induction 1 as [|x s l ss Hx Hl IH]; simpl; [done|].
  by apply Permutation_app.
Qed.

Lemma tiers_perm (preferences : list SessionPreference) (ts : tiers)
  (g g' : rng) :
  _order_preferences_for_player preferences g = Ok (ts, g') ->
  Permutation (map table_allocation_id preferences) (concat ts).
Proof.
  unfold _order_preferences_for_player. intros H. repeat ok_step H. subst.
  apply sample_groups_perm in E. apply Forall2_perm_concat in E.
  rewrite groupby_concat in E.
  rewrite <- concat_map. apply Permutation_map.
  rewrite <- E. apply sorted_reverse_perm.
Qed.

Lemma tier_of_preference (preferences : list SessionPreference) (ts : tiers)
  (g g' : rng) (a : SessionPreference) :
  _order_preferences_for_player preferences g = Ok (ts, g') ->
  a ∈ preferences ->
  exists i kg t,
    groupby preference (sorted_reverse preference preferences) !! i = Some kg
    /\ fst kg = preference a
    /\ ts !! i = Some t
    /\ table_allocation_id a ∈ t.
Proof.
  unfold _order_preferences_for_player. intros H Ha. repeat ok_step H. subst.
  set (gs := groupby preference (sorted_reverse preference preferences)) in *.
  assert (a ∈ concat (map snd gs)) as Hc.
  { unfold gs. rewrite groupby_concat. by rewrite <- sorted_reverse_perm. }
  apply list_elem_of_In, in_concat in Hc as (grp & Hgrp & Hin).
  apply in_map_iff in Hgrp as (kg & <- & Hkg).
  apply list_elem_of_In, list_elem_of_lookup in Hkg as (i & Hi).
  apply sample_groups_perm in E.
  destruct (Forall2_lookup_l _ _ _ _ _ E Hi) as (s & Hs & Hperm).
  exists i, kg, (map table_allocation_id s). repeat split.
  - done.
  - pose proof (groupby_keys preference (sorted_reverse preference preferences))
      as Hk.
    rewrite Forall_forall in Hk.
    destruct (Hk kg) as [_ Hall].
    { eapply list_elem_of_lookup_2; eauto. }
    rewrite Forall_forall in Hall. symmetry. apply Hall. by apply list_elem_of_In.
  - change (map (map table_allocation_id) v)
      with (map table_allocation_id <$> v).
    by rewrite list_lookup_fmap, Hs.
  - change (map table_allocation_id s) with (table_allocation_id <$> s).
    apply list_elem_of_fmap. exists a. split; [done|].
    rewrite <- Hperm. by apply list_elem_of_In.
Qed.

(** C8. For a player whose preference rows name each table at most once,
    a table with a strictly higher preference score gets a strictly
    smaller loss (tier index). *)
Theorem tier_strictly_monotone (preferences : list SessionPreference)
  (ts : tiers) (g g' : rng) (a b : SessionPreference) :
  NoDup (map table_allocation_id preferences) ->
  _order_preferences_for_player preferences g = Ok (ts, g') ->
  a ∈ preferences -> b ∈ preferences ->
  preference b < preference a ->
  exists i j,
    loss_of_tiers 0 ts ∅ !! table_allocation_id a = Some i
    /\ loss_of_tiers 0 ts ∅ !! table_allocation_id b = Some j
    /\ (i < j)%nat.
Proof.
  intros Hnd H Ha Hb Hlt.
  destruct (tier_of_preference _ _ _ _ a H Ha) as (i & ka & ta & Hi & Hka & Hti & Hai).
  destruct (tier_of_preference _ _ _ _ b H Hb) as (j & kb & tb & Hj & Hkb & Htj & Hbj).
  assert (NoDup (concat ts)) as Hnd'.
  { by rewrite <- (tiers_perm _ _ _ _ H). }
  exists i, j. split; [|split].
  - by rewrite (loss_of_tiers_in 0 i ts ta).
  - by rewrite (loss_of_tiers_in 0 j ts tb).
  - pose proof (groupby_descending preference _
                  (sorted_reverse_descending preference preferences)) as Hd.
    destruct (Nat.lt_trichotomy i j) as [Hij|[Hij|Hij]]; [done| |].
    + subst j. rewrite Hi in Hj. inversion Hj; subst. lia.
    + pose proof (StronglySorted_lookup_lt _ _ _ _ _ _ Hd Hj Hi Hij) as Hc.
      simpl in Hc. lia.
Qed.

Lemma tier_strictly_monotone_witness :
  exists i j,
    loss_of_tiers 0 [[2]; [3; 1]; [4]] ∅ !! 2 = Some i
    /\ loss_of_tiers 0 [[2]; [3; 1]; [4]] ∅ !! 1 = Some j
    /\ (i < j)%nat.
Proof.
  apply (tier_strictly_monotone example_preferences [[2]; [3; 1]; [4]]
           [0; 0; 1]%nat []
           (likes 7 2 20) (likes 7 1 3)).
  - vm_compute. repeat constructor; set_solver.
  - vm_compute. reflexivity.
  - set_solver.
  - set_solver.
  - simpl. lia.
Defined.

(** ** The polite pass *)

Section Polite.

Context (tal : gmap Z TableAllocation).

Lemma decorate_spec (cur : allocations) (ids : list Z) (ks : list (Z * Z)) :
  decorate tal cur ids = Ok ks ->
  map fst ks = ids
  /\ Forall (fun ak => missing_players tal cur (fst ak) = Ok (snd ak)) ks.
Proof.
  revert ks; induction ids as [|a ids IH]; intros ks H; simpl in H.
  - ok_step H. split; constructor.
  - repeat ok_step H. destruct (IH _ E0) as [Hm Hf]. simpl. split.
    + by rewrite Hm.
    + by constructor.
Qed.


Lemma sorted_ids_perm (cur : allocations) (ids sorted_ids : list Z) :
  ta_ids_sorted_by_missing_players tal cur ids = Ok sorted_ids ->
  Permutation ids sorted_ids.
Proof.
  unfold ta_ids_sorted_by_missing_players. intros H. repeat ok_step H.
  destruct (decorate_spec _ _ _ E) as [Hm _].
  rewrite <- Hm. apply Permutation_map, sorted_perm.
Qed.




End Polite.



(** ** The candidate scan of [try_make_up_numbers] *)

Section Scan.

Context (tal : gmap Z TableAllocation).
Context (opp : gmap Z tiers).
Context (lpt : gmap Z (gmap Z nat)).

Lemma member_spec (x : Z) (l : list Z) : member x l = true <-> x ∈ l.
Proof.
  unfold member. rewrite existsb_exists. split.
  - intros (y & Hy & E). apply Z.eqb_eq in E. subst. by apply list_elem_of_In.
  - intros H. exists x. split; [by apply list_elem_of_In | apply Z.eqb_refl].
Qed.

Lemma scan_players_raises (ta d : Z) (ps : list Z) (e : exn) :
  scan_players opp lpt ta d ps = Raise e -> e = KeyError.
Proof.
  induction ps as [|h ps IH]; simpl; [discriminate|].
  unfold rbind at 1. destruct (lpt !! h) as [m|]; simpl; [|by inversion 1].
  destruct (m !! d) as [k|]; simpl; [|by inversion 1].
  destruct (m !! ta) as [k'|]; simpl; [|by inversion 1].
  destruct (k' <? k)%nat; [done|].
  destruct (opp !! h) as [ts|]; simpl; [|by inversion 1].
  destruct (ts !! k) as [tier|]; simpl; [|by inversion 1].
  destruct (member ta tier); [|done].
  destruct (scan_players opp lpt ta d ps); simpl; [discriminate|].
  intros H; inversion H; subst. by apply IH.
Qed.

Lemma scan_players_missing (ta d : Z) (ps : list Z) (h : Z) :
  h ∈ ps -> loss_at lpt h ta = None ->
  scan_players opp lpt ta d ps = Raise KeyError.
Proof.
  unfold loss_at. intros Hin Hnone.
  induction ps as [|h0 ps IH]; [by apply elem_of_nil in Hin|].
  simpl. destruct (lpt !! h0) as [m|] eqn:Em; simpl; [|done].
  destruct (m !! d) as [k|]; simpl; [|done].
  destruct (m !! ta) as [k'|] eqn:Ek'; simpl.
  - assert (h ∈ ps) as Hps.
    { apply elem_of_cons in Hin as [->|]; [|done].
      rewrite Em in Hnone. congruence. }
    specialize (IH Hps).
    destruct (k' <? k)%nat; [done|].
    destruct (opp !! h0) as [ts|]; simpl; [|done].
    destruct (ts !! k) as [tier|]; simpl; [|done].
    destruct (member ta tier); [|done]. by rewrite IH.
  - done.
Qed.

Lemma scan_players_spec (cur : allocations) (ta d : Z) (ps0 ps : list Z)
  (cs : list (Z * Z)) :
  d <> ta -> cur !! d = Some ps0 -> (forall h, h ∈ ps -> h ∈ ps0) ->
  scan_players opp lpt ta d ps = Ok cs -> Forall (candidate opp lpt cur ta) cs.
Proof.
  intros Hd Hcur. revert cs. induction ps as [|h ps IH]; intros cs Hsub H;
    simpl in H.
  - ok_step H. constructor.
  - ok_step H. ok_step E. ok_step H. ok_step E0. ok_step H. ok_step E1.
    assert (forall h', h' ∈ ps -> h' ∈ ps0) as Hsub'.
    { intros h' Hh'. apply Hsub. by right. }
    destruct (v1 <? v0)%nat eqn:Elt; [by apply IH|].
    ok_step H. ok_step E2. ok_step H. ok_step E3.
    destruct (member ta v3) eqn:Emem; [|by apply IH].
    ok_step H. ok_step H. constructor; [|by apply IH].
    apply Nat.ltb_ge in Elt. apply member_spec in Emem.
    split; [done|]. split.
    + exists ps0. split; [done|]. apply Hsub. by left.
    + exists v0, v1, v2, v3. unfold loss_at. simpl. rewrite E.
      repeat split; done.
Qed.

Lemma scan_tables_raises (cur : allocations) (ta : Z) (donors : list Z)
  (e : exn) :
  scan_tables opp lpt cur ta donors = Raise e -> e = KeyError.
Proof.
  induction donors as [|d donors IH]; simpl; [discriminate|].
  destruct (d =? ta); [done|].
  destruct (cur !! d) as [ps|]; simpl; [|by inversion 1].
  destruct (scan_players opp lpt ta d ps) eqn:E; simpl.
  - destruct (scan_tables opp lpt cur ta donors); simpl; [discriminate|].
    intros H; inversion H; subst. by apply IH.
  - intros H; inversion H; subst. by apply scan_players_raises in E.
Qed.

Lemma scan_tables_missing (cur : allocations) (ta : Z) (donors : list Z)
  (d h : Z) (ps : list Z) :
  d ∈ donors -> d <> ta -> cur !! d = Some ps -> h ∈ ps ->
  loss_at lpt h ta = None ->
  scan_tables opp lpt cur ta donors = Raise KeyError.
Proof.
  intros Hd Hne Hcur Hh Hnone.
  induction donors as [|d0 donors IH]; [by apply elem_of_nil in Hd|].
  simpl. destruct (d0 =? ta) eqn:E0.
  - apply IH. apply elem_of_cons in Hd as [->|]; [|done].
    apply Z.eqb_eq in E0. done.
  - destruct (decide (d0 = d)) as [->|Hdd].
    + rewrite Hcur. simpl. by rewrite (scan_players_missing ta d ps h).
    + assert (d ∈ donors) as Hd' by set_solver. specialize (IH Hd').
      destruct (cur !! d0) as [ps0|]; simpl; [|done].
      destruct (scan_players opp lpt ta d0 ps0) eqn:E; simpl.
      * by rewrite IH.
      * by apply scan_players_raises in E as ->.
Qed.

Lemma scan_tables_spec (cur : allocations) (ta : Z) (donors : list Z)
  (cs : list (Z * Z)) :
  scan_tables opp lpt cur ta donors = Ok cs -> Forall (candidate opp lpt cur ta) cs.
Proof.
  revert cs; induction donors as [|d donors IH]; intros cs H; simpl in H.
  - ok_step H. constructor.
  - destruct (d =? ta) eqn:E0; [by apply IH|]. apply Z.eqb_neq in E0.
    ok_step H. ok_step E. ok_step H. ok_step H. ok_step H.
    apply Forall_app. split; [|by apply IH].
    eapply scan_players_spec; eauto.
Qed.

(** C10. If some player seated at an over-optimal donor table (other than
    the target) has no loss entry for the under-minimum target table, the
    scan does not skip that player: it raises [KeyError], and so does
    [try_make_up_numbers]. *)
Theorem scan_raises_KeyError_without_target_entry (cur : allocations)
  (ta : Z) (donors : list Z) (d h : Z) (ps : list Z) (g : rng) :
  d ∈ donors -> d <> ta -> cur !! d = Some ps -> h ∈ ps ->
  loss_at lpt h ta = None ->
  scan_tables opp lpt cur ta donors = Raise KeyError
  /\ try_make_up_numbers tal opp lpt cur ta donors g = Raise KeyError.
Proof.
  intros Hd Hne Hcur Hh Hnone.
  pose proof (scan_tables_missing cur ta donors d h ps Hd Hne Hcur Hh Hnone)
    as Hscan.
  split; [done|].
  unfold try_make_up_numbers, bind, lift.
  destruct (tal !! ta); simpl; [|done].
  destruct (cur !! ta); simpl; [|done].
  by rewrite Hscan.
Qed.

End Scan.

(** ** [list.remove] *)

Lemma py_remove_perm (x : Z) (l l' : list Z) :
  py_remove x l = Ok l' -> Permutation l (x :: l').
Proof.
  unfold py_remove. revert l'. induction l as [|y l IH]; intros l'; simpl.
  - discriminate.
  - destruct (x =? y) eqn:E.
    + apply Z.eqb_eq in E. subst. intros H; inversion H; subst. done.
    + destruct (list_remove_first x l) as [r|]; [|discriminate].
      intros H; inversion H; subst. rewrite perm_swap. constructor.
      by apply IH.
Qed.

Lemma py_remove_len (x : Z) (l l' : list Z) :
  py_remove x l = Ok l' -> len l = len l' + 1.
Proof.
  intros H. apply py_remove_perm in H. unfold len. rewrite H. simpl. lia.
Qed.

Lemma py_remove_total (x : Z) (l : list Z) :
  x ∈ l -> exists l', py_remove x l = Ok l'.
Proof.
  unfold py_remove. induction l as [|y l IH]; intros H.
  - by apply elem_of_nil in H.
  - simpl. destruct (x =? y) eqn:E; [eauto|].
    apply Z.eqb_neq in E. destruct IH as (l' & Hl'); [set_solver|].
    destruct (list_remove_first x l); [eauto | discriminate].
Qed.

(** ** The greedy selection and the moves of [try_make_up_numbers] *)

Section Repair.

Context (tal : gmap Z TableAllocation).
Context (opp : gmap Z tiers).
Context (lpt : gmap Z (gmap Z nat)).

Lemma select_players_incl (cur : allocations) (sweet : Z)
  (selected cands r : list (Z * Z)) :
  select_players tal cur sweet selected cands = Ok r ->
  exists extra, r = selected ++ extra /\ forall c, c ∈ extra -> c ∈ cands.
Proof.
  revert selected; induction cands as [|[d h] cands IH]; intros selected H;
    simpl in H.
  - ok_step H. exists []. split; [by rewrite app_nil_r|]. done.
  - ok_step H. ok_step H.
    destruct (_ <=? _).
    + destruct (IH _ H) as (extra & -> & Hsub). exists extra.
      split; [done|]. intros c Hc. right. by apply Hsub.
    + destruct (_ =? _).
      * ok_step H. exists [(d, h)]. split; [done|]. intros c Hc.
        apply list_elem_of_singleton in Hc as ->. by left.
      * destruct (IH _ H) as (extra & -> & Hsub). exists ((d, h) :: extra).
        split; [by rewrite <- app_assoc|]. intros c Hc.
        apply elem_of_cons in Hc as [->|Hc]; [by left|]. right. by apply Hsub.
Qed.

(** The [break] caps the selection at the sweet-spot deficit. *)
Lemma select_players_bound (cur : allocations) (sweet : Z)
  (selected cands r : list (Z * Z)) :
  len selected < sweet ->
  select_players tal cur sweet selected cands = Ok r -> len r <= sweet.
Proof.
  revert selected; induction cands as [|[d h] cands IH]; intros selected Hlt H;
    simpl in H.
  - ok_step H. lia.
  - ok_step H. ok_step H.
    destruct (_ <=? _); [by eapply IH|].
    destruct (_ =? _) eqn:Ebrk.
    + ok_step H. apply Z.eqb_eq in Ebrk. lia.
    + apply Z.eqb_neq in Ebrk. eapply IH; [|exact H].
      unfold len in *. rewrite length_app in *. simpl in *. lia.
Qed.

(** Moves away from other tables only: the target gains exactly the moved
    players. *)
Lemma apply_moves_target (cur cur' : allocations) (ta : Z)
  (moves : list (Z * Z)) (l : list Z) :
  Forall (fun c => fst c <> ta) moves ->
  cur !! ta = Some l ->
  apply_moves cur ta moves = Ok cur' ->
  cur' !! ta = Some (l ++ map snd moves).
Proof.
  revert cur l; induction moves as [|[d h] moves IH]; intros cur l Hne Hl H;
    simpl in H.
  - ok_step H. by rewrite app_nil_r.
  - inversion Hne as [|? ? Hd Hne']; subst. simpl in Hd.
    ok_step H. ok_step H. ok_step H. ok_step E1.
    rewrite lookup_insert_ne in E1 by done. rewrite Hl in E1.
    inversion E1; subst.
    rewrite (IH _ (v1 ++ [h]) Hne' (lookup_insert_eq _ _ _) H).
    simpl. by rewrite <- app_assoc.
Qed.

(** Every other table keeps its key and does not grow. *)
Lemma apply_moves_others (cur cur' : allocations) (ta : Z)
  (moves : list (Z * Z)) (t : Z) (l : list Z) :
  t <> ta -> cur !! t = Some l ->
  apply_moves cur ta moves = Ok cur' ->
  exists l', cur' !! t = Some l' /\ len l' <= len l.
Proof.
  intros Ht. revert cur l; induction moves as [|[d h] moves IH];
    intros cur l Hl H; simpl in H.
  - ok_step H. exists l. split; [done | lia].
  - ok_step H. ok_step E. ok_step H. ok_step H. ok_step E1.
    destruct (decide (d = t)) as [->|Hd].
    + rewrite Hl in E. inversion E; subst.
      destruct (IH (<[ta := v1 ++ [h]]> (<[t := v0]> cur)) v0) as (l' & Hl' & Hle).
      * rewrite lookup_insert_ne by done. apply lookup_insert_eq.
      * done.
      * exists l'. split; [done|]. apply py_remove_len in E0. lia.
    + apply (IH (<[ta := v1 ++ [h]]> (<[d := v0]> cur)) l); [|done].
      rewrite lookup_insert_ne by done. by rewrite lookup_insert_ne.
Qed.

Lemma try_make_up_numbers_true (cur cur' : allocations) (ta : Z)
  (donors : list Z) (g g' : rng) :
  try_make_up_numbers tal opp lpt cur ta donors g = Ok ((cur', true), g') ->
  exists t l cands shuffled selected,
    tal !! ta = Some t /\ cur !! ta = Some l
    /\ scan_tables opp lpt cur ta donors = Ok cands
    /\ Permutation cands shuffled
    /\ select_players tal cur (optimal_players (game t) - len l) [] shuffled
       = Ok selected
    /\ minimum_players (game t) - len l <= len selected
    /\ apply_moves cur ta selected = Ok cur'.
Proof.
  unfold try_make_up_numbers. intros H.
  ok_step H. ok_step E. ok_step E. ok_step H. ok_step E0. ok_step E0.
  ok_step H. ok_step E1.
  destruct (_ <? _) eqn:C1; [ok_step H; inversion H|].
  ok_step H. ok_step H. ok_step E3.
  destruct (len v3 <? _) eqn:C2; [ok_step H; inversion H|].
  ok_step H. ok_step E4. ok_step H. inversion H; subst.
  apply Z.ltb_ge in C2.
  exists v, v0, v1, v2, v3. repeat split; try done.
  eapply random_sample_perm; eauto.
Qed.

Lemma try_make_up_numbers_false (cur cur' : allocations) (ta : Z)
  (donors : list Z) (g g' : rng) :
  try_make_up_numbers tal opp lpt cur ta donors g = Ok ((cur', false), g') ->
  cur' = cur.
Proof.
  unfold try_make_up_numbers. intros H.
  ok_step H. ok_step E. ok_step E. ok_step H. ok_step E0. ok_step E0.
  ok_step H. ok_step E1.
  destruct (_ <? _) eqn:C1; [ok_step H; by inversion H|].
  ok_step H. ok_step H. ok_step E3.
  destruct (len v3 <? _) eqn:C2; [ok_step H; by inversion H|].
  ok_step H. ok_step E4. ok_step H. inversion H.
Qed.

Lemma selected_are_candidates (cur : allocations) (ta : Z) (sweet : Z)
  (cands shuffled selected : list (Z * Z)) :
  Forall (candidate opp lpt cur ta) cands ->
  Permutation cands shuffled ->
  select_players tal cur sweet [] shuffled = Ok selected ->
  Forall (candidate opp lpt cur ta) selected.
Proof.
  intros Hc Hp Hs. apply select_players_incl in Hs as (extra & -> & Hsub).
  simpl. rewrite Forall_forall in *. intros c Hin. apply Hc.
  rewrite Hp. by apply Hsub.
Qed.

(** The target of a successful repair gains the selected players, at
    least the minimum deficit and at most the sweet-spot deficit. *)
Lemma repair_target_gain (cur cur' : allocations)
  (ta : Z) (donors : list Z) (g g' : rng) (t : TableAllocation)
  (l : list Z) :
  tal !! ta = Some t -> cur !! ta = Some l ->
  len l < minimum_players (game t) ->
  minimum_players (game t) <= optimal_players (game t) ->
  try_make_up_numbers tal opp lpt cur ta donors g = Ok ((cur', true), g') ->
  exists moved,
    cur' !! ta = Some (l ++ moved)
    /\ minimum_players (game t) - len l <= len moved
       <= optimal_players (game t) - len l.
Proof.
  intros Ht Hl Hunder Hcontract H.
  apply try_make_up_numbers_true in H
    as (t' & l0 & cands & shuffled & selected & Ht' & Hl0 & Hscan & Hperm
        & Hsel & Hmin & Happly).
  rewrite Ht in Ht'. rewrite Hl in Hl0. inversion Ht'; inversion Hl0; subst.
  pose proof (scan_tables_spec _ _ _ _ _ _ Hscan) as Hc.
  pose proof (selected_are_candidates _ _ _ _ _ _ Hc Hperm Hsel) as Hs.
  assert (Forall (fun c => fst c <> ta) selected) as Hne.
  { eapply Forall_impl; [exact Hs|]. by intros c (? & _). }
  exists (map snd selected). split.
  - eapply apply_moves_target; eauto.
  - apply select_players_bound in Hsel; [|unfold len in *; simpl; lia].
    unfold len in *. rewrite length_map. lia.
Qed.

(** C9. When [try_make_up_numbers] succeeds on a table that is below its
    minimum (and whose minimum does not exceed its optimal size, as the
    data model requires), the table ends with at least its minimum and at
    most its optimal number of players. *)
Theorem repair_fills_between_minimum_and_optimal (cur cur' : allocations)
  (ta : Z) (donors : list Z) (g g' : rng) (t : TableAllocation)
  (l : list Z) :
  tal !! ta = Some t -> cur !! ta = Some l ->
  len l < minimum_players (game t) ->
  minimum_players (game t) <= optimal_players (game t) ->
  try_make_up_numbers tal opp lpt cur ta donors g = Ok ((cur', true), g') ->
  exists l',
    cur' !! ta = Some l'
    /\ minimum_players (game t) <= len l' <= optimal_players (game t).
Proof.
  intros Ht Hl Hunder Hcontract H.
  destruct (repair_target_gain _ _ _ _ _ _ _ _ Ht Hl Hunder Hcontract H)
    as (moved & Hl' & Hlo & Hhi).
  exists (l ++ moved). split; [done|].
  unfold len in *. rewrite length_app. lia.
Qed.

End Repair.

(** ** [initial_allocate] as a placement step *)

Section Placement.

Context (tal : gmap Z TableAllocation).
Context (opp : gmap Z tiers).
Context (lpt : gmap Z (gmap Z nat)).

Lemma polite_Some (cur c : allocations) (p : Z) (ids : list Z) :
  polite tal cur p ids = Ok (Some c) ->
  exists ta l t,
    ta ∈ ids /\ cur !! ta = Some l /\ tal !! ta = Some t
    /\ len l < maximum_players (game t) /\ c = <[ta := l ++ [p]]> cur.
Proof.
  induction ids as [|a ids IH]; intros H; simpl in H.
  - ok_step H.
  - ok_step H. ok_step E. ok_step H. ok_step E0.
    destruct (_ <? _) eqn:C.
    + ok_step H. apply Z.ltb_lt in C. exists a, v, v0.
      repeat split; try done. by left.
    + destruct (IH H) as (ta & l & t & Hin & ?). exists ta, l, t.
      split; [by right | done].
Qed.

Lemma polite_None (cur : allocations) (p : Z) (ids : list Z) :
  polite tal cur p ids = Ok None ->
  forall ta, ta ∈ ids ->
    exists l t, cur !! ta = Some l /\ tal !! ta = Some t
                /\ maximum_players (game t) <= len l.
Proof.
  induction ids as [|a ids IH]; intros H ta Hin; simpl in H.
  - by apply elem_of_nil in Hin.
  - ok_step H. ok_step E. ok_step H. ok_step E0.
    destruct (_ <? _) eqn:C; [ok_step H|]. apply Z.ltb_ge in C.
    apply elem_of_cons in Hin as [->|Hin]; [eauto | by apply IH].
Qed.

Lemma try_other_tables_Some (cur c : allocations) (p ta other : Z)
  (cands : list Z) :
  try_other_tables tal cur p ta other cands = Ok (Some c) ->
  exists other_ta l t,
    other_ta ∈ cands /\ cur !! other_ta = Some l /\ tal !! other_ta = Some t
    /\ len l < maximum_players (game t)
    /\ move_and_join cur p ta other other_ta = Ok c.
Proof.
  induction cands as [|a cands IH]; intros H; simpl in H.
  - ok_step H.
  - ok_step H. ok_step E. ok_step H. ok_step E0.
    destruct (_ <? _) eqn:C.
    + ok_step H. ok_step H. apply Z.ltb_lt in C. exists a, v, v0.
      repeat split; try done. by left.
    + destruct (IH H) as (x & l & t & Hin & ?). exists x, l, t.
      split; [by right | done].
Qed.

Lemma try_other_players_Some (tsp : tiers) (cur c : allocations) (p : Z)
  (i : nat) (tier : list Z) (ta : Z) (all_others others : list Z)
  (g g' : rng) :
  tsp !! i = Some tier -> ta ∈ tier -> cur !! ta = Some all_others ->
  (forall o, o ∈ others -> o ∈ all_others) ->
  try_other_players tal opp lpt cur p i ta others g = Ok (Some c, g') ->
  placement tal opp lpt tsp cur p c.
Proof.
  intros Hi Hta Hcur. revert g.
  induction others as [|o others IH]; intros g Hsub H; simpl in H.
  - ok_step H. discriminate.
  - assert (forall o', o' ∈ others -> o' ∈ all_others) as Hsub'.
    { intros o' Ho'. apply Hsub. by right. }
    ok_step H. ok_step E. ok_step E. ok_step H. ok_step E0. ok_step E0.
    destruct (i <=? v0)%nat eqn:C; [|by eapply IH].
    apply Nat.leb_le in C.
    ok_step H. ok_step E1. ok_step E1. ok_step H. ok_step E2. ok_step E2.
    ok_step H. ok_step H. ok_step E4.
    destruct v4 as [c'|]; [|by eapply IH].
    ok_step H. inversion H; subst.
    apply try_other_tables_Some in E4
      as (other_ta & l & t & Hin & Hl & Ht & Hlt & Hmove).
    eapply (bump_seat _ _ _ _ _ _ i tier ta all_others o v0 v1 v2 other_ta l t);
      try done.
    + apply Hsub. by left.
    + unfold loss_at. by rewrite E.
    + by rewrite <- (random_sample_In _ _ _ _ other_ta E3).
Qed.

Lemma try_move_Some (tsp : tiers) (cur c : allocations) (p : Z) (i : nat)
  (tier ids : list Z) (g g' : rng) :
  tsp !! i = Some tier -> (forall ta, ta ∈ ids -> ta ∈ tier) ->
  try_move tal opp lpt cur p i ids g = Ok (Some c, g') ->
  placement tal opp lpt tsp cur p c.
Proof.
  intros Hi. revert g. induction ids as [|a ids IH]; intros g Hsub H;
    simpl in H.
  - ok_step H. discriminate.
  - ok_step H. ok_step E. ok_step E. ok_step H.
    destruct v0 as [c'|].
    + ok_step H. inversion H; subst.
      eapply (try_other_players_Some tsp cur _ p i tier a v v); eauto.
      apply Hsub. by left.
    + eapply IH; eauto. intros ta Hta. apply Hsub. by right.
Qed.

Lemma walk_tiers_true (tsp : tiers) (cur cur' : allocations) (p : Z)
  (n : nat) (rest : tiers) (g g' : rng) :
  (forall j tier, rest !! j = Some tier -> tsp !! (n + j)%nat = Some tier) ->
  walk_tiers tal opp lpt cur p n rest g = Ok ((cur', true), g') ->
  placement tal opp lpt tsp cur p cur'.
Proof.
  revert n g. induction rest as [|ids rest IH]; intros n g Hrest H;
    simpl in H.
  - ok_step H. inversion H.
  - assert (tsp !! n = Some ids) as Hn.
    { specialize (Hrest 0%nat ids eq_refl). by rewrite Nat.add_0_r in Hrest. }
    ok_step H. ok_step E. ok_step H. ok_step E0.
    destruct v0 as [c|].
    + ok_step H. inversion H; subst.
      apply polite_Some in E0 as (ta & l & t & Hin & Hl & Ht & Hlt & ->).
      apply sorted_ids_perm in E as Hperm.
      eapply (polite_seat _ _ _ _ _ _ n ids ta l t); try done.
      by rewrite Hperm.
    + ok_step H. ok_step H. destruct v1 as [c|].
      * ok_step H. inversion H; subst.
        eapply (try_move_Some tsp cur _ p n ids v0); eauto.
        intros ta Hta. by rewrite <- (random_sample_In _ _ _ _ ta E1).
      * eapply (IH (S n)); eauto. intros j tier Hj.
        specialize (Hrest (S j) tier Hj).
        by replace (S n + j)%nat with (n + S j)%nat by lia.
Qed.

Lemma walk_tiers_false (cur cur' : allocations) (p : Z) (n : nat)
  (rest : tiers) (g g' : rng) :
  walk_tiers tal opp lpt cur p n rest g = Ok ((cur', false), g') ->
  cur' = cur.
Proof.
  revert n g. induction rest as [|ids rest IH]; intros n g H; simpl in H.
  - ok_step H. by inversion H.
  - ok_step H. ok_step E. ok_step H. ok_step E0.
    destruct v0 as [c|]; [ok_step H; inversion H|].
    ok_step H. ok_step H.
    destruct v1 as [c|]; [ok_step H; inversion H|]. by eapply IH.
Qed.

Lemma initial_allocate_true (cur cur' : allocations) (p : Z) (g g' : rng) :
  initial_allocate tal opp lpt cur p g = Ok ((cur', true), g') ->
  exists tsp, opp !! p = Some tsp /\ placement tal opp lpt tsp cur p cur'.
Proof.
  unfold initial_allocate. intros H. ok_step H. ok_step E. ok_step E.
  exists v. split; [done|].
  eapply (walk_tiers_true v cur cur' p 0 v); eauto.
Qed.

Lemma initial_allocate_false (cur cur' : allocations) (p : Z) (g g' : rng) :
  initial_allocate tal opp lpt cur p g = Ok ((cur', false), g') ->
  cur' = cur.
Proof.
  unfold initial_allocate. intros H. ok_step H. ok_step E. ok_step E.
  by eapply walk_tiers_false.
Qed.

End Placement.

(** ** Who sits where after a mutation *)

Lemma py_remove_In (x : Z) (l l' : list Z) :
  py_remove x l = Ok l' ->
  x ∈ l /\ (forall y, y ∈ l' -> y ∈ l) /\ (forall y, y ∈ l -> y <> x -> y ∈ l').
Proof.
  intros H. apply py_remove_perm in H. repeat split.
  - rewrite H. by left.
  - intros y Hy. rewrite H. by right.
  - intros y Hy Hne. rewrite H in Hy.
    apply elem_of_cons in Hy as [->|]; done.
Qed.

Lemma append_seated (cur : allocations) (ta p : Z) (l : list Z) :
  cur !! ta = Some l ->
  (forall q t, seated cur q t -> seated (<[ta := l ++ [p]]> cur) q t)
  /\ seated (<[ta := l ++ [p]]> cur) p ta
  /\ (forall q t, seated (<[ta := l ++ [p]]> cur) q t ->
        seated cur q t \/ (q = p /\ t = ta)).
Proof.
  intros Hl. unfold seated. repeat split.
  - intros q t (lq & Hq & Hin). destruct (decide (t = ta)) as [->|Hne].
    + rewrite Hl in Hq. inversion Hq; subst.
      exists (lq ++ [p]). rewrite lookup_insert_eq. split; [done|].
      apply elem_of_app. by left.
    + exists lq. by rewrite lookup_insert_ne.
  - exists (l ++ [p]). rewrite lookup_insert_eq. split; [done|].
    apply elem_of_app. right. by left.
  - intros q t (lq & Hq & Hin). destruct (decide (t = ta)) as [->|Hne].
    + rewrite lookup_insert_eq in Hq. inversion Hq; subst.
      apply elem_of_app in Hin as [Hin|Hin]; [left; eauto|].
      apply list_elem_of_singleton in Hin. by right.
    + rewrite lookup_insert_ne in Hq by done. left; eauto.
Qed.

Lemma remove_seated (cur : allocations) (d h : Z) (l l' : list Z) :
  cur !! d = Some l -> py_remove h l = Ok l' ->
  (forall q t, seated cur q t -> seated (<[d := l']> cur) q t \/ (q = h /\ t = d))
  /\ seated cur h d
  /\ (forall q t, seated (<[d := l']> cur) q t -> seated cur q t).
Proof.
  intros Hl Hr. apply py_remove_In in Hr as (Hh & Hsub & Hkeep).
  unfold seated. repeat split.
  - intros q t (lq & Hq & Hin). destruct (decide (t = d)) as [->|Hne].
    + rewrite Hl in Hq. inversion Hq; subst.
      destruct (decide (q = h)) as [->|Hqh]; [by right|]. left.
      exists l'. rewrite lookup_insert_eq. split; [done|]. by apply Hkeep.
    + left. exists lq. by rewrite lookup_insert_ne.
  - eauto.
  - intros q t (lq & Hq & Hin). destruct (decide (t = d)) as [->|Hne].
    + rewrite lookup_insert_eq in Hq. inversion Hq; subst.
      exists l. split; [done|]. by apply Hsub.
    + rewrite lookup_insert_ne in Hq by done. eauto.
Qed.

(** Remove [h] from [d], append it to [ta]: the step of [apply_moves]
    and the first two mutations of a bump. *)
Lemma relocate_seated (cur : allocations) (d h ta : Z) (l l' l2 : list Z) :
  cur !! d = Some l -> py_remove h l = Ok l' ->
  <[d := l']> cur !! ta = Some l2 ->
  (forall q t, seated cur q t ->
     seated (<[ta := l2 ++ [h]]> (<[d := l']> cur)) q t \/ (q = h /\ t = d))
  /\ seated (<[ta := l2 ++ [h]]> (<[d := l']> cur)) h ta
  /\ seated cur h d
  /\ (forall q t, seated (<[ta := l2 ++ [h]]> (<[d := l']> cur)) q t ->
        seated cur q t \/ (q = h /\ t = ta)).
Proof.
  intros Hl Hr Hl2.
  destruct (remove_seated cur d h l l' Hl Hr) as (F1 & S1 & B1).
  destruct (append_seated (<[d := l']> cur) ta h l2 Hl2) as (F2 & S2 & B2).
  repeat split; try done.
  - intros q t Hq. destruct (F1 q t Hq) as [H1|H1]; [left; by apply F2|].
    by right.
  - intros q t Hq. destruct (B2 q t Hq) as [H2|H2]; [left; by apply B1|].
    by right.
Qed.

(** ** No move changes the loss of a seated player *)

Section Monotone.

Context (tal : gmap Z TableAllocation).
Context (opp : gmap Z tiers).
Context (lpt : gmap Z (gmap Z nat)).
Hypothesis Hcoh : coherent opp lpt.

Lemma coherent_tier_loss (q x y : Z) (k : nat) (ts : tiers) (tier : list Z) :
  loss_at lpt q x = Some k -> opp !! q = Some ts -> ts !! k = Some tier ->
  y ∈ tier -> loss_at lpt q y = Some k.
Proof.
  unfold loss_at. destruct (lpt !! q) as [m|] eqn:Em; [|done].
  intros _ Hts Hk Hy. destruct (Hcoh q m Em) as (ts' & Hts' & -> & Hnd).
  rewrite Hts in Hts'. inversion Hts'; subst.
  by rewrite (loss_of_tiers_in 0 k ts' tier).
Qed.

Lemma move_and_join_seated (cur cur' : allocations) (p ta other other_ta : Z) :
  move_and_join cur p ta other other_ta = Ok cur' ->
  (forall q t, seated cur q t -> seated cur' q t \/ (q = other /\ t = ta))
  /\ seated cur' other other_ta
  /\ (forall q t, seated cur' q t ->
        seated cur q t \/ (q = other /\ t = other_ta) \/ (q = p /\ t = ta)).
Proof.
  unfold move_and_join. intros H.
  ok_step H. ok_step E. ok_step H. ok_step H. ok_step E1. ok_step H.
  ok_step E2. ok_step H.
  destruct (relocate_seated cur ta other other_ta v v0 v1 E E0 E1)
    as (F1 & S1 & _ & B1).
  destruct (append_seated _ ta p v2 E2) as (F2 & _ & B2).
  repeat split.
  - intros q t Hq. destruct (F1 q t Hq) as [H1|H1]; [left; by apply F2|].
    by right.
  - by apply F2.
  - intros q t Hq. destruct (B2 q t Hq) as [H2|H2]; [|by right; right].
    destruct (B1 q t H2) as [H1|H1]; [by left | by right; left].
Qed.

Lemma placement_keeps_losses (tsp : tiers) (cur cur' : allocations) (p : Z) :
  placement tal opp lpt tsp cur p cur' ->
  keeps_losses lpt cur cur' /\ no_worse_seat lpt (Some p) cur cur'.
Proof.
  intros Hp. destruct Hp as
    [i tier ta l t Hi Hta Hl Ht Hlt
    |i tier ta others other k ts otier other_ta l t cur'
       Hi Hta Hothers Hother Hloss Hik Hts Hk Hota Hl Ht Hlt Hmove].
  - destruct (append_seated cur ta p l Hl) as (F & _ & B). split.
    + intros q t0 Hq. exists t0. split; [by apply F | done].
    + intros q t' Hq. destruct (B q t' Hq) as [H1|[-> _]]; [|by left].
      right. exists t'. done.
  - destruct (move_and_join_seated _ _ _ _ _ _ Hmove) as (F & S & B).
    pose proof (coherent_tier_loss other ta other_ta k ts otier
                  Hloss Hts Hk Hota) as Hsame.
    split.
    + intros q t0 Hq. destruct (F q t0 Hq) as [H1|[-> ->]].
      * exists t0. done.
      * exists other_ta. split; [done|]. by rewrite Hsame, Hloss.
    + intros q t' Hq. destruct (B q t' Hq) as [H1|[[-> ->]|[-> _]]].
      * right. exists t'. done.
      * right. exists ta. split; [by exists others|].
        by rewrite Hsame, Hloss.
      * by left.
Qed.

Lemma apply_moves_keeps_losses (cur cur' : allocations) (ta : Z)
  (moves : list (Z * Z)) :
  Forall (fun c => loss_at lpt (snd c) ta = loss_at lpt (snd c) (fst c))
    moves ->
  apply_moves cur ta moves = Ok cur' ->
  keeps_losses lpt cur cur' /\ no_worse_seat lpt None cur cur'.
Proof.
  revert cur. induction moves as [|[d h] moves IH]; intros cur Hsame H;
    simpl in H.
  - ok_step H. split.
    + intros q t Hq. exists t. done.
    + intros q t Hq. right. exists t. done.
  - inversion Hsame as [|? ? Hdh Hsame']; subst. simpl in Hdh.
    ok_step H. ok_step E. ok_step H. ok_step H. ok_step E1.
    destruct (relocate_seated cur d h ta v v0 v1 E E0 E1)
      as (F1 & S1 & S0 & B1).
    destruct (IH _ Hsame' H) as (F2 & B2). split.
    + intros q t Hq. destruct (F1 q t Hq) as [H1|[-> ->]].
      * apply F2 in H1 as (t' & Ht' & Hl'). exists t'. done.
      * destruct (F2 h ta S1) as (t' & Ht' & Hl'). exists t'.
        split; [done|]. by rewrite Hl'.
    + intros q t' Hq. destruct (B2 q t' Hq) as [H2|(t1 & Ht1 & Hl1)];
        [done|].
      right. destruct (B1 q t1 Ht1) as [H1|[-> ->]].
      * exists t1. done.
      * exists d. split; [done|]. by rewrite Hl1.
Qed.

Lemma candidate_same_loss (cur : allocations) (ta : Z) (c : Z * Z) :
  candidate opp lpt cur ta c ->
  loss_at lpt (snd c) ta = loss_at lpt (snd c) (fst c).
Proof.
  intros (_ & _ & k & k' & ts & tier & Hk & Hk' & _ & Hts & Htier & Hin).
  rewrite Hk. by apply (coherent_tier_loss _ (fst c) ta k ts tier).
Qed.

(** C3. With loss maps built from duplicate-free tiers, a successful
    [initial_allocate] (polite seat or bump) and a successful
    [try_make_up_numbers] leave every previously seated player at a table
    of the same loss as before (so no loss increases), and every seat
    taken afterwards by anyone but the newcomer has the loss of a seat
    that player had before. *)
Theorem no_move_increases_a_loss (cur cur' : allocations)
  (newcomer : option Z) :
  allocator_move tal opp lpt cur newcomer cur' ->
  keeps_losses lpt cur cur' /\ no_worse_seat lpt newcomer cur cur'.
Proof.
  intros [p g g' c H|ta donors g g' c H].
  - apply initial_allocate_true in H as (tsp & _ & Hp).
    by eapply placement_keeps_losses.
  - apply try_make_up_numbers_true in H
      as (t & l & cands & shuffled & selected & _ & _ & Hscan & Hperm
          & Hsel & _ & Happly).
    pose proof (scan_tables_spec _ _ _ _ _ _ Hscan) as Hc.
    pose proof (selected_are_candidates tal opp lpt _ _ _ _ _ _ Hc Hperm Hsel)
      as Hs.
    eapply apply_moves_keeps_losses; [|exact Happly].
    eapply Forall_impl; [exact Hs|]. intros c0. apply candidate_same_loss.
Qed.

End Monotone.

(** ** Loss maps built by [loss_by_player_and_table] are coherent *)

Lemma coherent_built (opp : gmap Z tiers) :
  map_Forall (fun _ ts => NoDup (concat ts)) opp ->
  coherent opp (loss_by_player_and_table opp).
Proof.
  intros Hnd p m Hm. unfold loss_by_player_and_table in Hm.
  rewrite lookup_fmap in Hm.
  destruct (opp !! p) as [ts|] eqn:E; simpl in Hm; [|done].
  inversion Hm; subst. exists ts. repeat split; try done.
  by apply (Hnd p ts).
Qed.

Lemma no_move_increases_a_loss_witness :
  keeps_losses (loss_by_player_and_table single_seats_ordered)
    one_seated both_seated
  /\ no_worse_seat (loss_by_player_and_table single_seats_ordered)
       (Some 102) one_seated both_seated.
Proof.
  apply (no_move_increases_a_loss single_seats single_seats_ordered).
  - apply coherent_built. apply (bool_decide_unpack _). vm_compute. exact I.
  - apply (move_by_placement _ _ _ _ 102 [] []). vm_compute. reflexivity.
Defined.

Lemma repair_fills_between_minimum_and_optimal_witness :
  exists l',
    two_moved !! 2 = Some l'
    /\ minimum_players (seats 2 3 4) <= len l'
       <= optimal_players (seats 2 3 4).
Proof.
  apply (repair_fills_between_minimum_and_optimal donor_and_empty
           four_friends_ordered
           (loss_by_player_and_table four_friends_ordered)
           all_at_donor two_moved 2 [1] [] []
           (table 2 (seats 2 3 4) []) []).
  - vm_compute. reflexivity.
  - vm_compute. reflexivity.
  - vm_compute. reflexivity.
  - vm_compute. discriminate.
  - vm_compute. reflexivity.
Defined.

Lemma scan_raises_KeyError_without_target_entry_witness :
  scan_tables one_stranger_ordered
    (loss_by_player_and_table one_stranger_ordered) strangers_at_donor 2 [1]
  = Raise KeyError
  /\ try_make_up_numbers donor_and_empty one_stranger_ordered
       (loss_by_player_and_table one_stranger_ordered) strangers_at_donor
       2 [1] []
     = Raise KeyError.
Proof.
  apply (scan_raises_KeyError_without_target_entry donor_and_empty
           one_stranger_ordered
           (loss_by_player_and_table one_stranger_ordered)
           strangers_at_donor 2 [1] 1 11 [12; 11; 13] []).
  - set_solver.
  - lia.
  - vm_compute. reflexivity.
  - set_solver.
  - vm_compute. reflexivity.
Defined.

(** ** The trial loop: the first failure ends the run *)

Section TrialLoop.

Context (P : prepared).

Lemma trials_run_Ok (n : nat) (b b' : best) (g g' : rng) :
  trials P n b g = Ok (b', g') -> trials_run P n g g'.
Proof.
  revert b g; induction n as [|n IH]; intros b g H; simpl in H.
  - ok_step H. constructor.
  - ok_step H. econstructor; eauto.
Qed.

Lemma trials_run_total (n : nat) (b : best) (g g' : rng) :
  trials_run P n g g' -> exists b', trials P n b g = Ok (b', g').
Proof.
  intros Hrun. revert b. induction Hrun as [g|k g g1 g2 r Hr Hrun IH];
    intros b; simpl.
  - unfold ret. eauto.
  - unfold bind. rewrite Hr. apply IH.
Qed.

Lemma trials_abort (n k : nat) (b : best) (g gk : rng) (e : exn) :
  (k < n)%nat -> trials_run P k g gk -> trial P gk = Raise e ->
  trials P n b g = Raise e.
Proof.
  intros Hlt Hrun. revert n b Hlt.
  induction Hrun as [g|k g g1 g2 r Hr Hrun IH]; intros n b Hlt He.
  - destruct n as [|n]; [lia|]. simpl. unfold bind. by rewrite He.
  - destruct n as [|n]; [lia|]. simpl. unfold bind. rewrite Hr.
    apply IH; [lia | done].
Qed.

Lemma trials_Raise (n : nat) (b : best) (g : rng) (e : exn) :
  trials P n b g = Raise e ->
  exists k gk, (k < n)%nat /\ trials_run P k g gk /\ trial P gk = Raise e.
Proof.
  revert b g; induction n as [|n IH]; intros b g H; simpl in H.
  - discriminate.
  - unfold bind in H. destruct (trial P g) as [[r g1]|e'] eqn:Et.
    + apply IH in H as (k & gk & Hk & Hrun & He).
      exists (S k), gk. split; [lia|]. split; [|done]. econstructor; eauto.
    + inversion H; subst. exists 0%nat, g. split; [lia|].
      split; [constructor | done].
Qed.

(** A failed [initial_allocate] or [try_make_up_numbers] is turned into a
    [ValueError] on the spot. *)
Lemma place_all_unplaceable (cur c : allocations) (p : Z) (rest : list Z)
  (g g' : rng) :
  initial_allocate (lookup_table P) (ordered P) (losses P) cur p g
  = Ok ((c, false), g') ->
  place_all P cur (p :: rest) g
  = Raise (ValueError "Failed to allocate all players").
Proof. intros H. simpl. unfold bind. by rewrite H. Qed.

Lemma make_up_all_cannot_repair (cur c : allocations) (ta : Z)
  (rest donors : list Z) (g g' : rng) :
  tables_where more_than_sweet_spot cur (tables P) = Ok donors ->
  try_make_up_numbers (lookup_table P) (ordered P) (losses P) cur ta donors g
  = Ok ((c, false), g') ->
  make_up_all P cur (ta :: rest) g
  = Raise (ValueError "Failed to make up numbers").
Proof. intros Hd H. simpl. unfold bind, lift. rewrite Hd. by rewrite H. Qed.

End TrialLoop.

(** C1, as the code has it. The driver absorbs nothing: a failed
    [initial_allocate] or [try_make_up_numbers] becomes a [ValueError] of
    its trial; as soon as one trial raises (that [ValueError] or any other
    exception) [allocate] raises the same exception and runs no further
    trial; a run returns a best allocation only when all [n_trials] trials
    succeed one after the other. *)
Theorem first_failed_trial_aborts_the_run
  (all_table_allocations : list TableAllocation) (g g0 : rng) (P : prepared) :
  prepare all_table_allocations g = Ok (P, g0) ->
  (forall cur p rest g1 c g2,
      initial_allocate (lookup_table P) (ordered P) (losses P) cur p g1
      = Ok ((c, false), g2) ->
      place_all P cur (p :: rest) g1
      = Raise (ValueError "Failed to allocate all players"))
  /\ (forall cur ta rest donors g1 c g2,
         tables_where more_than_sweet_spot cur (tables P) = Ok donors ->
         try_make_up_numbers (lookup_table P) (ordered P) (losses P) cur ta
           donors g1 = Ok ((c, false), g2) ->
         make_up_all P cur (ta :: rest) g1
         = Raise (ValueError "Failed to make up numbers"))
  /\ (forall k gk e, (k < n_trials)%nat -> trials_run P k g0 gk ->
         trial P gk = Raise e -> allocate all_table_allocations g = Raise e)
  /\ (forall e, allocate all_table_allocations g = Raise e ->
         exists k gk, (k < n_trials)%nat /\ trials_run P k g0 gk
                      /\ trial P gk = Raise e)
  /\ (forall b g', allocate all_table_allocations g = Ok (b, g') ->
         trials_run P n_trials g0 g').
Proof.
  intros HP. unfold allocate, bind. rewrite HP.
  split; [|split; [|split; [|split]]].
  - intros cur p rest g1 c g2. apply place_all_unplaceable.
  - intros cur ta rest donors g1 c g2. apply make_up_all_cannot_repair.
  - intros k gk e. apply trials_abort.
  - intros e. apply trials_Raise.
  - intros b g'. apply trials_run_Ok.
Qed.

Lemma first_failed_trial_aborts_the_run_witness :
  exists P g0 g2 r1,
    prepare picky_tables [0; 0; 0; 0; 1]%nat = Ok (P, g0)
    /\ trials_run P 1 g0 g2
    /\ trial P g0 = Ok (r1, g2)
    /\ trial P g2 = Raise (ValueError "Failed to allocate all players")
    /\ allocate picky_tables [0; 0; 0; 0; 1]%nat
       = Raise (ValueError "Failed to allocate all players").
Proof.
  destruct (prepare picky_tables [0; 0; 0; 0; 1]%nat) as [[P g0]|e] eqn:E;
    [|vm_compute in E; discriminate].
  destruct (trial P g0) as [[r1 g2]|e] eqn:E1.
  2:{ exfalso. vm_compute in E. inversion E; subst. vm_compute in E1.
      discriminate. }
  assert (trial P g2 = Raise (ValueError "Failed to allocate all players"))
    as E2.
  { vm_compute in E. inversion E; subst. vm_compute in E1.
    inversion E1; subst. vm_compute. reflexivity. }
  assert (trials_run P 1 g0 g2) as Hrun.
  { econstructor; [exact E1 | constructor]. }
  exists P, g0, g2, r1.
  split; [reflexivity|]. split; [exact Hrun|]. split; [exact E1|].
  split; [exact E2|].
  destruct (first_failed_trial_aborts_the_run picky_tables
              [0; 0; 0; 0; 1]%nat g0 P E) as (_ & _ & Habort & _).
  apply (Habort 1%nat g2); [unfold n_trials; lia | exact Hrun | exact E2].
Defined.

(** C1 as stated fails: the first trial seats both players, the second
    trial cannot place player 101, and the run is aborted with that
    trial's [ValueError] instead of going on to the third trial. *)
Lemma one_failed_trial_aborts :
  exists P g1 r1 g2,
    prepare picky_tables [0; 0; 0; 0; 1]%nat = Ok (P, g1)
    /\ trial P g1 = Ok (r1, g2)
    /\ fst r1 !! 1 = Some [101] /\ fst r1 !! 2 = Some [102]
    /\ trial P g2 = Raise (ValueError "Failed to allocate all players")
    /\ allocate picky_tables [0; 0; 0; 0; 1]%nat
       = Raise (ValueError "Failed to allocate all players").
Proof.
  do 4 eexists. split; [vm_compute; reflexivity|].
  split; [vm_compute; reflexivity|].
  repeat split; vm_compute; reflexivity.
Qed.

(** C7 on the code: two players, two single-seat tables, so the seats
    suffice.  Player 102 is placed first and takes table 1; player 101
    rated table 1 only and cannot bump 102, whose tier of loss 0 holds
    nothing but table 1.  [initial_allocate] returns [False] although
    table 2 is empty, and the run raises. *)
Theorem unplaceable_although_seats_suffice :
  exists P g0 c1 g1 c2 g2,
    prepare picky_tables [] = Ok (P, g0)
    /\ players P = [102; 101]
    /\ len (players P)
       <= foldr (fun ta s => maximum_players (game ta) + s) 0 (tables P)
    /\ empty_allocations (tables P) !! 2 = Some []
    /\ initial_allocate (lookup_table P) (ordered P) (losses P)
         (empty_allocations (tables P)) 102 g0 = Ok ((c1, true), g1)
    /\ c1 !! 1 = Some [102] /\ c1 !! 2 = Some []
    /\ initial_allocate (lookup_table P) (ordered P) (losses P) c1 101 g1
       = Ok ((c2, false), g2)
    /\ allocate picky_tables []
       = Raise (ValueError "Failed to allocate all players").
Proof.
  do 6 eexists. split; [vm_compute; reflexivity|].
  split; [vm_compute; reflexivity|].
  split; [vm_compute; discriminate|].
  repeat split; vm_compute; reflexivity.
Qed.


(** C5 as stated fails: player 7 gave table 1 the score 3 and did not
    rate table 2.  Table 1 has loss 1 for player 7; table 2 is in none of
    the player's tiers and has no loss at all. *)
Lemma unrated_table_has_no_loss :
  exists P g0,
    prepare unrated_tables [] = Ok (P, g0)
    /\ ordered P !! 7 = Some [[3]; [1]]
    /\ loss_at (losses P) 7 1 = Some 1%nat
    /\ loss_at (losses P) 7 2 = None.
Proof.
  do 2 eexists. split; [vm_compute; reflexivity|].
  repeat split; vm_compute; reflexivity.
Qed.

(** ** What [prepare] builds *)

Lemma get_setdefault_append (k p : Z) (v : SessionPreference)
  (d : list (Z * list SessionPreference)) :
  get_item (setdefault_append k v d) p
  = if p =? k then Some (default [] (get_item d k) ++ [v]) else get_item d p.
Proof.
  induction d as [|[k' vs] d IH]; simpl.
  - done.
  - destruct (k =? k') eqn:Ek; simpl.
    + apply Z.eqb_eq in Ek. subst. destruct (p =? k'); done.
    + rewrite IH. destruct (p =? k') eqn:Ep; [|done].
      apply Z.eqb_eq in Ep. subst.
      rewrite Z.eqb_sym in Ek. by rewrite Ek.
Qed.

Lemma keys_setdefault_append (k : Z) (v : SessionPreference)
  (d : list (Z * list SessionPreference)) :
  map fst (setdefault_append k v d)
  = if decide (k ∈ map fst d) then map fst d else map fst d ++ [k].
Proof.
  induction d as [|[k' vs] d IH].
  - destruct (decide (k ∈ map fst [])) as [H|H]; [|done].
    by apply elem_of_nil in H.
  - cbn [setdefault_append map fst].
    destruct (k =? k') eqn:Ek; cbn [map fst].
    + apply Z.eqb_eq in Ek. subst. clear IH. case_decide as H; [done|].
      exfalso. apply H. by left.
    + apply Z.eqb_neq in Ek. rewrite IH.
      repeat case_decide; try done; exfalso; set_solver.
Qed.

Lemma get_foldl_setdefault (rows : list SessionPreference)
  (d : list (Z * list SessionPreference)) (p : Z) :
  get_item (foldl (fun d' sp => setdefault_append (person_id sp) sp d') d rows)
    p
  = match rows_of_person p rows with
    | [] => get_item d p
    | l => Some (default [] (get_item d p) ++ l)
    end.
Proof.
  revert d; induction rows as [|sp rows IH]; intros d; simpl; [done|].
  rewrite IH, get_setdefault_append. unfold rows_of_person. simpl.
  destruct (person_id sp =? p) eqn:E.
  - apply Z.eqb_eq in E. subst. rewrite Z.eqb_refl. simpl.
    destruct (List.filter _ rows) as [|y l]; [done|].
    by rewrite <- app_assoc.
  - rewrite Z.eqb_sym in E. by rewrite E.
Qed.

Lemma keys_foldl_setdefault_NoDup (rows : list SessionPreference)
  (d : list (Z * list SessionPreference)) :
  NoDup (map fst d) ->
  NoDup (map fst
           (foldl (fun d' sp => setdefault_append (person_id sp) sp d') d rows)).
Proof.
  revert d; induction rows as [|sp rows IH]; intros d Hd; simpl; [done|].
  apply IH. rewrite keys_setdefault_append. case_decide as H; [done|].
  apply NoDup_app. repeat split; [done| |apply NoDup_singleton].
  intros x Hx Hx'. apply list_elem_of_singleton in Hx'. by subst.
Qed.

Lemma all_preferences_by_player_rows (tables : list TableAllocation) :
  all_preferences_by_player tables
  = foldl (fun d' sp => setdefault_append (person_id sp) sp d') []
      (all_rows tables).
Proof.
  unfold all_preferences_by_player, all_rows.
  generalize (@nil (Z * list SessionPreference)) as d.
  induction tables as [|ta tables IH]; intros d; simpl; [done|].
  by rewrite foldl_app, IH.
Qed.

Lemma get_item_In (d : list (Z * list SessionPreference)) (p : Z)
  (l : list SessionPreference) :
  NoDup (map fst d) -> (p, l) ∈ d -> get_item d p = Some l.
Proof.
  induction d as [|[k v] d IH]; intros Hnd Hin; simpl.
  - by apply elem_of_nil in Hin.
  - simpl in Hnd. apply NoDup_cons in Hnd as [Hk Hnd].
    apply elem_of_cons in Hin as [Heq|Hin].
    + inversion Heq; subst. by rewrite Z.eqb_refl.
    + destruct (p =? k) eqn:E; [|by apply IH].
      apply Z.eqb_eq in E. subst. exfalso. apply Hk.
      change (map fst d) with (fst <$> d). apply list_elem_of_fmap.
      by exists (k, l).
Qed.

(** The rows handed to [_order_preferences_for_player] for player [p]
    are exactly the rows of [p], in table order. *)
Lemma all_preferences_by_player_In (tables : list TableAllocation) (p : Z)
  (l : list SessionPreference) :
  (p, l) ∈ all_preferences_by_player tables ->
  l = rows_of_person p (all_rows tables).
Proof.
  intros Hin. apply get_item_In in Hin.
  - rewrite all_preferences_by_player_rows, get_foldl_setdefault in Hin.
    simpl in Hin. destruct (rows_of_person p (all_rows tables)); [done|].
    by inversion Hin.
  - rewrite all_preferences_by_player_rows.
    apply keys_foldl_setdefault_NoDup. constructor.
Qed.

Lemma ordered_preferences_by_player_sound
  (items : list (Z * list SessionPreference)) (acc m : gmap Z tiers)
  (g g' : rng) (p : Z) (ts : tiers) :
  ordered_preferences_by_player items acc g = Ok (m, g') ->
  m !! p = Some ts ->
  acc !! p = Some ts
  \/ exists prefs g1 g2,
      (p, prefs) ∈ items
      /\ _order_preferences_for_player prefs g1 = Ok (ts, g2).
Proof.
  revert acc g; induction items as [|[q prefs] items IH]; intros acc g H Hp;
    simpl in H.
  - ok_step H. by left.
  - ok_step H. destruct (IH _ _ H Hp) as [Hacc|(prefs' & g1 & g2 & Hin & Ho)].
    + rewrite lookup_insert in Hacc. case_decide; [|by left].
      inversion Hacc; subst. right. exists prefs, g, g0. split; [by left|done].
    + right. exists prefs', g1, g2. split; [by right | done].
Qed.

Lemma ordered_preferences_by_player_total
  (items : list (Z * list SessionPreference)) (acc : gmap Z tiers) (g : rng) :
  exists m g', ordered_preferences_by_player items acc g = Ok (m, g').
Proof.
  revert acc g; induction items as [|[q prefs] items IH]; intros acc g; simpl.
  - unfold ret; eauto.
  - unfold bind.
    destruct (_order_preferences_for_player_total prefs g) as (ts & g1 & ->).
    apply IH.
Qed.

Lemma prepare_total (tables : list TableAllocation) (g : rng) :
  exists P g', prepare tables g = Ok (P, g').
Proof.
  unfold prepare, bind.
  destruct (ordered_preferences_by_player_total
              (all_preferences_by_player tables) ∅ g) as (m & g' & ->).
  unfold ret; eauto.
Qed.

Lemma prepare_fields (all_table_allocations : list TableAllocation)
  (g g' : rng) (P : prepared) :
  prepare all_table_allocations g = Ok (P, g') ->
  tables P = all_table_allocations
  /\ lookup_table P = table_allocation_lookup all_table_allocations
  /\ players P = map fst (all_preferences_by_player all_table_allocations)
  /\ losses P = loss_by_player_and_table (ordered P)
  /\ ordered_preferences_by_player
       (all_preferences_by_player all_table_allocations) ∅ g
     = Ok (ordered P, g').
Proof.
  unfold prepare. intros H. ok_step H. ok_step H. simpl. done.
Qed.

(** The tiers of a player hold exactly the tables the player rated. *)
Lemma prepare_tiers (all_table_allocations : list TableAllocation)
  (g g' : rng) (P : prepared) (p : Z) (ts : tiers) :
  prepare all_table_allocations g = Ok (P, g') ->
  ordered P !! p = Some ts ->
  Permutation
    (map table_allocation_id
       (rows_of_person p (all_rows all_table_allocations)))
    (concat ts).
Proof.
  intros H Hts. apply prepare_fields in H as (_ & _ & _ & _ & H).
  destruct (ordered_preferences_by_player_sound _ _ _ _ _ p ts H Hts)
    as [Hacc|(prefs & g1 & g2 & Hin & Ho)].
  - by rewrite lookup_empty in Hacc.
  - apply all_preferences_by_player_In in Hin. subst.
    by eapply tiers_perm.
Qed.

(** C5, as the code has it. There is no default score: the loss of a
    player for a table is defined exactly when the player has a preference
    row for that table; a table the player did not rate is in none of the
    player's tiers. *)
Theorem loss_defined_only_for_rated_tables
  (all_table_allocations : list TableAllocation) (g g' : rng) (P : prepared)
  (p sid : Z) (m : gmap Z nat) :
  prepare all_table_allocations g = Ok (P, g') ->
  losses P !! p = Some m ->
  is_Some (m !! sid)
  <-> exists ta sp,
        ta ∈ all_table_allocations /\ sp ∈ session_preferences ta
        /\ person_id sp = p /\ table_allocation_id sp = sid.
Proof.
  intros H Hm.
  pose proof (prepare_fields _ _ _ _ H) as (_ & _ & _ & Hl & _).
  rewrite Hl in Hm. unfold loss_by_player_and_table in Hm.
  rewrite lookup_fmap in Hm.
  destruct (ordered P !! p) as [ts|] eqn:Ets; simpl in Hm; [|done].
  inversion Hm; subst m. clear Hm.
  pose proof (prepare_tiers _ _ _ _ _ _ H Ets) as Hperm.
  assert (is_Some (loss_of_tiers 0 ts ∅ !! sid) <-> sid ∈ concat ts) as ->.
  { split.
    - intros [k Hk]. apply loss_sound in Hk as (t & Ht & Hin).
      apply list_elem_of_In, in_concat. exists t.
      split; apply list_elem_of_In; [|done].
      eapply list_elem_of_lookup_2; eauto.
    - apply loss_of_tiers_defined. }
  rewrite <- Hperm.
  change (map table_allocation_id ?l) with (table_allocation_id <$> l).
  rewrite list_elem_of_fmap. unfold rows_of_person, all_rows. split.
  - intros (sp & -> & Hsp). apply list_elem_of_In, filter_In in Hsp as [Hsp Hp].
    apply in_flat_map in Hsp as (ta & Hta & Hsp). apply Z.eqb_eq in Hp.
    exists ta, sp. repeat split; try done; by apply list_elem_of_In.
  - intros (ta & sp & Hta & Hsp & Hp & Hsid). exists sp. split; [done|].
    apply list_elem_of_In, filter_In. split.
    + apply in_flat_map. exists ta. split; by apply list_elem_of_In.
    + by apply Z.eqb_eq.
Qed.

Lemma loss_defined_only_for_rated_tables_witness :
  exists P g' m,
    prepare unrated_tables [] = Ok (P, g')
    /\ losses P !! 7 = Some m
    /\ (is_Some (m !! 2)
        <-> exists ta sp,
              ta ∈ unrated_tables /\ sp ∈ session_preferences ta
              /\ person_id sp = 7 /\ table_allocation_id sp = 2).
Proof.
  destruct (prepare unrated_tables []) as [[P g']|e] eqn:E;
    [|vm_compute in E; discriminate].
  destruct (losses P !! 7) as [m|] eqn:Em.
  - exists P, g', m. split; [reflexivity|]. split; [exact Em|].
    apply (loss_defined_only_for_rated_tables unrated_tables [] g' P 7 2 m E Em).
  - exfalso. vm_compute in E. inversion E; subst. vm_compute in Em.
    discriminate.
Defined.

(** ** Placing into an allocation without incumbents *)

Section NoIncumbents.

Context (tal : gmap Z TableAllocation).
Context (opp : gmap Z tiers).
Context (lpt : gmap Z (gmap Z nat)).



End NoIncumbents.

Lemma empty_allocations_lookup (tables : list TableAllocation) (t : Z)
  (l : list Z) :
  empty_allocations tables !! t = Some l -> l = [].
Proof.
  unfold empty_allocations.
  assert (forall (m : allocations),
             (forall l', m !! t = Some l' -> l' = []) ->
             foldl (fun m ta => <[id_of ta := []]> m) m tables !! t = Some l ->
             l = []) as Hgen.
  { induction tables as [|ta tables IH]; intros m Hm H; simpl in H.
    - by apply Hm.
    - apply (IH (<[id_of ta := []]> m)); [|done].
      intros l' Hl'. rewrite lookup_insert in Hl'. case_decide.
      + by inversion Hl'.
      + by apply Hm. }
  apply Hgen. intros l'. by rewrite lookup_empty.
Qed.



(** ** Tables, ids and the dictionaries keyed by them *)

Section Tables.

Context (all_table_allocations : list TableAllocation).
Hypothesis ids_unique : NoDup (map id_of all_table_allocations).

Lemma same_id_same_table (ta ta' : TableAllocation) :
  ta ∈ all_table_allocations -> ta' ∈ all_table_allocations ->
  id_of ta = id_of ta' -> ta = ta'.
Proof.
  clear -ids_unique. induction all_table_allocations as [|x l IH];
    intros H H' Hid.
  - by apply elem_of_nil in H.
  - simpl in ids_unique. apply NoDup_cons in ids_unique as [Hx Hl].
    assert (forall y, y ∈ l -> id_of y <> id_of x) as Hfresh.
    { intros y Hy Heq. apply Hx. rewrite <- Heq.
      change (map id_of l) with (id_of <$> l). apply list_elem_of_fmap.
      by exists y. }
    apply elem_of_cons in H as [->|H]; apply elem_of_cons in H' as [->|H'].
    + done.
    + exfalso. by apply (Hfresh ta').
    + exfalso. by apply (Hfresh ta).
    + by apply IH.
Qed.

Lemma table_allocation_lookup_sound (t : Z) (ta : TableAllocation) :
  table_allocation_lookup all_table_allocations !! t = Some ta ->
  ta ∈ all_table_allocations /\ id_of ta = t.
Proof.
  clear ids_unique. unfold table_allocation_lookup.
  assert (forall (m : gmap Z TableAllocation),
             foldl (fun m ta => <[id_of ta := ta]> m) m all_table_allocations
               !! t = Some ta ->
             (ta ∈ all_table_allocations /\ id_of ta = t) \/ m !! t = Some ta)
    as Hgen.
  { induction all_table_allocations as [|x l IH]; intros m H; simpl in H.
    - by right.
    - destruct (IH _ H) as [[Hin Hid]|Hm].
      + left. split; [by right | done].
      + rewrite lookup_insert in Hm. case_decide; [|by right].
        inversion Hm; subst. left. split; [by left | done]. }
  intros H. destruct (Hgen ∅ H) as [?|Hm]; [done|].
  by rewrite lookup_empty in Hm.
Qed.

Lemma table_allocation_lookup_complete (ta : TableAllocation) :
  ta ∈ all_table_allocations ->
  table_allocation_lookup all_table_allocations !! id_of ta = Some ta.
Proof.
  intros Hin.
  assert (exists x, table_allocation_lookup all_table_allocations !! id_of ta
                    = Some x) as [x Hx].
  { clear ids_unique. unfold table_allocation_lookup.
    generalize (∅ : gmap Z TableAllocation) as m.
    assert (forall (l : list TableAllocation) (m : gmap Z TableAllocation),
               is_Some (m !! id_of ta) ->
               is_Some (foldl (fun m ta => <[id_of ta := ta]> m) m l
                          !! id_of ta)) as Hkeep.
    { induction l as [|y l IH]; intros m Hm; simpl; [done|].
      apply IH. rewrite lookup_insert. by case_decide. }
    induction all_table_allocations as [|y l IH]; intros m.
    - by apply elem_of_nil in Hin.
    - simpl. apply elem_of_cons in Hin as [->|Hin].
      + apply Hkeep. by rewrite lookup_insert_eq.
      + by apply IH. }
  rewrite Hx. f_equal.
  apply table_allocation_lookup_sound in Hx as [Hx Hid].
  by apply same_id_same_table.
Qed.

Lemma empty_allocations_complete (ta : TableAllocation) :
  ta ∈ all_table_allocations ->
  empty_allocations all_table_allocations !! id_of ta = Some [].
Proof.
  intros Hin.
  assert (is_Some (empty_allocations all_table_allocations !! id_of ta))
    as [l Hl].
  { clear ids_unique. unfold empty_allocations.
    generalize (∅ : allocations) as m.
    assert (forall (l : list TableAllocation) (m : allocations),
               is_Some (m !! id_of ta) ->
               is_Some (foldl (fun m ta => <[id_of ta := []]> m) m l
                          !! id_of ta)) as Hkeep.
    { induction l as [|y l IH]; intros m Hm; simpl; [done|].
      apply IH. rewrite lookup_insert. by case_decide. }
    induction all_table_allocations as [|y l IH]; intros m.
    - by apply elem_of_nil in Hin.
    - simpl. apply elem_of_cons in Hin as [->|Hin].
      + apply Hkeep. by rewrite lookup_insert_eq.
      + by apply IH. }
  rewrite Hl. f_equal. by apply empty_allocations_lookup in Hl.
Qed.

End Tables.

(** [tables_where] keeps the ids of the tables that pass the test. *)
Lemma tables_where_spec (test : Z -> Game -> bool) (cur : allocations)
  (tables : list TableAllocation) (ids : list Z) :
  tables_where test cur tables = Ok ids ->
  (forall t, t ∈ ids <->
     exists ta l, ta ∈ tables /\ id_of ta = t /\ cur !! t = Some l
                  /\ test (len l) (game ta) = true)
  /\ (forall ta, ta ∈ tables -> exists l, cur !! id_of ta = Some l
         /\ (test (len l) (game ta) = true -> id_of ta ∈ ids))
  /\ sublist ids (map id_of tables).
Proof.
  revert ids; induction tables as [|x tables IH]; intros ids H; simpl in H.
  - ok_step H. repeat split.
    + intros Hin. by apply elem_of_nil in Hin.
    + intros (ta & l & Hin & _). by apply elem_of_nil in Hin.
    + intros ta Hin. by apply elem_of_nil in Hin.
    + constructor.
  - ok_step H. ok_step E. ok_step H. ok_step H.
    destruct (IH _ E0) as (Hiff & Hall & Hsub).
    destruct (test (len v) (game x)) eqn:Etest; repeat split.
    + intros Hin. apply elem_of_cons in Hin as [->|Hin].
      * exists x, v. repeat split; try done. by left.
      * apply Hiff in Hin as (ta & l & Hta & ?). exists ta, l.
        split; [by right | done].
    + intros (ta & l & Hta & Hid & Hl & Ht).
      apply elem_of_cons in Hta as [->|Hta]; [subst; by left|].
      right. apply Hiff. by exists ta, l.
    + intros ta Hta. apply elem_of_cons in Hta as [->|Hta].
      * exists v. split; [done|]. intros _. by left.
      * destruct (Hall ta Hta) as (l & Hl & Himp). exists l.
        split; [done|]. intros Ht. right. by apply Himp.
    + simpl. by constructor.
    + intros Hin. apply Hiff in Hin as (ta & l & Hta & ?). exists ta, l.
      split; [by right | done].
    + intros (ta & l & Hta & Hid & Hl & Ht).
      apply elem_of_cons in Hta as [->|Hta].
      * subst. rewrite E in Hl. inversion Hl; subst. congruence.
      * apply Hiff. by exists ta, l.
    + intros ta Hta. apply elem_of_cons in Hta as [->|Hta].
      * exists v. split; [done|]. congruence.
      * by apply Hall.
    + simpl. by constructor.
Qed.

(** ** The capacity ceiling *)

Lemma move_and_join_loads (cur cur' : allocations)
  (p ta other other_ta : Z) (l : list Z) :
  cur !! other_ta = Some l ->
  move_and_join cur p ta other other_ta = Ok cur' ->
  (forall t l', t <> other_ta -> cur' !! t = Some l' ->
     exists l0, cur !! t = Some l0 /\ len l' = len l0)
  /\ (exists l', cur' !! other_ta = Some l' /\ len l' = len l + 1)
  /\ (forall t, is_Some (cur !! t) -> is_Some (cur' !! t)).
Proof.
  unfold move_and_join. intros Hl H.
  ok_step H. ok_step E. ok_step H. ok_step H. ok_step E1. ok_step H.
  ok_step E2. ok_step H.
  pose proof (py_remove_len _ _ _ E0) as Hlen.
  destruct (decide (ta = other_ta)) as [->|Hne].
  - rewrite Hl in E. inversion E; subst.
    rewrite lookup_insert_eq in E1. inversion E1; subst.
    rewrite lookup_insert_eq in E2. inversion E2; subst.
    repeat split.
    + intros t l' Ht Hl'. rewrite !lookup_insert_ne in Hl' by done.
      exists l'. done.
    + exists ((v1 ++ [other]) ++ [p]). rewrite lookup_insert_eq.
      split; [done|]. unfold len in *. rewrite !length_app. simpl. lia.
    + intros t Ht. rewrite !lookup_insert. by repeat case_decide.
  - rewrite lookup_insert_ne in E1 by done. rewrite Hl in E1.
    inversion E1; subst.
    rewrite lookup_insert_ne in E2 by done.
    rewrite lookup_insert_eq in E2. inversion E2; subst.
    repeat split.
    + intros t l' Ht Hl'. rewrite lookup_insert in Hl'. case_decide.
      * subst. inversion Hl'; subst. exists v. split; [done|].
        unfold len in *. rewrite length_app. simpl. lia.
      * rewrite lookup_insert_ne in Hl' by done.
        rewrite lookup_insert_ne in Hl' by done. exists l'. done.
    + exists (v1 ++ [other]). rewrite lookup_insert_ne by done.
      rewrite lookup_insert_eq. split; [done|].
      unfold len. rewrite length_app. simpl. lia.
    + intros t Ht. rewrite !lookup_insert. by repeat case_decide.
Qed.

Section Capacity.

Context (all_table_allocations : list TableAllocation).
Hypothesis contract : input_contract all_table_allocations.
Context (opp : gmap Z tiers) (lpt : gmap Z (gmap Z nat)).

Let tal := table_allocation_lookup all_table_allocations.

Lemma empty_within_capacity :
  within_capacity all_table_allocations
    (empty_allocations all_table_allocations).
Proof.
  destruct contract as [Hids Hcap]. intros ta Hta. exists [].
  split; [by apply empty_allocations_complete|].
  rewrite Forall_forall in Hcap. destruct (Hcap ta Hta) as (? & ? & ?).
  unfold len. simpl. lia.
Qed.

Lemma placement_within_capacity (tsp : tiers) (cur cur' : allocations)
  (p : Z) :
  placement tal opp lpt tsp cur p cur' ->
  within_capacity all_table_allocations cur ->
  within_capacity all_table_allocations cur'.
Proof.
  destruct contract as [Hids _].
  intros Hp Hin. destruct Hp as
    [i tier ta l t Hi Hta Hl Ht Hlt
    |i tier ta others other k ts otier other_ta l t cur'
       Hi Hta Hothers Hother Hloss Hik Hts Hk Hota Hl Ht Hlt Hmove].
  - intros x Hx. destruct (Hin x Hx) as (lx & Hlx & Hle).
    apply table_allocation_lookup_sound in Ht as [Ht Hid].
    destruct (decide (id_of x = ta)) as [Heq|Hne].
    + assert (x = t) as -> by (apply (same_id_same_table
                                      all_table_allocations); congruence).
      exists (l ++ [p]). rewrite Heq, lookup_insert_eq. split; [done|].
      unfold len in *. rewrite length_app. simpl. lia.
    + exists lx. by rewrite lookup_insert_ne.
  - destruct (move_and_join_loads _ _ _ _ _ _ _ Hl Hmove)
      as (Hother_tables & (l' & Hl' & Hlen') & Hkeys).
    apply table_allocation_lookup_sound in Ht as [Ht Hid].
    intros x Hx. destruct (Hin x Hx) as (lx & Hlx & Hle).
    destruct (decide (id_of x = other_ta)) as [Heq|Hne].
    + assert (x = t) as -> by (apply (same_id_same_table
                                      all_table_allocations); congruence).
      exists l'. rewrite Heq. split; [done|]. lia.
    + destruct (Hkeys (id_of x)) as [lx' Hlx']; [by rewrite Hlx|].
      exists lx'. split; [done|].
      destruct (Hother_tables _ _ Hne Hlx') as (l0 & Hl0 & Hlen0).
      rewrite Hlx in Hl0. inversion Hl0; subst. lia.
Qed.

Lemma initial_allocate_within_capacity (cur cur' : allocations) (p : Z)
  (ok : bool) (g g' : rng) :
  initial_allocate tal opp lpt cur p g = Ok ((cur', ok), g') ->
  within_capacity all_table_allocations cur ->
  within_capacity all_table_allocations cur'.
Proof.
  intros H Hin. destruct ok.
  - apply initial_allocate_true in H as (tsp & _ & Hp).
    by eapply placement_within_capacity.
  - by apply initial_allocate_false in H as ->.
Qed.

(** A repair whose target is below its minimum stays within capacity. *)
Lemma try_make_up_numbers_within_capacity (cur cur' : allocations)
  (ta : TableAllocation) (l : list Z) (donors : list Z) (ok : bool)
  (g g' : rng) :
  ta ∈ all_table_allocations -> cur !! id_of ta = Some l ->
  len l < minimum_players (game ta) ->
  try_make_up_numbers tal opp lpt cur (id_of ta) donors g
  = Ok ((cur', ok), g') ->
  within_capacity all_table_allocations cur ->
  within_capacity all_table_allocations cur'.
Proof.
  destruct contract as [Hids Hcap].
  intros Hta Hl Hunder H Hin. destruct ok;
    [|by apply try_make_up_numbers_false in H as ->].
  rewrite Forall_forall in Hcap. destruct (Hcap ta Hta) as (_ & Hmo & Hom).
  pose proof (table_allocation_lookup_complete _ Hids ta Hta) as Htal.
  destruct (repair_target_gain tal opp lpt
              cur cur' (id_of ta) donors g g' ta l Htal Hl Hunder Hmo H)
    as (moved & Hl' & _ & Hhi).
  apply try_make_up_numbers_true in H
    as (t0 & l0 & cands & shuffled & selected & _ & _ & _ & _ & _ & _
        & Happly).
  intros x Hx. destruct (Hin x Hx) as (lx & Hlx & Hlex).
  destruct (decide (id_of x = id_of ta)) as [Heq|Hne].
  - assert (x = ta) as -> by (by apply (same_id_same_table
                                         all_table_allocations)).
    exists (l ++ moved). split; [done|].
    unfold len in *. rewrite length_app. lia.
  - destruct (apply_moves_others _ _ _ _ _ _ Hne Hlx Happly)
      as (lx' & Hlx' & Hlen).
    exists lx'. split; [done | lia].
Qed.

End Capacity.

(** ** The repair loop and the trials *)

Lemma scan_players_donor (opp : gmap Z tiers) (lpt : gmap Z (gmap Z nat))
  (ta d : Z) (ps : list Z) (cs : list (Z * Z)) :
  scan_players opp lpt ta d ps = Ok cs -> Forall (fun c => fst c = d) cs.
Proof.
  revert cs; induction ps as [|h ps IH]; intros cs H; simpl in H.
  - ok_step H. constructor.
  - ok_step H. ok_step H. ok_step H.
    destruct (_ <? _)%nat; [by apply IH|].
    ok_step H. ok_step H.
    destruct (member ta v3); [|by apply IH].
    ok_step H. ok_step H. constructor; [done | by apply IH].
Qed.

Lemma scan_tables_donors (opp : gmap Z tiers) (lpt : gmap Z (gmap Z nat))
  (cur : allocations) (ta : Z) (donors : list Z) (cs : list (Z * Z)) :
  scan_tables opp lpt cur ta donors = Ok cs ->
  Forall (fun c => fst c ∈ donors) cs.
Proof.
  revert cs; induction donors as [|d donors IH]; intros cs H; simpl in H.
  - ok_step H. constructor.
  - destruct (d =? ta).
    + eapply Forall_impl; [by apply IH|]. intros c Hc. by right.
    + ok_step H. ok_step H. ok_step H. ok_step H. apply Forall_app. split.
      * apply scan_players_donor in E0.
        eapply Forall_impl; [exact E0|]. intros c ->. by left.
      * eapply Forall_impl; [by apply IH|]. intros c Hc. by right.
Qed.

Lemma apply_moves_untouched (cur cur' : allocations) (ta t : Z)
  (moves : list (Z * Z)) :
  t <> ta -> Forall (fun c => fst c <> t) moves ->
  apply_moves cur ta moves = Ok cur' -> cur' !! t = cur !! t.
Proof.
  intros Ht. revert cur; induction moves as [|[d h] moves IH];
    intros cur Hne H; simpl in H.
  - by ok_step H.
  - inversion Hne as [|? ? Hd Hne']; subst. simpl in Hd.
    ok_step H. ok_step H. ok_step H.
    rewrite (IH _ Hne' H). rewrite lookup_insert_ne by done.
    by rewrite lookup_insert_ne.
Qed.

Section Run.

Context (P : prepared).
Hypothesis contract : input_contract (tables P).
Hypothesis lookup_built :
  lookup_table P = table_allocation_lookup (tables P).

Lemma place_all_within_capacity (cur cur' : allocations) (ps : list Z)
  (g g' : rng) :
  within_capacity (tables P) cur ->
  place_all P cur ps g = Ok (cur', g') ->
  within_capacity (tables P) cur'.
Proof.
  revert cur g; induction ps as [|p ps IH]; intros cur g Hin H; simpl in H.
  - by ok_step H.
  - ok_step H. destruct v as [c ok]. simpl in H. destruct ok; [|done].
    apply (IH c g0); [|done]. rewrite lookup_built in E.
    by eapply initial_allocate_within_capacity.
Qed.

(** The tables still to repair are below their minimum. *)
Let pending (cur : allocations) (targets : list Z) : Prop :=
  forall t, t ∈ targets ->
    exists ta l, ta ∈ tables P /\ id_of ta = t /\ cur !! t = Some l
                 /\ len l < minimum_players (game ta).

Lemma repair_leaves_pending (cur cur' : allocations) (a : Z)
  (rest donors : list Z) (g g' : rng) :
  a ∉ rest -> pending cur rest ->
  tables_where more_than_sweet_spot cur (tables P) = Ok donors ->
  try_make_up_numbers (lookup_table P) (ordered P) (losses P) cur a donors g
  = Ok ((cur', true), g') ->
  pending cur' rest.
Proof.
  destruct contract as [Hids Hcap]. rewrite Forall_forall in Hcap.
  intros Ha Hpend Hdonors H t Ht.
  destruct (Hpend t Ht) as (ta & l & Hta & Hid & Hl & Hunder).
  exists ta, l. repeat split; try done.
  apply try_make_up_numbers_true in H
    as (t0 & l0 & cands & shuffled & selected & _ & _ & Hscan & Hperm
        & Hsel & _ & Happly).
  rewrite (apply_moves_untouched cur cur' a t selected); [done| | |done].
  - intros ->. done.
  - apply scan_tables_donors in Hscan.
    apply select_players_incl in Hsel as (extra & -> & Hsub). simpl.
    rewrite Forall_forall in *. intros c Hc Hfst.
    assert (fst c ∈ donors) as Hd.
    { apply Hscan. rewrite Hperm. by apply Hsub. }
    apply (tables_where_spec _ _ _ _ Hdonors) in Hd
      as (ta' & l' & Hta' & Hid' & Hl' & Htest).
    assert (ta' = ta) as ->.
    { apply (same_id_same_table (tables P)); try done. congruence. }
    rewrite Hfst, Hl in Hl'. inversion Hl'; subst l'.
    unfold more_than_sweet_spot in Htest. apply Z.ltb_lt in Htest.
    destruct (Hcap ta Hta) as (_ & Hmo & _). lia.
Qed.

Lemma make_up_all_within_capacity (cur cur' : allocations)
  (targets : list Z) (g g' : rng) :
  NoDup targets -> pending cur targets ->
  within_capacity (tables P) cur ->
  make_up_all P cur targets g = Ok (cur', g') ->
  within_capacity (tables P) cur'.
Proof.
  revert cur g; induction targets as [|a rest IH]; intros cur g Hnd Hpend Hin H;
    simpl in H.
  - by ok_step H.
  - apply NoDup_cons in Hnd as [Ha Hnd].
    ok_step H. ok_step E. ok_step H. destruct v0 as [c ok]. simpl in H.
    destruct ok; [|done].
    destruct (Hpend a) as (ta & l & Hta & <- & Hl & Hunder); [by left|].
    apply (IH c g0); try done.
    + eapply repair_leaves_pending; eauto.
      intros t Ht. apply Hpend. by right.
    + rewrite lookup_built in E0.
      by eapply (try_make_up_numbers_within_capacity (tables P) contract).
Qed.

Lemma repair_trial_within_capacity (placed repaired : allocations)
  (g g' : rng) :
  within_capacity (tables P) placed ->
  repair_trial P placed g = Ok (repaired, g') ->
  within_capacity (tables P) repaired.
Proof.
  unfold repair_trial. intros Hin H. ok_step H. ok_step E.
  destruct (tables_where_spec _ _ _ _ E) as (Hiff & _ & Hsub).
  eapply make_up_all_within_capacity; [| |exact Hin|exact H].
  - eapply sublist_NoDup; [|exact Hsub]. by destruct contract.
  - intros t Ht. apply Hiff in Ht as (ta & l & Hta & Hid & Hl & Htest).
    exists ta, l. repeat split; try done.
    unfold too_few in Htest. by apply Z.ltb_lt in Htest.
Qed.

Lemma place_trial_within_capacity (placed : allocations) (g g' : rng) :
  place_trial P g = Ok (placed, g') -> within_capacity (tables P) placed.
Proof.
  unfold place_trial. intros H. ok_step H. ok_step H. ok_step H.
  destruct v1; [|done]. ok_step H.
  eapply place_all_within_capacity; [|exact E0].
  by apply empty_within_capacity.
Qed.

Lemma trial_within_capacity (r : allocations * nat) (g g' : rng) :
  trial P g = Ok (r, g') -> within_capacity (tables P) (fst r).
Proof.
  unfold trial. intros H. ok_step H. ok_step H. ok_step H. ok_step H.
  simpl. eapply repair_trial_within_capacity; [|exact E0].
  by eapply place_trial_within_capacity.
Qed.

Lemma trials_within_capacity (n : nat) (b b' : best) (g g' : rng) :
  (forall cur, best_allocations b = Some cur ->
               within_capacity (tables P) cur) ->
  trials P n b g = Ok (b', g') ->
  forall cur, best_allocations b' = Some cur ->
              within_capacity (tables P) cur.
Proof.
  revert b g; induction n as [|n IH]; intros b g Hb H; simpl in H.
  - by ok_step H.
  - ok_step H. eapply IH; [|exact H].
    intros cur Hcur. unfold keep_best in Hcur. simpl in Hcur.
    apply trial_within_capacity in E.
    destruct (best_loss b) as [l|].
    + destruct (_ <? _)%nat; [by inversion Hcur; subst | by apply Hb].
    + by inversion Hcur; subst.
Qed.

Lemma keep_best_is_Some (b : best) (cur : allocations) (loss : nat) :
  (is_Some (best_loss b) -> is_Some (best_allocations b)) ->
  is_Some (best_allocations (keep_best b cur loss)).
Proof.
  intros Hb. unfold keep_best. simpl. destruct (best_loss b) as [l|]; [|done].
  destruct (_ <? _)%nat; [done|]. by apply Hb.
Qed.

Lemma trials_keep_a_best (n : nat) (b b' : best) (g g' : rng) :
  (is_Some (best_loss b) -> is_Some (best_allocations b)) ->
  (0 < n)%nat \/ is_Some (best_allocations b) ->
  trials P n b g = Ok (b', g') -> is_Some (best_allocations b').
Proof.
  revert b g; induction n as [|n IH]; intros b g Hb Hn H; simpl in H.
  - ok_step H. destruct Hn as [Hn|Hn]; [lia | done].
  - ok_step H. eapply IH; [| |exact H].
    + intros _. by apply keep_best_is_Some.
    + right. by apply keep_best_is_Some.
Qed.

End Run.

(** C4. For table allocations with unique ids and capacities
    [1 <= min <= optimal <= max], no table ever holds more players than
    its maximum: not after [initial_allocate] has placed any list of
    players into the empty allocation, not after a repair step on a table
    that is below its minimum, not after the whole repair pass, and not in
    the best allocation that [allocate] retains. *)
Theorem capacity_ceiling (all_table_allocations : list TableAllocation)
  (g g0 : rng) (P : prepared) :
  input_contract all_table_allocations ->
  prepare all_table_allocations g = Ok (P, g0) ->
  (forall ps g1 placed g2,
      place_all P (empty_allocations all_table_allocations) ps g1
      = Ok (placed, g2) ->
      within_capacity all_table_allocations placed)
  /\ (forall cur ta l donors g1 cur' ok g2,
         within_capacity all_table_allocations cur ->
         ta ∈ all_table_allocations -> cur !! id_of ta = Some l ->
         len l < minimum_players (game ta) ->
         try_make_up_numbers (lookup_table P) (ordered P) (losses P) cur
           (id_of ta) donors g1 = Ok ((cur', ok), g2) ->
         within_capacity all_table_allocations cur')
  /\ (forall placed g1 repaired g2,
         within_capacity all_table_allocations placed ->
         repair_trial P placed g1 = Ok (repaired, g2) ->
         within_capacity all_table_allocations repaired)
  /\ (forall b g',
         allocate all_table_allocations g = Ok (b, g') ->
         exists cur, best_allocations b = Some cur
                     /\ within_capacity all_table_allocations cur).
Proof.
  intros Hc HP.
  pose proof (prepare_fields _ _ _ _ HP) as (Ht & Hl & _).
  rewrite <- Ht in Hc, Hl, HP. rewrite <- Ht. repeat split.
  - intros ps g1 placed g2 H.
    eapply place_all_within_capacity; eauto.
    by apply empty_within_capacity.
  - intros cur ta l donors g1 cur' ok g2 Hin Hta Hcur Hunder H.
    rewrite Hl in H.
    by eapply (try_make_up_numbers_within_capacity (tables P) Hc).
  - intros placed g1 repaired g2 Hin H.
    by eapply repair_trial_within_capacity.
  - intros b g' H. unfold allocate, bind in H. rewrite HP in H.
    destruct (trials_keep_a_best P n_trials no_best b g0 g') as [cur Hcur].
    { simpl. by intros [x Hx]. }
    { left. unfold n_trials. lia. }
    { done. }
    exists cur. split; [done|].
    eapply (trials_within_capacity P Hc Hl n_trials no_best b); eauto.
    intros c Hn. simpl in Hn. done.
Qed.

Lemma capacity_ceiling_witness :
  input_contract indifferent_tables
  /\ exists b g',
      allocate indifferent_tables [0; 1]%nat = Ok (b, g')
      /\ exists cur, best_allocations b = Some cur
                     /\ within_capacity indifferent_tables cur.
Proof.
  assert (input_contract indifferent_tables) as Hc.
  { split.
    - apply (bool_decide_unpack _). vm_compute. exact I.
    - repeat constructor; simpl; lia. }
  split; [exact Hc|].
  destruct (prepare indifferent_tables [0; 1]%nat) as [[P g0]|e] eqn:E;
    [|vm_compute in E; discriminate].
  destruct (allocate indifferent_tables [0; 1]%nat) as [[b g']|e] eqn:Ea;
    [|vm_compute in Ea; discriminate].
  exists b, g'. split; [reflexivity|].
  destruct (capacity_ceiling indifferent_tables [0; 1]%nat g0 P Hc E)
    as (_ & _ & _ & Hbest).
  by apply (Hbest b g').
Defined.

(** With one preference row per player and table, the dictionaries that
    [prepare] builds are coherent. *)
Lemma prepare_coherent (all_table_allocations : list TableAllocation)
  (g g' : rng) (P : prepared) :
  (forall p, NoDup (map table_allocation_id
                      (rows_of_person p (all_rows all_table_allocations)))) ->
  prepare all_table_allocations g = Ok (P, g') ->
  coherent (ordered P) (losses P).
Proof.
  intros Hrows H.
  pose proof (prepare_fields _ _ _ _ H) as (_ & _ & _ & -> & _).
  apply coherent_built. intros p ts Hts.
  rewrite <- (prepare_tiers _ _ _ _ _ _ H Hts). apply Hrows.
Qed.

(** * Further properties of the allocator *)

(** ** Who is seated: the passes neither lose nor duplicate a player *)

Lemma occupants_delete (cur : allocations) (t : Z) (l : list Z) :
  cur !! t = Some l -> Permutation (occupants cur) (l ++ occupants (delete t cur)).
Proof.
  intros Hl. unfold occupants.
  rewrite <- (map_to_list_delete cur t l Hl). done.
Qed.

Lemma occupants_insert (cur : allocations) (t : Z) (l' : list Z) :
  Permutation (occupants (<[t := l']> cur)) (l' ++ occupants (delete t cur)).
Proof.
  unfold occupants. rewrite <- (insert_delete_eq cur).
  rewrite map_to_list_insert by apply lookup_delete_eq. done.
Qed.

Lemma occupants_append (cur : allocations) (t p : Z) (l : list Z) :
  cur !! t = Some l ->
  Permutation (occupants (<[t := l ++ [p]]> cur)) (p :: occupants cur).
Proof.
  intros Hl. rewrite occupants_insert, (occupants_delete cur t l Hl).
  rewrite <- app_assoc. simpl. symmetry. apply Permutation_middle.
Qed.

Lemma occupants_remove (cur : allocations) (t h : Z) (l l' : list Z) :
  cur !! t = Some l -> py_remove h l = Ok l' ->
  Permutation (h :: occupants (<[t := l']> cur)) (occupants cur).
Proof.
  intros Hl Hr. rewrite occupants_insert, (occupants_delete cur t l Hl).
  apply py_remove_perm in Hr. by rewrite Hr.
Qed.

Lemma occupants_relocate (cur : allocations) (d h ta : Z) (l l' l2 : list Z) :
  cur !! d = Some l -> py_remove h l = Ok l' ->
  <[d := l']> cur !! ta = Some l2 ->
  Permutation (occupants (<[ta := l2 ++ [h]]> (<[d := l']> cur)))
    (occupants cur).
Proof.
  intros Hl Hr Hl2. rewrite (occupants_append _ ta h l2 Hl2).
  by apply (occupants_remove cur d h l l').
Qed.

Lemma move_and_join_occupants (cur cur' : allocations)
  (p ta other other_ta : Z) :
  move_and_join cur p ta other other_ta = Ok cur' ->
  Permutation (occupants cur') (p :: occupants cur).
Proof.
  unfold move_and_join. intros H.
  ok_step H. ok_step E. ok_step H. ok_step H. ok_step E1. ok_step H.
  ok_step E2. ok_step H.
  rewrite (occupants_append _ ta p v2 E2). constructor.
  by eapply occupants_relocate.
Qed.

Lemma placement_occupants (tal : gmap Z TableAllocation) (opp : gmap Z tiers)
  (lpt : gmap Z (gmap Z nat)) (tsp : tiers) (cur cur' : allocations) (p : Z) :
  placement tal opp lpt tsp cur p cur' ->
  Permutation (occupants cur') (p :: occupants cur).
Proof.
  intros [i tier ta l t Hi Hta Hl Ht Hlt
         |i tier ta others other k ts otier other_ta l t c
            Hi Hta Hothers Hother Hloss Hik Hts Hk Hota Hl Ht Hlt Hmove].
  - by apply occupants_append.
  - by eapply move_and_join_occupants.
Qed.

Lemma apply_moves_occupants (cur cur' : allocations) (ta : Z)
  (moves : list (Z * Z)) :
  apply_moves cur ta moves = Ok cur' ->
  Permutation (occupants cur') (occupants cur).
Proof.
  revert cur; induction moves as [|[d h] moves IH]; intros cur H; simpl in H.
  - by ok_step H.
  - ok_step H. ok_step E. ok_step H. ok_step H. ok_step E1.
    rewrite (IH _ H). by eapply occupants_relocate.
Qed.

Lemma initial_allocate_occupants
  (tal : gmap Z TableAllocation) (opp : gmap Z tiers)
  (lpt : gmap Z (gmap Z nat)) (cur cur' : allocations) (p : Z) (g g' : rng) :
  initial_allocate tal opp lpt cur p g = Ok ((cur', true), g') ->
  Permutation (occupants cur') (p :: occupants cur).
Proof.
  intros H. apply initial_allocate_true in H as (tsp & _ & Hp).
  by eapply placement_occupants.
Qed.

(** X1. A successful [initial_allocate] adds the newcomer, once, and
    keeps everybody else: the seated players afterwards are the newcomer
    and the players seated before. *)
Theorem initial_allocate_adds_exactly_the_newcomer
  (tal : gmap Z TableAllocation) (opp : gmap Z tiers)
  (lpt : gmap Z (gmap Z nat)) (cur cur' : allocations) (p : Z) (g g' : rng) :
  initial_allocate tal opp lpt cur p g = Ok ((cur', true), g') ->
  Permutation (occupants cur') (p :: occupants cur).
Proof. apply initial_allocate_occupants. Qed.

Lemma initial_allocate_adds_exactly_the_newcomer_witness :
  Permutation (occupants both_seated) (102 :: occupants one_seated).
Proof.
  apply (initial_allocate_adds_exactly_the_newcomer single_seats
           single_seats_ordered
           (loss_by_player_and_table single_seats_ordered)
           one_seated both_seated 102 [] []).
  vm_compute. reflexivity.
Defined.

Lemma try_make_up_numbers_occupants
  (tal : gmap Z TableAllocation) (opp : gmap Z tiers)
  (lpt : gmap Z (gmap Z nat)) (cur cur' : allocations) (ta : Z)
  (donors : list Z) (ok : bool) (g g' : rng) :
  try_make_up_numbers tal opp lpt cur ta donors g = Ok ((cur', ok), g') ->
  Permutation (occupants cur') (occupants cur).
Proof.
  intros H. destruct ok.
  - apply try_make_up_numbers_true in H
      as (t & l & cands & shuffled & selected & _ & _ & _ & _ & _ & _
          & Happly).
    by eapply apply_moves_occupants.
  - by apply try_make_up_numbers_false in H as ->.
Qed.

(** X2. [try_make_up_numbers] only moves players between tables: whether
    it reports success or not, the seated players are the same as before,
    each as often as before. *)
Theorem try_make_up_numbers_keeps_the_players
  (tal : gmap Z TableAllocation) (opp : gmap Z tiers)
  (lpt : gmap Z (gmap Z nat)) (cur cur' : allocations) (ta : Z)
  (donors : list Z) (ok : bool) (g g' : rng) :
  try_make_up_numbers tal opp lpt cur ta donors g = Ok ((cur', ok), g') ->
  Permutation (occupants cur') (occupants cur).
Proof. apply try_make_up_numbers_occupants. Qed.

Lemma try_make_up_numbers_keeps_the_players_witness :
  Permutation (occupants two_moved) (occupants all_at_donor).
Proof.
  apply (try_make_up_numbers_keeps_the_players donor_and_empty
           four_friends_ordered
           (loss_by_player_and_table four_friends_ordered)
           all_at_donor two_moved 2 [1] true [] []).
  vm_compute. reflexivity.
Defined.

(** ** The run seats exactly the persons who have a preference row *)

Lemma occupants_all_empty (cur : allocations) :
  (forall t l, cur !! t = Some l -> l = []) -> occupants cur = [].
Proof.
  intros Hempty. unfold occupants.
  assert (Forall (fun tl => snd tl = []) (map_to_list cur)) as Hall.
  { apply Forall_forall. intros [t l] Hin.
    apply elem_of_map_to_list in Hin. simpl. by eapply Hempty. }
  induction Hall as [|[t l] rest Hl _ IH]; simpl; [done|].
  simpl in Hl. by rewrite Hl, IH.
Qed.

Lemma in_keys_get_item (d : list (Z * list SessionPreference)) (k : Z) :
  k ∈ map fst d <-> is_Some (get_item d k).
Proof.
  induction d as [|[k' v] d IH]; simpl.
  - split; [intros H; by apply elem_of_nil in H | by intros [x Hx]].
  - destruct (k =? k') eqn:E.
    + apply Z.eqb_eq in E. subst. split; [done | intros _; by left].
    + apply Z.eqb_neq in E. rewrite <- IH. split.
      * intros H. apply elem_of_cons in H as [H|H]; done.
      * intros H. by right.
Qed.

Lemma players_of_prepare (tables : list TableAllocation) (g g' : rng)
  (P : prepared) :
  prepare tables g = Ok (P, g') ->
  NoDup (players P)
  /\ forall p, p ∈ players P <->
       exists ta sp, ta ∈ tables /\ sp ∈ session_preferences ta
                     /\ person_id sp = p.
Proof.
  intros H. apply prepare_fields in H as (_ & _ & -> & _).
  rewrite all_preferences_by_player_rows. split.
  - apply keys_foldl_setdefault_NoDup. constructor.
  - intros p. rewrite in_keys_get_item, get_foldl_setdefault. simpl.
    unfold rows_of_person, all_rows. split.
    + intros Hsome.
      destruct (List.filter _ _) as [|sp l] eqn:Ef; [by destruct Hsome|].
      assert (In sp (List.filter (fun sp => person_id sp =? p)
                       (flat_map session_preferences tables))) as Hin
        by (rewrite Ef; by left).
      apply filter_In in Hin as [Hin Hp]. apply Z.eqb_eq in Hp.
      apply in_flat_map in Hin as (ta & Hta & Hsp).
      exists ta, sp. repeat split; try done; by apply list_elem_of_In.
    + intros (ta & sp & Hta & Hsp & Hp).
      assert (In sp (List.filter (fun sp => person_id sp =? p)
                       (flat_map session_preferences tables))) as Hin.
      { apply filter_In. split; [|by apply Z.eqb_eq].
        apply in_flat_map. exists ta. split; by apply list_elem_of_In. }
      destruct (List.filter _ _); [done | done].
Qed.

Section Seating.

Context (P : prepared).

Lemma place_all_occupants (cur cur' : allocations) (ps : list Z)
  (g g' : rng) :
  place_all P cur ps g = Ok (cur', g') ->
  Permutation (occupants cur') (ps ++ occupants cur).
Proof.
  revert cur g; induction ps as [|p ps IH]; intros cur g H; simpl in H.
  - by ok_step H.
  - ok_step H. destruct v as [c ok]. simpl in H. destruct ok; [|done].
    rewrite (IH _ _ H).
    rewrite (initial_allocate_occupants _ _ _ _ _ _ _ _ E).
    simpl. symmetry. apply Permutation_middle.
Qed.

Lemma make_up_all_occupants (cur cur' : allocations) (targets : list Z)
  (g g' : rng) :
  make_up_all P cur targets g = Ok (cur', g') ->
  Permutation (occupants cur') (occupants cur).
Proof.
  revert cur g; induction targets as [|a rest IH]; intros cur g H;
    simpl in H.
  - by ok_step H.
  - ok_step H. ok_step E. ok_step H. destruct v0 as [c ok]. simpl in H.
    destruct ok; [|done]. rewrite (IH _ _ H).
    by eapply try_make_up_numbers_occupants.
Qed.

Lemma place_trial_occupants (placed : allocations) (g g' : rng) :
  place_trial P g = Ok (placed, g') ->
  Permutation (occupants placed) (players P).
Proof.
  unfold place_trial. intros H. ok_step H. ok_step H. ok_step H.
  destruct v1; [|done]. ok_step H.
  rewrite (place_all_occupants _ _ _ _ _ E0).
  rewrite (occupants_all_empty (empty_allocations (tables P)))
    by apply empty_allocations_lookup.
  rewrite app_nil_r. symmetry. by eapply random_sample_perm.
Qed.

Lemma repair_trial_occupants (placed repaired : allocations) (g g' : rng) :
  repair_trial P placed g = Ok (repaired, g') ->
  Permutation (occupants repaired) (occupants placed).
Proof.
  unfold repair_trial. intros H. ok_step H.
  by eapply make_up_all_occupants.
Qed.

Lemma trial_occupants (r : allocations * nat) (g g' : rng) :
  trial P g = Ok (r, g') -> Permutation (occupants (fst r)) (players P).
Proof.
  unfold trial. intros H. ok_step H. ok_step H. ok_step H. ok_step H.
  simpl. rewrite (repair_trial_occupants _ _ _ _ E0).
  by eapply place_trial_occupants.
Qed.

(** What [trials] retains is the outcome of one of its trials. *)
Lemma trials_best_is_a_trial (n : nat) (b b' : best) (g g' : rng) :
  (forall cur, best_allocations b = Some cur ->
     exists loss g1 g2, best_loss b = Some loss
                        /\ trial P g1 = Ok ((cur, loss), g2)) ->
  trials P n b g = Ok (b', g') ->
  forall cur, best_allocations b' = Some cur ->
    exists loss g1 g2, best_loss b' = Some loss
                       /\ trial P g1 = Ok ((cur, loss), g2).
Proof.
  revert b g; induction n as [|n IH]; intros b g Hb H; simpl in H.
  - by ok_step H.
  - ok_step H. eapply IH; [|exact H].
    intros cur Hcur. unfold keep_best in *. simpl in *.
    destruct v as [c loss]. simpl in *.
    destruct (best_loss b) as [l|] eqn:El.
    + destruct (loss <? l)%nat.
      * inversion Hcur; subst. exists loss, g, g0. done.
      * destruct (Hb cur Hcur) as (l0 & g1 & g2 & Hl0 & Ht).
        inversion Hl0; subst. exists l0, g1, g2. done.
    + inversion Hcur; subst. exists loss, g, g0. done.
Qed.

End Seating.

Lemma allocate_best_is_a_trial (tables : list TableAllocation) (g g' : rng)
  (b : best) :
  allocate tables g = Ok (b, g') ->
  exists P g0 cur loss g1 g2,
    prepare tables g = Ok (P, g0)
    /\ best_allocations b = Some cur /\ best_loss b = Some loss
    /\ trial P g1 = Ok ((cur, loss), g2).
Proof.
  unfold allocate. intros H. ok_step H.
  destruct (trials_keep_a_best v n_trials no_best b g0 g') as [cur Hcur].
  { simpl. by intros [x Hx]. }
  { left. unfold n_trials. lia. }
  { done. }
  destruct (trials_best_is_a_trial v n_trials no_best b g0 g') with (cur := cur)
    as (loss & g1 & g2 & Hloss & Ht); try done.
  exists v, g0, cur, loss, g1, g2. done.
Qed.

Lemma seated_occupants (cur : allocations) (p : Z) :
  p ∈ occupants cur <-> exists t, seated cur p t.
Proof.
  unfold occupants, seated. split.
  - intros Hin. apply list_elem_of_In, in_concat in Hin as (l & Hl & Hp).
    apply in_map_iff in Hl as ([t l'] & <- & Htl).
    apply list_elem_of_In, elem_of_map_to_list in Htl.
    exists t, l'. split; [done | by apply list_elem_of_In].
  - intros (t & l & Hl & Hp). apply list_elem_of_In, in_concat.
    exists l. split; [|by apply list_elem_of_In].
    apply in_map_iff. exists (t, l). split; [done|].
    by apply list_elem_of_In, elem_of_map_to_list.
Qed.

Lemma seated_once (cur : allocations) (p t1 t2 : Z) :
  NoDup (occupants cur) -> seated cur p t1 -> seated cur p t2 -> t1 = t2.
Proof.
  intros Hnd (l1 & Hl1 & Hp1) H2.
  destruct (decide (t1 = t2)) as [|Hne]; [done|]. exfalso.
  rewrite (occupants_delete cur t1 l1 Hl1) in Hnd.
  apply NoDup_app in Hnd as (_ & Hdisj & _).
  apply (Hdisj p Hp1). apply seated_occupants. exists t2.
  destruct H2 as (l2 & Hl2 & Hp2). exists l2.
  by rewrite lookup_delete_ne.
Qed.

(** X3. In the allocation that [allocate] retains, the persons seated are
    exactly the persons with at least one preference row in the time
    slot, and each of them sits at exactly one table, once. *)
Theorem allocate_seats_every_player_once (tables : list TableAllocation)
  (g g' : rng) (b : best) :
  allocate tables g = Ok (b, g') ->
  exists cur,
    best_allocations b = Some cur
    /\ NoDup (occupants cur)
    /\ (forall p, (exists t, seated cur p t) <->
          exists ta sp, ta ∈ tables /\ sp ∈ session_preferences ta
                        /\ person_id sp = p)
    /\ forall p t1 t2, seated cur p t1 -> seated cur p t2 -> t1 = t2.
Proof.
  intros H. apply allocate_best_is_a_trial in H
    as (P & g0 & cur & loss & g1 & g2 & HP & Hcur & _ & Ht).
  apply trial_occupants in Ht. simpl in Ht.
  destruct (players_of_prepare _ _ _ _ HP) as [Hnd Hrows].
  assert (NoDup (occupants cur)) as Hnd' by (by rewrite Ht).
  exists cur. repeat split; try done.
  - intros Hs. apply Hrows. rewrite <- Ht. by apply seated_occupants.
  - intros Hr. apply seated_occupants. rewrite Ht. by apply Hrows.
  - intros p t1 t2. by apply seated_once.
Qed.

Lemma allocate_seats_every_player_once_witness :
  exists b g' cur,
    allocate indifferent_tables [0; 1]%nat = Ok (b, g')
    /\ best_allocations b = Some cur
    /\ NoDup (occupants cur)
    /\ (forall p, (exists t, seated cur p t) <->
          exists ta sp, ta ∈ indifferent_tables
                        /\ sp ∈ session_preferences ta /\ person_id sp = p)
    /\ forall p t1 t2, seated cur p t1 -> seated cur p t2 -> t1 = t2.
Proof.
  destruct (allocate indifferent_tables [0; 1]%nat) as [[b g']|e] eqn:Ea;
    [|vm_compute in Ea; discriminate].
  destruct (allocate_seats_every_player_once indifferent_tables
              [0; 1]%nat g' b Ea) as (cur & H).
  exists b, g', cur. split; [reflexivity | exact H].
Defined.

(** ** The total loss as a sum over seats *)

Lemma sum_losses_raises (l : list (option nat)) (e : exn) :
  sum_losses l = Raise e -> e = KeyError.
Proof.
  induction l as [|[x|] l IH]; simpl; [discriminate| |by inversion 1].
  destruct (sum_losses l); simpl; [discriminate|].
  intros H; inversion H; subst. by apply IH.
Qed.

Lemma sum_losses_app (l1 l2 : list (option nat)) :
  sum_losses (l1 ++ l2)
  = (x <- sum_losses l1 ;; s <- sum_losses l2 ;; Ok (x + s)%nat)%res.
Proof.
  induction l1 as [|[x|] l1 IH]; simpl.
  - destruct (sum_losses l2); done.
  - rewrite IH. destruct (sum_losses l1); simpl; [|done].
    destruct (sum_losses l2); simpl; [|done]. f_equal. lia.
  - done.
Qed.

Lemma sum_losses_perm (l1 l2 : list (option nat)) :
  Permutation l1 l2 -> sum_losses l1 = sum_losses l2.
Proof.
  induction 1 as [|x l1 l2 Hp IH|x y l|l1 l2 l3 H1 IH1 H2 IH2]; simpl.
  - done.
  - destruct x; [by rewrite IH | done].
  - destruct x as [x|], y as [y|]; simpl; try done.
    destruct (sum_losses l); simpl; [f_equal; lia | done].
  - congruence.
Qed.

Lemma loss_of_players_sum (lpt : gmap Z (gmap Z nat)) (t : Z) (l : list Z) :
  loss_of_players lpt t l = sum_losses (map (fun q => loss_at lpt q t) l).
Proof.
  induction l as [|q l IH]; simpl; [done|].
  unfold loss_at. destruct (lpt !! q) as [m|]; simpl; [|done].
  destruct (m !! t); simpl; [|done]. by rewrite IH.
Qed.

Lemma evaluate_total_loss_sum (lpt : gmap Z (gmap Z nat)) (cur : allocations) :
  evaluate_total_loss lpt cur = sum_losses (seat_losses lpt cur).
Proof.
  unfold evaluate_total_loss, seat_losses.
  induction (map_to_list cur) as [|[t l] items IH]; simpl; [done|].
  rewrite sum_losses_app, loss_of_players_sum, IH. done.
Qed.

Lemma seat_losses_delete (lpt : gmap Z (gmap Z nat)) (cur : allocations)
  (t : Z) (l : list Z) :
  cur !! t = Some l ->
  Permutation (seat_losses lpt cur)
    (map (fun q => loss_at lpt q t) l ++ seat_losses lpt (delete t cur)).
Proof.
  intros Hl. unfold seat_losses.
  rewrite <- (map_to_list_delete cur t l Hl). done.
Qed.

Lemma seat_losses_insert (lpt : gmap Z (gmap Z nat)) (cur : allocations)
  (t : Z) (l' : list Z) :
  Permutation (seat_losses lpt (<[t := l']> cur))
    (map (fun q => loss_at lpt q t) l' ++ seat_losses lpt (delete t cur)).
Proof.
  unfold seat_losses. rewrite <- (insert_delete_eq cur).
  rewrite map_to_list_insert by apply lookup_delete_eq. done.
Qed.

Lemma seat_losses_append (lpt : gmap Z (gmap Z nat)) (cur : allocations)
  (t p : Z) (l : list Z) :
  cur !! t = Some l ->
  Permutation (seat_losses lpt (<[t := l ++ [p]]> cur))
    (loss_at lpt p t :: seat_losses lpt cur).
Proof.
  intros Hl. rewrite seat_losses_insert, (seat_losses_delete lpt cur t l Hl).
  rewrite map_app. simpl. rewrite <- app_assoc. simpl. symmetry.
  apply Permutation_middle.
Qed.

Lemma seat_losses_remove (lpt : gmap Z (gmap Z nat)) (cur : allocations)
  (t h : Z) (l l' : list Z) :
  cur !! t = Some l -> py_remove h l = Ok l' ->
  Permutation (loss_at lpt h t :: seat_losses lpt (<[t := l']> cur))
    (seat_losses lpt cur).
Proof.
  intros Hl Hr. rewrite seat_losses_insert, (seat_losses_delete lpt cur t l Hl).
  apply py_remove_perm in Hr.
  rewrite (Permutation_map (fun q => loss_at lpt q t) Hr). done.
Qed.

Lemma seat_losses_relocate (lpt : gmap Z (gmap Z nat)) (cur : allocations)
  (d h ta : Z) (l l' l2 : list Z) :
  loss_at lpt h ta = loss_at lpt h d ->
  cur !! d = Some l -> py_remove h l = Ok l' ->
  <[d := l']> cur !! ta = Some l2 ->
  Permutation (seat_losses lpt (<[ta := l2 ++ [h]]> (<[d := l']> cur)))
    (seat_losses lpt cur).
Proof.
  intros Hsame Hl Hr Hl2. rewrite (seat_losses_append _ _ ta h l2 Hl2).
  rewrite Hsame. by apply (seat_losses_remove lpt cur d h l l').
Qed.

Lemma apply_moves_seat_losses (lpt : gmap Z (gmap Z nat))
  (cur cur' : allocations) (ta : Z) (moves : list (Z * Z)) :
  Forall (fun c => loss_at lpt (snd c) ta = loss_at lpt (snd c) (fst c))
    moves ->
  apply_moves cur ta moves = Ok cur' ->
  Permutation (seat_losses lpt cur') (seat_losses lpt cur).
Proof.
  revert cur; induction moves as [|[d h] moves IH]; intros cur Hsame H;
    simpl in H.
  - by ok_step H.
  - inversion Hsame as [|? ? Hdh Hsame']; subst. simpl in Hdh.
    ok_step H. ok_step E. ok_step H. ok_step H. ok_step E1.
    rewrite (IH _ Hsame' H). by eapply seat_losses_relocate.
Qed.

Lemma try_make_up_numbers_seat_losses (tal : gmap Z TableAllocation)
  (opp : gmap Z tiers) (lpt : gmap Z (gmap Z nat)) (cur cur' : allocations)
  (ta : Z) (donors : list Z) (ok : bool) (g g' : rng) :
  coherent opp lpt ->
  try_make_up_numbers tal opp lpt cur ta donors g = Ok ((cur', ok), g') ->
  Permutation (seat_losses lpt cur') (seat_losses lpt cur).
Proof.
  intros Hcoh H. destruct ok;
    [|by apply try_make_up_numbers_false in H as ->].
  apply try_make_up_numbers_true in H
    as (t & l & cands & shuffled & selected & _ & _ & Hscan & Hperm
        & Hsel & _ & Happly).
  pose proof (scan_tables_spec _ _ _ _ _ _ Hscan) as Hc.
  pose proof (selected_are_candidates tal opp lpt _ _ _ _ _ _ Hc Hperm Hsel)
    as Hs.
  eapply apply_moves_seat_losses; [|exact Happly].
  eapply Forall_impl; [exact Hs|]. intros c0. by apply candidate_same_loss.
Qed.

(** X4. With loss maps built from duplicate-free tiers,
    [try_make_up_numbers] never changes the total loss: what
    [evaluate_total_loss] returns after the call, success or not, is what
    it returns before. *)
Theorem try_make_up_numbers_keeps_the_total_loss
  (tal : gmap Z TableAllocation) (opp : gmap Z tiers)
  (lpt : gmap Z (gmap Z nat)) (cur cur' : allocations) (ta : Z)
  (donors : list Z) (ok : bool) (g g' : rng) :
  coherent opp lpt ->
  try_make_up_numbers tal opp lpt cur ta donors g = Ok ((cur', ok), g') ->
  evaluate_total_loss lpt cur' = evaluate_total_loss lpt cur.
Proof.
  intros Hcoh H. rewrite !evaluate_total_loss_sum. apply sum_losses_perm.
  by eapply try_make_up_numbers_seat_losses.
Qed.

Lemma try_make_up_numbers_keeps_the_total_loss_witness :
  evaluate_total_loss (loss_by_player_and_table four_friends_ordered) two_moved
  = evaluate_total_loss (loss_by_player_and_table four_friends_ordered)
      all_at_donor.
Proof.
  apply (try_make_up_numbers_keeps_the_total_loss donor_and_empty
           four_friends_ordered
           (loss_by_player_and_table four_friends_ordered)
           all_at_donor two_moved 2 [1] true [] []).
  - apply coherent_built. apply (bool_decide_unpack _). vm_compute. exact I.
  - vm_compute. reflexivity.
Defined.

Lemma placement_seat_losses (tal : gmap Z TableAllocation)
  (opp : gmap Z tiers) (lpt : gmap Z (gmap Z nat)) (tsp : tiers)
  (cur cur' : allocations) (p : Z) :
  coherent opp lpt ->
  placement tal opp lpt tsp cur p cur' ->
  exists i tier ta,
    tsp !! i = Some tier /\ ta ∈ tier /\ seated cur' p ta
    /\ Permutation (seat_losses lpt cur')
         (loss_at lpt p ta :: seat_losses lpt cur).
Proof.
  intros Hcoh [i tier ta l t Hi Hta Hl Ht Hlt
              |i tier ta others other k ts otier other_ta l t c
                 Hi Hta Hothers Hother Hloss Hik Hts Hk Hota Hl Ht Hlt Hmove].
  - exists i, tier, ta. repeat split; try done.
    + destruct (append_seated cur ta p l Hl) as (_ & S & _). done.
    + by apply seat_losses_append.
  - exists i, tier, ta.
    pose proof (coherent_tier_loss opp lpt Hcoh other ta other_ta k ts otier
                  Hloss Hts Hk Hota) as Hsame.
    unfold move_and_join in Hmove.
    ok_step Hmove. ok_step E. ok_step Hmove. ok_step Hmove. ok_step E1.
    ok_step Hmove. ok_step E2. ok_step Hmove.
    repeat split; try done.
    + destruct (append_seated _ ta p v2 E2) as (_ & S & _). done.
    + rewrite (seat_losses_append _ _ ta p v2 E2). constructor.
      eapply seat_losses_relocate; eauto. by rewrite Hsame.
Qed.

(** X5. With loss maps built from duplicate-free tiers, a successful
    [initial_allocate] raises the total loss by exactly the loss of the
    newcomer at the table it is seated at, a table of the newcomer's
    tiers; what the incumbents contribute does not change, also when one
    of them is bumped. *)
Theorem initial_allocate_adds_the_newcomers_loss
  (tal : gmap Z TableAllocation) (opp : gmap Z tiers)
  (lpt : gmap Z (gmap Z nat)) (cur cur' : allocations) (p : Z) (g g' : rng) :
  coherent opp lpt ->
  initial_allocate tal opp lpt cur p g = Ok ((cur', true), g') ->
  exists tsp i tier ta,
    opp !! p = Some tsp /\ tsp !! i = Some tier /\ ta ∈ tier
    /\ seated cur' p ta
    /\ evaluate_total_loss lpt cur'
       = (x <- getitem (loss_at lpt p ta) ;;
          s <- evaluate_total_loss lpt cur ;;
          Ok (x + s)%nat)%res.
Proof.
  intros Hcoh H. apply initial_allocate_true in H as (tsp & Htsp & Hp).
  destruct (placement_seat_losses _ _ _ _ _ _ _ Hcoh Hp)
    as (i & tier & ta & Hi & Hta & Hs & Hperm).
  exists tsp, i, tier, ta. repeat split; try done.
  rewrite !evaluate_total_loss_sum, (sum_losses_perm _ _ Hperm). simpl.
  destruct (loss_at lpt p ta); done.
Qed.

Lemma initial_allocate_adds_the_newcomers_loss_witness :
  exists tsp i tier ta,
    single_seats_ordered !! 102 = Some tsp /\ tsp !! i = Some tier
    /\ ta ∈ tier /\ seated both_seated 102 ta
    /\ evaluate_total_loss (loss_by_player_and_table single_seats_ordered)
         both_seated
       = (x <- getitem (loss_at (loss_by_player_and_table
                                   single_seats_ordered) 102 ta) ;;
          s <- evaluate_total_loss
                 (loss_by_player_and_table single_seats_ordered) one_seated ;;
          Ok (x + s)%nat)%res.
Proof.
  apply (initial_allocate_adds_the_newcomers_loss single_seats
           single_seats_ordered
           (loss_by_player_and_table single_seats_ordered)
           one_seated both_seated 102 [] []).
  - apply coherent_built. apply (bool_decide_unpack _). vm_compute. exact I.
  - vm_compute. reflexivity.
Defined.

(** ** What the run retains: the first trial with the smallest loss *)

Lemma trials_log_spec (P : prepared) (n : nat) (b b' : best) (g g' : rng) :
  trials P n b g = Ok (b', g') ->
  exists rs,
    trials_log P rs g g' /\ length rs = n
    /\ b' = foldl (fun b r => keep_best b (fst r) (snd r)) b rs.
Proof.
  revert b g; induction n as [|n IH]; intros b g H; simpl in H.
  - ok_step H. exists []. repeat split. constructor.
  - ok_step H. destruct (IH _ _ H) as (rs & Hlog & Hlen & ->).
    exists (v :: rs). repeat split.
    + econstructor; eauto.
    + simpl. by rewrite Hlen.
Qed.

Lemma keep_best_fold (rs : list (allocations * nat)) (b : best)
  (m : nat) (c : allocations) :
  best_loss b = Some m -> best_allocations b = Some c ->
  let b' := foldl (fun b r => keep_best b (fst r) (snd r)) b rs in
  best_loss_each_iteration b'
  = best_loss_each_iteration b ++ minima_from m (map snd rs)
  /\ ((best_loss b' = Some m /\ best_allocations b' = Some c
       /\ forall x, x ∈ rs -> (m <= snd x)%nat)
      \/ exists pre r post,
          rs = pre ++ r :: post
          /\ best_loss b' = Some (snd r) /\ best_allocations b' = Some (fst r)
          /\ (snd r < m)%nat
          /\ (forall x, x ∈ pre -> (snd r < snd x)%nat)
          /\ (forall x, x ∈ post -> (snd r <= snd x)%nat)).
Proof.
  revert b m c; induction rs as [|[c0 l0] rs IH]; intros b m c Hm Hc; simpl.
  - split; [by rewrite app_nil_r|]. left. repeat split; try done.
    intros x Hx. by apply elem_of_nil in Hx.
  - set (b1 := keep_best b c0 l0).
    destruct (l0 <? m)%nat eqn:Elt.
    + apply Nat.ltb_lt in Elt.
      assert (best_loss b1 = Some l0) as Hm1.
      { unfold b1, keep_best. simpl. rewrite Hm.
        apply Nat.ltb_lt in Elt. by rewrite Elt. }
      assert (best_allocations b1 = Some c0) as Hc1.
      { unfold b1, keep_best. simpl. rewrite Hm.
        apply Nat.ltb_lt in Elt. by rewrite Elt. }
      assert (best_loss_each_iteration b1
              = best_loss_each_iteration b ++ [l0]) as Hh1.
      { unfold b1, keep_best. simpl. rewrite Hm.
        apply Nat.ltb_lt in Elt. by rewrite Elt. }
      destruct (IH b1 l0 c0 Hm1 Hc1) as [Hh Hcase].
      replace (Nat.min m l0) with l0 by lia. split.
      * rewrite Hh, Hh1, <- app_assoc. done.
      * right. destruct Hcase
          as [(Hb & Ha & Hall)
             |(pre & r & post & -> & Hb & Ha & Hlt & Hpre & Hpost)].
        -- exists [], (c0, l0), rs. repeat split; try done.
           intros x Hx. by apply elem_of_nil in Hx.
        -- exists ((c0, l0) :: pre), r, post. repeat split; try done.
           ++ lia.
           ++ intros x Hx. apply elem_of_cons in Hx as [->|Hx];
                [done | by apply Hpre].
    + apply Nat.ltb_ge in Elt.
      assert (best_loss b1 = Some m) as Hm1.
      { unfold b1, keep_best. simpl. rewrite Hm.
        apply Nat.ltb_ge in Elt. by rewrite Elt. }
      assert (best_allocations b1 = Some c) as Hc1.
      { unfold b1, keep_best. simpl. rewrite Hm.
        apply Nat.ltb_ge in Elt. by rewrite Elt. }
      assert (best_loss_each_iteration b1
              = best_loss_each_iteration b ++ [m]) as Hh1.
      { unfold b1, keep_best. simpl. rewrite Hm.
        apply Nat.ltb_ge in Elt. by rewrite Elt. }
      destruct (IH b1 m c Hm1 Hc1) as [Hh Hcase].
      replace (Nat.min m l0) with m by lia. split.
      * rewrite Hh, Hh1, <- app_assoc. done.
      * destruct Hcase
          as [(Hb & Ha & Hall)
             |(pre & r & post & -> & Hb & Ha & Hlt & Hpre & Hpost)].
        -- left. repeat split; try done. intros x Hx.
           apply elem_of_cons in Hx as [->|Hx]; [done | by apply Hall].
        -- right. exists ((c0, l0) :: pre), r, post. repeat split; try done.
           intros x Hx. apply elem_of_cons in Hx as [->|Hx];
             [simpl; lia | by apply Hpre].
Qed.

(** X6. When [allocate] returns, the allocation it retains is that of the
    FIRST trial whose total loss is the smallest of the run (a later trial
    replaces it only with a strictly smaller loss), [best_loss] is that
    loss, and [best_loss_each_iteration] lists, trial by trial, the
    smallest loss so far. *)
Theorem allocate_keeps_the_first_best_trial (tables : list TableAllocation)
  (g g' : rng) (b : best) :
  allocate tables g = Ok (b, g') ->
  exists P g0 pre r post,
    prepare tables g = Ok (P, g0)
    /\ trials_log P (pre ++ r :: post) g0 g'
    /\ length (pre ++ r :: post) = n_trials
    /\ best_allocations b = Some (fst r) /\ best_loss b = Some (snd r)
    /\ (forall x, x ∈ pre -> (snd r < snd x)%nat)
    /\ (forall x, x ∈ post -> (snd r <= snd x)%nat)
    /\ best_loss_each_iteration b
       = running_minima (map snd (pre ++ r :: post)).
Proof.
  unfold allocate. intros H. ok_step H.
  apply trials_log_spec in H as (rs & Hlog & Hlen & ->).
  destruct rs as [|[c0 l0] rs]; [unfold n_trials in Hlen; simpl in Hlen; lia|].
  simpl.
  destruct (keep_best_fold rs (keep_best no_best c0 l0) l0 c0)
    as [Hh Hcase]; [done | done |].
  simpl in Hh.
  destruct Hcase
    as [(Hb & Ha & Hall)
       |(pre & r & post & -> & Hb & Ha & Hlt & Hpre & Hpost)].
  - exists v, g0, [], (c0, l0), rs. repeat split; try done.
    intros x Hx. by apply elem_of_nil in Hx.
  - exists v, g0, ((c0, l0) :: pre), r, post. repeat split; try done.
    intros x Hx. apply elem_of_cons in Hx as [->|Hx]; [done | by apply Hpre].
Qed.

Lemma allocate_keeps_the_first_best_trial_witness :
  exists b g' P g0 pre r post,
    allocate indifferent_tables [0; 1]%nat = Ok (b, g')
    /\ prepare indifferent_tables [0; 1]%nat = Ok (P, g0)
    /\ trials_log P (pre ++ r :: post) g0 g'
    /\ length (pre ++ r :: post) = n_trials
    /\ best_allocations b = Some (fst r) /\ best_loss b = Some (snd r)
    /\ (forall x, x ∈ pre -> (snd r < snd x)%nat)
    /\ (forall x, x ∈ post -> (snd r <= snd x)%nat)
    /\ best_loss_each_iteration b
       = running_minima (map snd (pre ++ r :: post)).
Proof.
  destruct (allocate indifferent_tables [0; 1]%nat) as [[b g']|e] eqn:Ea;
    [|vm_compute in Ea; discriminate].
  destruct (allocate_keeps_the_first_best_trial indifferent_tables
              [0; 1]%nat g' b Ea) as (P & g0 & pre & r & post & H).
  exists b, g', P, g0, pre, r, post. split; [reflexivity | exact H].
Defined.

(** ** The loss of a table: how many distinct scores beat its score *)

Lemma groupby_keys_elems {A : Type} (key : A -> Z) (l : list A) (k : Z) :
  k ∈ map fst (groupby key l) <-> k ∈ map key l.
Proof.
  split.
  - intros Hk. change (map fst ?x) with (fst <$> x) in Hk.
    apply list_elem_of_fmap in Hk as (kg & -> & Hkg).
    apply groupby_key_In in Hkg as (x & Hx & <-).
    change (map key l) with (key <$> l). apply list_elem_of_fmap. eauto.
  - intros Hk. change (map key l) with (key <$> l) in Hk.
    apply list_elem_of_fmap in Hk as (x & -> & Hx).
    rewrite <- (groupby_concat key l) in Hx.
    apply list_elem_of_In, in_concat in Hx as (grp & Hgrp & Hin).
    apply in_map_iff in Hgrp as (kg & <- & Hkg).
    pose proof (groupby_keys key l) as Hall. rewrite Forall_forall in Hall.
    destruct (Hall kg) as [_ Hk]; [by apply list_elem_of_In|].
    rewrite Forall_forall in Hk.
    rewrite (Hk x) by (by apply list_elem_of_In).
    change (map fst ?y) with (fst <$> y). apply list_elem_of_fmap.
    exists kg. split; [done | by apply list_elem_of_In].
Qed.

Lemma filter_none (K : list Z) (k : Z) :
  (forall y, y ∈ K -> y <= k) -> filter (fun s => k < s) K = [].
Proof.
  induction K as [|x K IH]; intros H; [done|].
  rewrite filter_cons_False.
  - apply IH. intros y Hy. apply H. by right.
  - specialize (H x). assert (x <= k) by (apply H; by left). lia.
Qed.

Lemma descending_filter_length (K : list Z) (i : nat) (k : Z) :
  StronglySorted (fun x y => y < x) K -> K !! i = Some k ->
  length (filter (fun s => k < s) K) = i.
Proof.
  intros Hs. revert i. induction Hs as [|x K HK IH Hx]; intros i Hi; [done|].
  rewrite Forall_forall in Hx. destruct i as [|i]; simpl in Hi.
  - inversion Hi; subst. rewrite filter_cons_False by lia.
    rewrite filter_none; [done|].
    intros y Hy. specialize (Hx y Hy). simpl in Hx. lia.
  - assert (k < x) as Hlt.
    { apply Hx. eapply list_elem_of_lookup_2; eauto. }
    rewrite filter_cons_True by done. simpl. f_equal. by apply IH.
Qed.

Lemma descending_NoDup (K : list Z) :
  StronglySorted (fun x y => y < x) K -> NoDup K.
Proof.
  induction 1 as [|x K HK IH Hx]; [constructor|].
  apply NoDup_cons. split; [|done].
  intros Hin. rewrite Forall_forall in Hx. specialize (Hx x Hin). lia.
Qed.

Lemma StronglySorted_map_keys {A : Type} (R : Z -> Z -> Prop)
  (l : list (Z * A)) :
  StronglySorted (fun a b => R (fst a) (fst b)) l ->
  StronglySorted R (map fst l).
Proof.
  induction 1 as [|x l Hl IH Hx]; simpl; constructor; [done|].
  rewrite Forall_forall in Hx. apply Forall_forall. intros k Hk.
  change (map fst l) with (fst <$> l) in Hk.
  apply list_elem_of_fmap in Hk as (y & -> & Hy). by apply Hx.
Qed.

Lemma loss_formula (preferences : list SessionPreference) (ts : tiers)
  (g g' : rng) (a : SessionPreference) :
  NoDup (map table_allocation_id preferences) ->
  _order_preferences_for_player preferences g = Ok (ts, g') ->
  a ∈ preferences ->
  loss_of_tiers 0 ts ∅ !! table_allocation_id a
  = Some (length (remove_dups
                    (filter (fun s => preference a < s)
                       (map preference preferences)))).
Proof.
  intros Hnd H Ha.
  destruct (tier_of_preference _ _ _ _ a H Ha)
    as (i & kg & t & Hi & Hkg & Hti & Hai).
  assert (NoDup (concat ts)) as Hnd' by (by rewrite <- (tiers_perm _ _ _ _ H)).
  rewrite (loss_of_tiers_in 0 i ts t) by done. f_equal. simpl.
  set (gs := groupby preference (sorted_reverse preference preferences)) in *.
  assert (StronglySorted (fun x y => y < x) (map fst gs)) as Hdesc.
  { apply (StronglySorted_map_keys (fun x y => y < x)).
    apply groupby_descending, sorted_reverse_descending. }
  assert (map fst gs !! i = Some (preference a)) as Hki.
  { change (map fst gs) with (fst <$> gs).
    by rewrite list_lookup_fmap, Hi, <- Hkg. }
  rewrite <- (descending_filter_length _ _ _ Hdesc Hki).
  apply Permutation_length. apply NoDup_Permutation.
  - apply NoDup_filter. by apply descending_NoDup.
  - apply NoDup_remove_dups.
  - intros s. rewrite elem_of_remove_dups, !list_elem_of_filter.
    unfold gs. rewrite groupby_keys_elems.
    change (map preference ?l) with (preference <$> l).
    by rewrite <- (sorted_reverse_perm preference preferences).
Qed.

(** X7. For a player with one preference row per table, the loss of a
    table is the number of distinct scores among the player's rows that
    are strictly higher than the table's score: tables with the best
    score have loss 0, equal scores give equal losses. *)
Theorem loss_counts_the_better_scores (preferences : list SessionPreference)
  (ts : tiers) (g g' : rng) (a : SessionPreference) :
  NoDup (map table_allocation_id preferences) ->
  _order_preferences_for_player preferences g = Ok (ts, g') ->
  a ∈ preferences ->
  loss_of_tiers 0 ts ∅ !! table_allocation_id a
  = Some (length (remove_dups
                    (filter (fun s => preference a < s)
                       (map preference preferences)))).
Proof. apply loss_formula. Qed.

Lemma loss_counts_the_better_scores_witness :
  loss_of_tiers 0 [[2]; [3; 1]; [4]] ∅ !! table_allocation_id (likes 7 4 0)
  = Some (length (remove_dups
                    (filter (fun s => preference (likes 7 4 0) < s)
                       (map preference example_preferences)))).
Proof.
  apply (loss_counts_the_better_scores example_preferences
           [[2]; [3; 1]; [4]] [0; 0; 1]%nat [] (likes 7 4 0)).
  - vm_compute. repeat constructor; set_solver.
  - vm_compute. reflexivity.
  - set_solver.
Defined.

Lemma loss_of_tiers_at_most_six (preferences : list SessionPreference)
  (ts : tiers) (g g' : rng) (t : Z) (k : nat) :
  NoDup (map table_allocation_id preferences) ->
  Forall (fun sp => preference sp ∈ [0; 1; 2; 3; 4; 5; 20]) preferences ->
  _order_preferences_for_player preferences g = Ok (ts, g') ->
  loss_of_tiers 0 ts ∅ !! t = Some k ->
  (k <= 6)%nat.
Proof.
  intros Hnd Hscores H Hk.
  assert (t ∈ concat ts) as Ht.
  { apply loss_sound in Hk as (tier & Htier & Hin).
    apply list_elem_of_In, in_concat. exists tier.
    split; apply list_elem_of_In; [|done].
    eapply list_elem_of_lookup_2; eauto. }
  rewrite <- (tiers_perm _ _ _ _ H) in Ht.
  change (map table_allocation_id ?l) with (table_allocation_id <$> l) in Ht.
  apply list_elem_of_fmap in Ht as (a & -> & Ha).
  rewrite (loss_formula _ _ _ _ a Hnd H Ha) in Hk. inversion Hk; subst k.
  set (better := remove_dups _).
  assert (NoDup (preference a :: better)) as Hnd7.
  { apply NoDup_cons. split; [|apply NoDup_remove_dups].
    unfold better. rewrite elem_of_remove_dups, list_elem_of_filter. lia. }
  assert (preference a :: better ⊆ [0; 1; 2; 3; 4; 5; 20]) as Hsub.
  { rewrite Forall_forall in Hscores. intros s Hs.
    apply elem_of_cons in Hs as [->|Hs]; [by apply Hscores|].
    unfold better in Hs.
    rewrite elem_of_remove_dups, list_elem_of_filter in Hs.
    destruct Hs as [_ Hs].
    change (map preference ?l) with (preference <$> l) in Hs.
    apply list_elem_of_fmap in Hs as (sp & -> & Hsp). by apply Hscores. }
  pose proof (submseteq_length _ _ (NoDup_submseteq _ _ Hnd7 Hsub)) as Hlen.
  simpl in Hlen. lia.
Qed.

(** X8. The type comment "0 is BEST, 6 is WORST" holds: when every score
    of a player is one of 0, 1, 2, 3, 4, 5 and 20 (one row per table), no
    table gets a loss above 6. *)
Theorem loss_is_at_most_six (preferences : list SessionPreference)
  (ts : tiers) (g g' : rng) (t : Z) (k : nat) :
  NoDup (map table_allocation_id preferences) ->
  Forall (fun sp => preference sp ∈ [0; 1; 2; 3; 4; 5; 20]) preferences ->
  _order_preferences_for_player preferences g = Ok (ts, g') ->
  loss_of_tiers 0 ts ∅ !! t = Some k ->
  (k <= 6)%nat.
Proof. apply loss_of_tiers_at_most_six. Qed.

Lemma loss_is_at_most_six_witness :
  _order_preferences_for_player example_preferences [0; 0; 1]%nat
  = Ok ([[2]; [3; 1]; [4]], [])
  /\ loss_of_tiers 0 [[2]; [3; 1]; [4]] ∅ !! 4 = Some 2%nat
  /\ (2 <= 6)%nat.
Proof.
  split; [vm_compute; reflexivity|]. split; [vm_compute; reflexivity|].
  apply (loss_is_at_most_six example_preferences [[2]; [3; 1]; [4]]
           [0; 0; 1]%nat [] 4 2%nat).
  - vm_compute. repeat constructor; set_solver.
  - repeat constructor; set_solver.
  - vm_compute. reflexivity.
  - vm_compute. reflexivity.
Defined.

(** X9. The tiers that [_order_preferences_for_player] builds partition
    the tables the player has rated: together they hold the table ids of
    the preference rows, each as often as it is rated, no tier is empty,
    and there is one tier for every distinct score. *)
Theorem tiers_partition_the_rated_tables
  (preferences : list SessionPreference) (ts : tiers) (g g' : rng) :
  _order_preferences_for_player preferences g = Ok (ts, g') ->
  Permutation (map table_allocation_id preferences) (concat ts)
  /\ Forall (fun tier => tier <> []) ts
  /\ length ts = length (remove_dups (map preference preferences)).
Proof.
  intros H. split; [by eapply tiers_perm|].
  unfold _order_preferences_for_player in H. ok_step H. ok_step H.
  apply sample_groups_perm in E.
  set (gs := groupby preference (sorted_reverse preference preferences)) in *.
  split.
  - pose proof (groupby_keys preference
                  (sorted_reverse preference preferences)) as Hkeys.
    fold gs in Hkeys. clear -E Hkeys.
    induction E as [|kg s gs' ss Hperm _ IH]; simpl; [constructor|].
    apply Forall_cons in Hkeys as [[Hne _] Hkeys].
    constructor; [|by apply IH].
    intros Hnil. apply map_eq_nil in Hnil. subst s.
    apply Permutation_nil_r in Hperm. done.
  - rewrite length_map, <- (Forall2_length _ _ _ E).
    rewrite <- (length_map fst gs).
    apply Permutation_length, NoDup_Permutation.
    + apply descending_NoDup.
      apply (StronglySorted_map_keys (fun x y => y < x)).
      apply groupby_descending, sorted_reverse_descending.
    + apply NoDup_remove_dups.
    + intros k. rewrite elem_of_remove_dups. unfold gs.
      rewrite groupby_keys_elems.
      change (map preference ?l) with (preference <$> l).
      by rewrite <- (sorted_reverse_perm preference preferences).
Qed.

Lemma tiers_partition_the_rated_tables_witness :
  Permutation (map table_allocation_id example_preferences)
    (concat [[2]; [3; 1]; [4]])
  /\ Forall (fun tier => tier <> []) [[2]; [3; 1]; [4]]
  /\ length [[2]; [3; 1]; [4]]
     = length (remove_dups (map preference example_preferences)).
Proof.
  apply (tiers_partition_the_rated_tables example_preferences
           [[2]; [3; 1]; [4]] [0; 0; 1]%nat []).
  vm_compute. reflexivity.
Defined.

(** ** Ties in the polite order *)

Lemma insert_by_stable {A : Type} (key : A -> Z) (x : A) (l : list A)
  (k : Z) :
  filter (fun y => key y = k) (insert_by (fun a b => key a <=? key b) x l)
  = if decide (key x = k) then x :: filter (fun y => key y = k) l
    else filter (fun y => key y = k) l.
Proof.
  induction l as [|y l IH]; simpl.
  - rewrite filter_cons. by destruct (decide (key x = k)).
  - destruct (key x <=? key y) eqn:C.
    + rewrite filter_cons. by destruct (decide (key x = k)).
    + apply Z.leb_gt in C. rewrite !filter_cons, IH.
      destruct (decide (key y = k)), (decide (key x = k)); try done. lia.
Qed.

Lemma sorted_stable {A : Type} (key : A -> Z) (l : list A) (k : Z) :
  filter (fun y => key y = k) (sorted key l) = filter (fun y => key y = k) l.
Proof.
  unfold sorted. induction l as [|a l IH]; simpl; [done|].
  rewrite insert_by_stable, filter_cons, IH. done.
Qed.

Lemma filter_decorated (tal : gmap Z TableAllocation) (cur : allocations)
  (ks : list (Z * Z)) (k : Z) :
  Forall (fun ak => missing_players tal cur (fst ak) = Ok (snd ak)) ks ->
  filter (fun t => free_seats tal cur t = Some k) (map fst ks)
  = map fst (filter (fun ak => snd ak = k) ks).
Proof.
  induction 1 as [|[a x] ks Ha _ IH]; simpl; [done|].
  rewrite !filter_cons, IH. simpl in *.
  unfold missing_players in Ha. unfold free_seats.
  destruct (tal !! a) as [t|]; [|discriminate]. simpl in Ha.
  destruct (cur !! a) as [l|]; [|discriminate]. simpl in Ha.
  inversion Ha; subst x.
  destruct (decide (maximum_players (game t) - len l = k)) as [Hk|Hk].
  - by rewrite decide_True by congruence.
  - by rewrite decide_False by congruence.
Qed.

(** X10. The sort of the polite pass is stable: among the tables of a
    tier that have the same number of free seats, the order of
    [ta_ids_sorted_by_missing_players] is the order of the tier itself,
    which [_order_preferences_for_player] has drawn at random. *)
Theorem polite_order_keeps_the_tier_order_among_ties
  (tal : gmap Z TableAllocation) (cur : allocations)
  (ids sorted_ids : list Z) (k : Z) :
  ta_ids_sorted_by_missing_players tal cur ids = Ok sorted_ids ->
  filter (fun t => free_seats tal cur t = Some k) sorted_ids
  = filter (fun t => free_seats tal cur t = Some k) ids.
Proof.
  unfold ta_ids_sorted_by_missing_players. intros H. ok_step H. ok_step H.
  apply decorate_spec in E as [Hids Hkeys]. rewrite <- Hids.
  rewrite !(filter_decorated tal cur _ k); [|done|].
  - by rewrite sorted_stable.
  - rewrite Forall_forall in Hkeys. apply Forall_forall. intros ak Hak.
    apply Hkeys. by rewrite (sorted_perm snd v).
Qed.

Lemma polite_order_keeps_the_tier_order_among_ties_witness :
  ta_ids_sorted_by_missing_players single_seats nobody_seated [2; 1]
  = Ok [2; 1]
  /\ filter (fun t => free_seats single_seats nobody_seated t = Some 1) [2; 1]
     = filter (fun t => free_seats single_seats nobody_seated t = Some 1)
         [2; 1].
Proof.
  split; [vm_compute; reflexivity|].
  apply (polite_order_keeps_the_tier_order_among_ties single_seats
           nobody_seated [2; 1] [2; 1] 1).
  vm_compute. reflexivity.
Defined.

(** ** Where the newcomer ends up *)

Section BestSeat.

Context (tal : gmap Z TableAllocation).
Context (opp : gmap Z tiers).
Context (lpt : gmap Z (gmap Z nat)).

Lemma polite_None_full (cur : allocations) (p : Z) (ids sorted_ids : list Z) :
  ta_ids_sorted_by_missing_players tal cur ids = Ok sorted_ids ->
  polite tal cur p sorted_ids = Ok None ->
  forall t, t ∈ ids -> full tal cur t.
Proof.
  intros Hs Hp t Ht. apply sorted_ids_perm in Hs. rewrite Hs in Ht.
  destruct (polite_None _ _ _ _ Hp t Ht) as (l & ta & Hl & Hta & Hle).
  by exists l, ta.
Qed.

Lemma placement_newcomer_seat (tsp : tiers) (cur cur' : allocations)
  (p : Z) :
  placement tal opp lpt tsp cur p cur' ->
  exists i tier ta, tsp !! i = Some tier /\ ta ∈ tier /\ seated cur' p ta.
Proof.
  intros [i tier ta l t Hi Hta Hl Ht Hlt
         |i tier ta others other k ts otier other_ta l t c
            Hi Hta Hothers Hother Hloss Hik Hts Hk Hota Hl Ht Hlt Hmove].
  - exists i, tier, ta. repeat split; try done.
    by destruct (append_seated cur ta p l Hl) as (_ & S & _).
  - exists i, tier, ta. repeat split; try done.
    unfold move_and_join in Hmove.
    ok_step Hmove. ok_step E. ok_step Hmove. ok_step Hmove. ok_step E1.
    ok_step Hmove. ok_step E2. ok_step Hmove.
    by destruct (append_seated _ ta p v2 E2) as (_ & S & _).
Qed.

Lemma walk_tiers_false_full (cur c : allocations) (p : Z) (n : nat)
  (rest : tiers) (g g' : rng) :
  walk_tiers tal opp lpt cur p n rest g = Ok ((c, false), g') ->
  forall t, t ∈ concat rest -> full tal cur t.
Proof.
  revert n g; induction rest as [|ids rest IH]; intros n g H t Ht;
    simpl in H, Ht.
  - by apply elem_of_nil in Ht.
  - ok_step H. ok_step E. ok_step H. ok_step E0.
    destruct v0 as [c0|]; [ok_step H; inversion H|].
    ok_step H. ok_step H.
    destruct v1 as [c1|]; [ok_step H; inversion H|].
    apply elem_of_app in Ht as [Ht|Ht].
    + by eapply polite_None_full.
    + by eapply IH.
Qed.

Lemma walk_tiers_true_best (cur c : allocations) (p : Z) (n : nat)
  (rest : tiers) (g g' : rng) :
  walk_tiers tal opp lpt cur p n rest g = Ok ((c, true), g') ->
  exists j tier ta,
    rest !! j = Some tier /\ ta ∈ tier /\ seated c p ta
    /\ forall j' tier', (j' < j)%nat -> rest !! j' = Some tier' ->
         forall t, t ∈ tier' -> full tal cur t.
Proof.
  revert n g; induction rest as [|ids rest IH]; intros n g H; simpl in H.
  - ok_step H. inversion H.
  - ok_step H. ok_step E. ok_step H. ok_step E0.
    destruct v0 as [c0|].
    + ok_step H. inversion H; subst.
      apply polite_Some in E0 as (ta & l & t & Hin & Hl & Ht & Hlt & ->).
      apply sorted_ids_perm in E. rewrite <- E in Hin.
      exists 0%nat, ids, ta. repeat split; try done.
      * by destruct (append_seated cur ta p l Hl) as (_ & S & _).
      * intros j' tier' Hj'. lia.
    + ok_step H. ok_step H. destruct v1 as [c1|].
      * ok_step H. inversion H; subst.
        assert (placement tal opp lpt (replicate n [] ++ [ids]) cur p c1)
          as Hp.
        { eapply (try_move_Some tal opp lpt _ cur c1 p n ids v0); eauto.
          - rewrite lookup_app_r by (rewrite length_replicate; lia).
            rewrite length_replicate, Nat.sub_diag. done.
          - intros ta Hta. by rewrite <- (random_sample_In _ _ _ _ ta E1). }
        apply placement_newcomer_seat in Hp as (i & tier & ta & Hi & Hta & Hs).
        exists 0%nat, ids, ta. repeat split; try done.
        -- apply lookup_app_Some in Hi as [Hi|[_ Hi]].
           ++ apply lookup_replicate in Hi as [-> _].
              by apply elem_of_nil in Hta.
           ++ rewrite length_replicate in Hi.
              destruct (i - n)%nat; simpl in Hi; [|done].
              by inversion Hi; subst.
        -- intros j' tier' Hj'. lia.
      * destruct (IH _ _ H) as (j & tier & ta & Hj & Hta & Hs & Hfull).
        exists (S j), tier, ta. repeat split; try done.
        intros j' tier' Hlt Hj' t Ht. destruct j' as [|j'].
        -- simpl in Hj'. inversion Hj'; subst.
           by eapply polite_None_full.
        -- simpl in Hj'. eapply (Hfull j'); eauto. lia.
Qed.

End BestSeat.

(** X11. [initial_allocate] reports failure only when every table in the
    player's tiers, that is every table the player has a preference row
    for, is full; and then it returns the allocation unchanged. *)
Theorem initial_allocate_fails_only_when_all_rated_tables_are_full
  (tal : gmap Z TableAllocation) (opp : gmap Z tiers)
  (lpt : gmap Z (gmap Z nat)) (cur c : allocations) (p : Z) (g g' : rng) :
  initial_allocate tal opp lpt cur p g = Ok ((c, false), g') ->
  c = cur
  /\ exists tsp, opp !! p = Some tsp
                 /\ forall t, t ∈ concat tsp -> full tal cur t.
Proof.
  intros H. split; [by eapply initial_allocate_false|].
  unfold initial_allocate in H. ok_step H. ok_step E. ok_step E.
  exists v. split; [done|]. by eapply walk_tiers_false_full.
Qed.

Lemma initial_allocate_fails_only_when_all_rated_tables_are_full_witness :
  first_come = first_come
  /\ exists tsp, picky_ordered !! 101 = Some tsp
                 /\ forall t, t ∈ concat tsp -> full single_seats first_come t.
Proof.
  apply (initial_allocate_fails_only_when_all_rated_tables_are_full
           single_seats picky_ordered
           (loss_by_player_and_table picky_ordered)
           first_come first_come 101 [] []).
  vm_compute. reflexivity.
Defined.

(** X12. A successful [initial_allocate] seats the newcomer at a table of
    one of its tiers, and only when every table of every better tier is
    full: a player is never given a worse tier while a table of a better
    tier has a free seat. *)
Theorem initial_allocate_seats_at_the_best_open_tier
  (tal : gmap Z TableAllocation) (opp : gmap Z tiers)
  (lpt : gmap Z (gmap Z nat)) (cur c : allocations) (p : Z) (g g' : rng) :
  initial_allocate tal opp lpt cur p g = Ok ((c, true), g') ->
  exists tsp i tier ta,
    opp !! p = Some tsp /\ tsp !! i = Some tier /\ ta ∈ tier
    /\ seated c p ta
    /\ forall j tier', (j < i)%nat -> tsp !! j = Some tier' ->
         forall t, t ∈ tier' -> full tal cur t.
Proof.
  intros H. unfold initial_allocate in H. ok_step H. ok_step E. ok_step E.
  apply walk_tiers_true_best in H as (i & tier & ta & Hi & Hta & Hs & Hfull).
  exists v, i, tier, ta. done.
Qed.

Lemma initial_allocate_seats_at_the_best_open_tier_witness :
  exists tsp i tier ta,
    single_seats_ordered !! 102 = Some tsp /\ tsp !! i = Some tier
    /\ ta ∈ tier /\ seated both_seated 102 ta
    /\ forall j tier', (j < i)%nat -> tsp !! j = Some tier' ->
         forall t, t ∈ tier' -> full single_seats one_seated t.
Proof.
  apply (initial_allocate_seats_at_the_best_open_tier single_seats
           single_seats_ordered
           (loss_by_player_and_table single_seats_ordered)
           one_seated both_seated 102 [] []).
  vm_compute. reflexivity.
Defined.

(** X13. A successful [initial_allocate] seats the newcomer at a table
    [ta] of its tier [i] and moves at most one other player: either
    everybody keeps their seat, or exactly one incumbent of [ta] is sent
    to another table, and then that incumbent's own loss at [ta] is at
    least [i]; a player who likes the table better than the newcomer is
    never bumped. *)
Theorem initial_allocate_bumps_at_most_one_incumbent
  (tal : gmap Z TableAllocation) (opp : gmap Z tiers)
  (lpt : gmap Z (gmap Z nat)) (cur c : allocations) (p : Z) (g g' : rng) :
  initial_allocate tal opp lpt cur p g = Ok ((c, true), g') ->
  exists tsp i tier ta,
    opp !! p = Some tsp /\ tsp !! i = Some tier /\ ta ∈ tier
    /\ seated c p ta
    /\ ((forall q t, seated cur q t -> seated c q t)
        \/ exists other k other_ta,
             seated cur other ta /\ loss_at lpt other ta = Some k
             /\ (i <= k)%nat /\ seated c other other_ta
             /\ forall q t, seated cur q t ->
                  seated c q t \/ (q = other /\ t = ta)).
Proof.
  intros H. apply initial_allocate_true in H as (tsp & Htsp & Hp).
  exists tsp.
  destruct Hp as [i tier ta l t Hi Hta Hl Ht Hlt
                 |i tier ta others other k ts otier other_ta l t c
                    Hi Hta Hothers Hother Hloss Hik Hts Hk Hota Hl Ht Hlt
                    Hmove].
  - exists i, tier, ta.
    destruct (append_seated cur ta p l Hl) as (Hkeep & Hnew & _).
    repeat split; try done. by left.
  - exists i, tier, ta.
    destruct (move_and_join_seated _ _ _ _ _ _ Hmove)
      as (Hkeep & Hmoved & _).
    assert (seated c p ta) as Hnew.
    { unfold move_and_join in Hmove.
      ok_step Hmove. ok_step E. ok_step Hmove. ok_step Hmove. ok_step E1.
      ok_step Hmove. ok_step E2. ok_step Hmove.
      by destruct (append_seated _ ta p v2 E2) as (_ & S & _). }
    repeat split; try done. right. exists other, k, other_ta.
    repeat split; try done. by exists others.
Qed.

Lemma initial_allocate_bumps_at_most_one_incumbent_witness :
  exists tsp i tier ta,
    single_seats_ordered !! 102 = Some tsp /\ tsp !! i = Some tier
    /\ ta ∈ tier /\ seated both_seated 102 ta
    /\ ((forall q t, seated one_seated q t -> seated both_seated q t)
        \/ exists other k other_ta,
             seated one_seated other ta
             /\ loss_at (loss_by_player_and_table single_seats_ordered)
                  other ta = Some k
             /\ (i <= k)%nat /\ seated both_seated other other_ta
             /\ forall q t, seated one_seated q t ->
                  seated both_seated q t \/ (q = other /\ t = ta)).
Proof.
  apply (initial_allocate_bumps_at_most_one_incumbent single_seats
           single_seats_ordered
           (loss_by_player_and_table single_seats_ordered)
           one_seated both_seated 102 [] []).
  vm_compute. reflexivity.
Defined.

(** ** What a repair takes from the other tables *)

Lemma selected_from_app (d : Z) (a b : list (Z * Z)) :
  selected_from d (a ++ b) = selected_from d a + selected_from d b.
Proof.
  unfold selected_from, len. rewrite filter_app, length_app. lia.
Qed.

Lemma selected_from_none (d : Z) (moves : list (Z * Z)) :
  selected_from d moves = 0 -> Forall (fun c => fst c <> d) moves.
Proof.
  unfold selected_from, len. induction moves as [|[d0 h] moves IH];
    intros H; [constructor|].
  rewrite filter_cons in H. simpl in H.
  destruct (decide (d0 =? d)) as [Hd|Hd].
  - simpl in H. lia.
  - constructor; [|by apply IH]. simpl. intros ->.
    apply Hd. by rewrite Z.eqb_refl.
Qed.

Lemma selected_from_nonneg (d : Z) (moves : list (Z * Z)) :
  0 <= selected_from d moves.
Proof. unfold selected_from, len. lia. Qed.

Section DonorGuard.

Context (tal : gmap Z TableAllocation).

(** What is selected from a table so far leaves it at or above its
    sweet spot. *)
Let guarded (cur : allocations) (selected : list (Z * Z)) : Prop :=
  forall d l t, cur !! d = Some l -> tal !! d = Some t ->
    0 < selected_from d selected ->
    optimal_players (game t) <= len l - selected_from d selected.

Lemma select_players_guarded (cur : allocations) (sweet : Z)
  (selected cands r : list (Z * Z)) :
  guarded cur selected ->
  select_players tal cur sweet selected cands = Ok r -> guarded cur r.
Proof.
  revert selected; induction cands as [|[d0 h] cands IH];
    intros selected Hg H; simpl in H.
  - by ok_step H.
  - ok_step H. ok_step E. ok_step H. ok_step E0.
    destruct (_ <=? _) eqn:C; [by eapply IH|]. apply Z.leb_gt in C.
    assert (guarded cur (selected ++ [(d0, h)])) as Hg'.
    { intros d l t Hl Ht Hpos. rewrite selected_from_app in *.
      unfold selected_from at 2. unfold selected_from at 2 in Hpos.
      rewrite filter_cons in *. simpl in *.
      destruct (decide (d0 =? d)) as [Hd|Hd].
      - apply Is_true_true in Hd. apply Z.eqb_eq in Hd. subst d0.
        rewrite Hl in E. rewrite Ht in E0.
        inversion E; inversion E0; subst. unfold len in *. simpl. lia.
      - unfold len in *. simpl in *.
        specialize (Hg d l t Hl Ht). unfold len in Hg. lia. }
    destruct (_ =? sweet); [by ok_step H | by eapply IH].
Qed.

Lemma apply_moves_len (cur cur' : allocations) (ta : Z)
  (moves : list (Z * Z)) (t : Z) (l : list Z) :
  t <> ta -> cur !! t = Some l ->
  apply_moves cur ta moves = Ok cur' ->
  exists l', cur' !! t = Some l'
             /\ len l' = len l - selected_from t moves.
Proof.
  intros Hne. revert cur l; induction moves as [|[d0 h] moves IH];
    intros cur l Hl H; simpl in H.
  - ok_step H. exists l. split; [done|]. unfold selected_from, len. simpl.
    lia.
  - ok_step H. ok_step E. ok_step H. ok_step H. ok_step E1.
    change ((d0, h) :: moves) with ([(d0, h)] ++ moves).
    rewrite selected_from_app. unfold selected_from at 1.
    rewrite filter_cons. simpl.
    destruct (decide (d0 =? t)) as [Hd|Hd].
    + apply Is_true_true in Hd. apply Z.eqb_eq in Hd. subst d0.
      rewrite Hl in E. inversion E; subst v.
      destruct (IH (<[ta := v1 ++ [h]]> (<[t := v0]> cur)) v0)
        as (l' & Hl' & Hlen); [|done|].
      { rewrite lookup_insert_ne by done. by rewrite lookup_insert_eq. }
      exists l'. split; [done|].
      apply py_remove_len in E0. unfold len in *. simpl. lia.
    + assert (d0 <> t) as Hdt.
      { intros ->. apply Hd. by rewrite Z.eqb_refl. }
      destruct (IH (<[ta := v1 ++ [h]]> (<[d0 := v0]> cur)) l)
        as (l' & Hl' & Hlen); [|done|].
      { rewrite lookup_insert_ne by done. by rewrite lookup_insert_ne. }
      exists l'. split; [done|]. unfold len in *. simpl. lia.
Qed.

Context (opp : gmap Z tiers).
Context (lpt : gmap Z (gmap Z nat)).

Lemma try_make_up_numbers_donor_guard (cur cur' : allocations) (ta : Z)
  (donors : list Z) (g g' : rng) (d : Z) (l : list Z)
  (t : TableAllocation) :
  try_make_up_numbers tal opp lpt cur ta donors g = Ok ((cur', true), g') ->
  d <> ta -> cur !! d = Some l -> tal !! d = Some t ->
  exists l', cur' !! d = Some l'
    /\ (l' = l \/ optimal_players (game t) <= len l' < len l)
    /\ (d ∉ donors -> l' = l).
Proof.
  intros H Hne Hl Ht.
  apply try_make_up_numbers_true in H
    as (t0 & l0 & cands & shuffled & selected & _ & _ & Hscan & Hperm
        & Hsel & _ & Happly).
  destruct (apply_moves_len cur cur' ta selected d l Hne Hl Happly)
    as (l' & Hl' & Hlen).
  exists l'. split; [done|].
  pose proof (selected_from_nonneg d selected) as Hk.
  destruct (decide (selected_from d selected = 0)) as [Hz|Hnz].
  - assert (l' = l) as ->.
    { apply selected_from_none in Hz.
      rewrite (apply_moves_untouched cur cur' ta d selected Hne Hz Happly)
        in Hl'. congruence. }
    split; [by left | done].
  - assert (guarded cur selected) as Hg.
    { eapply select_players_guarded; [|exact Hsel].
      intros d1 l1 t1 _ _ Hpos. unfold selected_from, len in Hpos.
      simpl in Hpos. lia. }
    specialize (Hg d l t Hl Ht). split; [right; lia|].
    intros Hnd. exfalso.
    apply scan_tables_donors in Hscan.
    apply select_players_incl in Hsel as (extra & -> & Hsub). simpl in *.
    assert (exists c, c ∈ extra /\ fst c = d) as (c & Hc & Hfst).
    { clear -Hnz. unfold selected_from, len in Hnz.
      induction extra as [|[d0 h] extra IH]; [done|].
      rewrite filter_cons in Hnz. simpl in Hnz.
      destruct (decide (d0 =? d)) as [Hd|Hd].
      - apply Is_true_true in Hd. apply Z.eqb_eq in Hd.
        exists (d0, h). split; [by left | done].
      - destruct (IH Hnz) as (c & Hc & Hfst). exists c.
        split; [by right | done]. }
    rewrite Forall_forall in Hscan. apply Hnd. rewrite <- Hfst.
    apply Hscan. rewrite Hperm. by apply Hsub.
Qed.

End DonorGuard.

(** X14. A successful [try_make_up_numbers] leaves every table other than
    the target either exactly as it was or, if it gave players away, with
    at least its optimal number of players; a table that is not in the
    list of donors is always left as it was. *)
Theorem try_make_up_numbers_never_drains_a_donor
  (tal : gmap Z TableAllocation) (opp : gmap Z tiers)
  (lpt : gmap Z (gmap Z nat)) (cur cur' : allocations) (ta : Z)
  (donors : list Z) (g g' : rng) :
  try_make_up_numbers tal opp lpt cur ta donors g = Ok ((cur', true), g') ->
  forall d l t, d <> ta -> cur !! d = Some l -> tal !! d = Some t ->
    exists l', cur' !! d = Some l'
      /\ (l' = l \/ optimal_players (game t) <= len l' < len l)
      /\ (d ∉ donors -> l' = l).
Proof.
  intros H d l t Hne Hl Ht.
  by eapply try_make_up_numbers_donor_guard.
Qed.

Lemma try_make_up_numbers_never_drains_a_donor_witness :
  exists l', two_moved !! 1 = Some l'
    /\ (l' = [11; 12; 13; 14] \/ 2 <= len l' < len [11; 12; 13; 14])
    /\ (1 ∉ [1] -> l' = [11; 12; 13; 14]).
Proof.
  apply (try_make_up_numbers_never_drains_a_donor donor_and_empty
           four_friends_ordered
           (loss_by_player_and_table four_friends_ordered)
           all_at_donor two_moved 2 [1] [] []
           ltac:(vm_compute; reflexivity) 1 [11; 12; 13; 14]
           (table 1 (seats 2 2 4) [])).
  - lia.
  - vm_compute. reflexivity.
  - vm_compute. reflexivity.
Defined.

(** ** After the repair pass every table has its minimum *)

Section MeetsMinimum.

Context (P : prepared).
Hypothesis contract : input_contract (tables P).
Hypothesis lookup_built :
  lookup_table P = table_allocation_lookup (tables P).

(** Every table that is not waiting for a repair has its minimum. *)
Let satisfied (cur : allocations) (targets : list Z) : Prop :=
  forall ta, ta ∈ tables P -> id_of ta ∉ targets ->
    exists l, cur !! id_of ta = Some l /\ minimum_players (game ta) <= len l.

Lemma make_up_all_meets_minimum (cur cur' : allocations)
  (targets : list Z) (g g' : rng) :
  NoDup targets ->
  (forall t, t ∈ targets ->
     exists ta l, ta ∈ tables P /\ id_of ta = t /\ cur !! t = Some l
                  /\ len l < minimum_players (game ta)) ->
  satisfied cur targets ->
  make_up_all P cur targets g = Ok (cur', g') ->
  satisfied cur' [].
Proof.
  destruct contract as [Hids Hcap]. rewrite Forall_forall in Hcap.
  revert cur g; induction targets as [|a rest IH];
    intros cur g Hnd Hpend Hsat H; simpl in H.
  - by ok_step H.
  - apply NoDup_cons in Hnd as [Ha Hnd].
    ok_step H. ok_step E. ok_step H. destruct v0 as [c ok]. simpl in H.
    destruct ok; [|done].
    destruct (Hpend a) as (ta & l & Hta & <- & Hl & Hunder); [by left|].
    apply (IH c g0); try done.
    + eapply (repair_leaves_pending P contract); eauto.
      intros t Ht. apply Hpend. by right.
    + rewrite lookup_built in E0. intros x Hx Hrest.
      destruct (decide (id_of x = id_of ta)) as [Heq|Hne].
      * assert (x = ta) as -> by (by apply (same_id_same_table (tables P))).
        destruct (Hcap ta Hta) as (_ & Hmo & _).
        pose proof (table_allocation_lookup_complete _ Hids ta Hta) as Htal.
        destruct (repair_target_gain _ _ _ _ _ _ _ _ _ _ _ Htal Hl Hunder
                    Hmo E0) as (moved & Hl' & Hlo & _).
        exists (l ++ moved). split; [done|].
        unfold len in *. rewrite length_app. lia.
      * destruct (Hsat x Hx) as (lx & Hlx & Hmin).
        { intros Hin. apply elem_of_cons in Hin as [Hin|Hin]; done. }
        pose proof (table_allocation_lookup_complete _ Hids x Hx) as Htal.
        destruct (try_make_up_numbers_donor_guard _ _ _ _ _ _ _ _ _ _ _ _
                    E0 Hne Hlx Htal) as (lx' & Hlx' & [->|Hopt] & _).
        -- by exists lx.
        -- exists lx'. split; [done|].
           destruct (Hcap x Hx) as (_ & Hmo & _). lia.
Qed.

Lemma repair_trial_meets_minimum (placed repaired : allocations)
  (g g' : rng) :
  repair_trial P placed g = Ok (repaired, g') ->
  forall ta, ta ∈ tables P ->
    exists l, repaired !! id_of ta = Some l
              /\ minimum_players (game ta) <= len l.
Proof.
  unfold repair_trial. intros H. ok_step H. ok_step E.
  destruct (tables_where_spec _ _ _ _ E) as (Hiff & Hall & Hsub).
  intros ta Hta.
  eapply (make_up_all_meets_minimum placed repaired v g g'); try done.
  - eapply sublist_NoDup; [|exact Hsub]. by destruct contract.
  - intros t Ht. apply Hiff in Ht as (ta' & l & Hta' & Hid & Hl & Htest).
    exists ta', l. repeat split; try done.
    unfold too_few in Htest. by apply Z.ltb_lt in Htest.
  - intros x Hx Hout. destruct (Hall x Hx) as (l & Hl & Htest).
    exists l. split; [done|].
    destruct (too_few (len l) (game x)) eqn:C; [by destruct Hout; auto|].
    unfold too_few in C. by apply Z.ltb_ge in C.
  - apply not_elem_of_nil.
Qed.

Lemma trial_between_minimum_and_maximum (r : allocations * nat)
  (g g' : rng) :
  trial P g = Ok (r, g') ->
  forall ta, ta ∈ tables P ->
    exists l, fst r !! id_of ta = Some l
              /\ minimum_players (game ta) <= len l
                 <= maximum_players (game ta).
Proof.
  intros H ta Hta.
  pose proof (trial_within_capacity P contract lookup_built r g g' H ta Hta)
    as (l & Hl & Hmax).
  unfold trial in H. ok_step H. ok_step H. ok_step H. ok_step H.
  simpl in *.
  destruct (repair_trial_meets_minimum _ _ _ _ E0 ta Hta) as (l' & Hl' & Hmin).
  exists l. split; [done|]. rewrite Hl in Hl'. inversion Hl'; subst. lia.
Qed.

End MeetsMinimum.

(** X15. For table allocations with unique ids and capacities
    [1 <= min <= optimal <= max], every table of the allocation that
    [allocate] retains holds at least its minimum and at most its maximum
    number of players: the list of tables with too few players that the
    loop builds again after the repairs is empty whenever the run
    succeeds. *)
Theorem allocate_fills_every_table_between_minimum_and_maximum
  (all_table_allocations : list TableAllocation) (g g' : rng) (b : best) :
  input_contract all_table_allocations ->
  allocate all_table_allocations g = Ok (b, g') ->
  exists cur, best_allocations b = Some cur
    /\ (forall ta, ta ∈ all_table_allocations ->
          exists l, cur !! id_of ta = Some l
                    /\ minimum_players (game ta) <= len l
                       <= maximum_players (game ta))
    /\ tables_where too_few cur all_table_allocations = Ok [].
Proof.
  intros Hc H.
  apply allocate_best_is_a_trial in H
    as (P & g0 & cur & loss & g1 & g2 & HP & Hcur & _ & Ht).
  pose proof (prepare_fields _ _ _ _ HP) as (Htab & Hl & _).
  rewrite <- Htab in Hc, Hl. rewrite <- Htab.
  pose proof (trial_between_minimum_and_maximum P Hc Hl _ _ _ Ht) as Hall.
  simpl in Hall. exists cur. split; [done|]. split; [done|].
  clear -Hall. induction (tables P) as [|ta rest IH]; [done|].
  simpl. destruct (Hall ta) as (l & Hl & Hmin & _); [by left|].
  rewrite Hl. simpl. rewrite IH by (intros x Hx; apply Hall; by right).
  simpl. unfold too_few. destruct (_ <? _) eqn:C; [|done].
  apply Z.ltb_lt in C. lia.
Qed.

Lemma allocate_fills_every_table_between_minimum_and_maximum_witness :
  input_contract indifferent_tables
  /\ exists b g' cur,
      allocate indifferent_tables [0; 1]%nat = Ok (b, g')
      /\ best_allocations b = Some cur
      /\ (forall ta, ta ∈ indifferent_tables ->
            exists l, cur !! id_of ta = Some l
                      /\ minimum_players (game ta) <= len l
                         <= maximum_players (game ta))
      /\ tables_where too_few cur indifferent_tables = Ok [].
Proof.
  assert (input_contract indifferent_tables) as Hc.
  { split.
    - apply (bool_decide_unpack _). vm_compute. exact I.
    - repeat constructor; simpl; lia. }
  split; [exact Hc|].
  destruct (allocate indifferent_tables [0; 1]%nat) as [[b g']|e] eqn:Ea;
    [|vm_compute in Ea; discriminate].
  destruct (allocate_fills_every_table_between_minimum_and_maximum
              indifferent_tables [0; 1]%nat g' b Hc Ea) as (cur & H).
  exists b, g', cur. split; [reflexivity | exact H].
Defined.

(** ** The breakdowns *)

Section CountUp.

Context `{Countable K}.

Lemma counted_perm (l1 l2 : list (K * nat)) :
  Permutation l1 l2 -> counted l1 = counted l2.
Proof.
  induction 1 as [|x l1 l2 _ IH|x y l|l1 l2 l3 _ IH1 _ IH2]; simpl;
    [done|by rewrite IH|lia|by rewrite IH1].
Qed.

Lemma count_up_entries (k : K) (d : gmap K nat) :
  Permutation (map_to_list (count_up k d))
    ((k, (default 0 (d !! k) + 1))%nat :: map_to_list (delete k d)).
Proof.
  unfold count_up. rewrite <- (insert_delete_eq d).
  rewrite map_to_list_insert by apply lookup_delete_eq. done.
Qed.

Lemma entries_split (k : K) (d : gmap K nat) :
  counted (map_to_list d)
  = (default 0 (d !! k) + counted (map_to_list (delete k d)))%nat.
Proof.
  destruct (d !! k) as [c|] eqn:E.
  - by rewrite <- (counted_perm _ _ (map_to_list_delete d k c E)).
  - by rewrite delete_id.
Qed.

Lemma counted_count_up (k : K) (d : gmap K nat) :
  counted (map_to_list (count_up k d)) = S (counted (map_to_list d)).
Proof.
  rewrite (counted_perm _ _ (count_up_entries k d)), (entries_split k d).
  simpl. lia.
Qed.

Lemma counted_tally (ks : list K) (d : gmap K nat) :
  counted (map_to_list (tally ks d))
  = (counted (map_to_list d) + length ks)%nat.
Proof.
  unfold tally. revert d; induction ks as [|k ks IH]; intros d; simpl;
    [lia|]. rewrite IH, counted_count_up. lia.
Qed.

Lemma tally_lookup (ks : list K) (d : gmap K nat) (k : K) :
  default 0%nat (tally ks d !! k)
  = (default 0 (d !! k) + length (filter (fun x => x = k) ks))%nat.
Proof.
  unfold tally. revert d; induction ks as [|a ks IH]; intros d; simpl;
    [lia|]. rewrite IH. unfold count_up. rewrite filter_cons.
  destruct (decide (a = k)) as [->|Hne].
  - rewrite lookup_insert_eq. simpl. lia.
  - by rewrite lookup_insert_ne.
Qed.

Lemma tally_positive (ks : list K) (d : gmap K nat) :
  (forall k c, d !! k = Some c -> (0 < c)%nat) ->
  forall k c, tally ks d !! k = Some c -> (0 < c)%nat.
Proof.
  unfold tally. revert d; induction ks as [|a ks IH]; intros d Hd; simpl;
    [done|]. apply IH. intros k c. unfold count_up.
  destruct (decide (a = k)) as [->|Hne].
  - rewrite lookup_insert_eq. intros Hc; inversion Hc. lia.
  - rewrite lookup_insert_ne by done. apply Hd.
Qed.

Lemma tally_entry (ks : list K) (k : K) (c : nat) :
  tally ks ∅ !! k = Some c
  <-> (0 < c)%nat /\ c = length (filter (fun x => x = k) ks).
Proof.
  pose proof (tally_lookup ks ∅ k) as Hl. rewrite lookup_empty in Hl.
  simpl in Hl. split.
  - intros Hc. split.
    + eapply tally_positive; [|exact Hc]. intros k0 c0.
      by rewrite lookup_empty.
    + by rewrite Hc in Hl.
  - intros [Hpos ->]. destruct (tally ks ∅ !! k) as [c|]; simpl in Hl.
    + by rewrite Hl.
    + lia.
Qed.

End CountUp.

Lemma weighted_perm (l1 l2 : list (nat * nat)) :
  Permutation l1 l2 -> weighted l1 = weighted l2.
Proof.
  induction 1 as [|x l1 l2 _ IH|x y l|l1 l2 l3 _ IH1 _ IH2]; simpl;
    [done|by rewrite IH|lia|by rewrite IH1].
Qed.

Lemma weighted_count_up (k : nat) (d : gmap nat nat) :
  weighted (map_to_list (count_up k d)) = (k + weighted (map_to_list d))%nat.
Proof.
  rewrite (weighted_perm _ _ (count_up_entries k d)).
  destruct (d !! k) as [c|] eqn:E.
  - rewrite <- (weighted_perm _ _ (map_to_list_delete d k c E)).
    simpl. lia.
  - rewrite delete_id by done. simpl. lia.
Qed.

Lemma weighted_tally (ks : list nat) (d : gmap nat nat) :
  weighted (map_to_list (tally ks d))
  = (weighted (map_to_list d) + list_sum ks)%nat.
Proof.
  unfold tally. revert d; induction ks as [|k ks IH]; intros d; simpl;
    [lia|]. rewrite IH, weighted_count_up. lia.
Qed.

Lemma sum_losses_Ok (ls : list (option nat)) (n : nat) :
  sum_losses ls = Ok n -> exists ks, ls = map Some ks /\ n = list_sum ks.
Proof.
  revert n; induction ls as [|[x|] ls IH]; intros n H; simpl in H.
  - ok_step H. by exists [].
  - ok_step H. ok_step H. destruct (IH _ E) as (ks & -> & ->).
    by exists (x :: ks).
  - discriminate.
Qed.

Lemma tally_app `{Countable K} (ks1 ks2 : list K) (d : gmap K nat) :
  tally (ks1 ++ ks2) d = tally ks2 (tally ks1 d).
Proof. unfold tally. by rewrite foldl_app. Qed.

Lemma breakdown_of_players_tally (lpt : gmap Z (gmap Z nat)) (t : Z)
  (l : list Z) (ks : list nat) (b : gmap nat nat) :
  map (fun q => loss_at lpt q t) l = map Some ks ->
  breakdown_of_players lpt t l b = Ok (tally ks b).
Proof.
  revert ks b; induction l as [|q l IH]; intros [|k ks] b Hks;
    simpl in Hks; try discriminate; [done|].
  inversion Hks as [[Hq Hrest]]. simpl. unfold loss_at in Hq.
  destruct (lpt !! q) as [m|]; [|done]. simpl. rewrite Hq. simpl.
  by apply IH.
Qed.

Lemma map_Some_app {A : Type} (l1 l2 : list (option A)) (ks : list A) :
  l1 ++ l2 = map Some ks ->
  exists ks1 ks2, ks = ks1 ++ ks2 /\ l1 = map Some ks1 /\ l2 = map Some ks2.
Proof.
  revert ks; induction l1 as [|x l1 IH]; intros ks Hks; simpl in Hks.
  - by exists [], ks.
  - destruct ks as [|k ks]; [discriminate|]. inversion Hks as [[Hx Hrest]].
    destruct (IH _ Hrest) as (ks1 & ks2 & -> & -> & ->).
    by exists (k :: ks1), ks2.
Qed.

Lemma breakdown_of_items_tally (lpt : gmap Z (gmap Z nat))
  (items : list (Z * list Z)) (ks : list nat) (b : gmap nat nat) :
  flat_map (fun tl => map (fun q => loss_at lpt q (fst tl)) (snd tl)) items
  = map Some ks ->
  breakdown_of_items lpt items b = Ok (tally ks b).
Proof.
  revert ks b; induction items as [|[t l] items IH]; intros ks b Hks;
    simpl in Hks.
  - destruct ks; [done | discriminate].
  - apply map_Some_app in Hks as (ks1 & ks2 & -> & H1 & H2). simpl.
    rewrite (breakdown_of_players_tally lpt t l ks1 b H1). simpl.
    rewrite tally_app. by apply IH.
Qed.

Lemma occupants_seats (lpt : gmap Z (gmap Z nat)) (cur : allocations) :
  length (seat_losses lpt cur) = length (occupants cur).
Proof.
  unfold seat_losses, occupants.
  induction (map_to_list cur) as [|[t l] items IH]; simpl; [done|].
  by rewrite !length_app, length_map, IH.
Qed.

Lemma filter_Some_length {A : Type} `{EqDecision A} (ks : list A) (k : A) :
  length (filter (fun o => o = Some k) (map Some ks))
  = length (filter (fun x => x = k) ks).
Proof.
  induction ks as [|a ks IH]; simpl; [done|]. rewrite !filter_cons.
  destruct (decide (a = k)) as [->|Hne].
  - rewrite decide_True by done. simpl. by rewrite IH.
  - rewrite decide_False by congruence. done.
Qed.

(** X16. Whenever [evaluate_total_loss] succeeds on an allocation, so does
    [evaluate_loss_breakdown]; the breakdown has one entry for every loss
    that occurs, holding the number of seats with that loss; its counts
    add up to the number of seated players, and its entries weighted by
    their loss add up to the total loss. *)
Theorem loss_breakdown_adds_up_to_the_total_loss
  (lpt : gmap Z (gmap Z nat)) (cur : allocations) (n : nat) :
  evaluate_total_loss lpt cur = Ok n ->
  exists b, evaluate_loss_breakdown lpt cur = Ok b
    /\ weighted (map_to_list b) = n
    /\ counted (map_to_list b) = length (occupants cur)
    /\ forall k c, b !! k = Some c
         <-> (0 < c)%nat /\ c = seats_with_loss lpt cur k.
Proof.
  intros H. rewrite evaluate_total_loss_sum in H.
  apply sum_losses_Ok in H as (ks & Hks & ->).
  exists (tally ks ∅). split; [|split; [|split]].
  - unfold evaluate_loss_breakdown. by apply breakdown_of_items_tally.
  - rewrite weighted_tally, map_to_list_empty. done.
  - rewrite counted_tally, map_to_list_empty, <- (occupants_seats lpt), Hks.
    simpl. by rewrite length_map.
  - intros k c. unfold seats_with_loss. rewrite Hks, filter_Some_length.
    apply tally_entry.
Qed.

Lemma loss_breakdown_adds_up_to_the_total_loss_witness :
  exists b, evaluate_loss_breakdown
              (loss_by_player_and_table single_seats_ordered) second_choice
            = Ok b
    /\ weighted (map_to_list b) = 1%nat
    /\ counted (map_to_list b) = length (occupants second_choice)
    /\ forall k c, b !! k = Some c
         <-> (0 < c)%nat
             /\ c = seats_with_loss
                      (loss_by_player_and_table single_seats_ordered)
                      second_choice k.
Proof.
  apply (loss_breakdown_adds_up_to_the_total_loss
           (loss_by_player_and_table single_seats_ordered) second_choice
           1%nat).
  vm_compute. reflexivity.
Defined.

Lemma delta_of_items_tally (tal : gmap Z TableAllocation)
  (items : list (Z * list Z)) (d0 d : gmap Z nat) :
  delta_of_items tal items d0 = Ok d ->
  exists ks, map (delta_at tal) items = map Some ks /\ d = tally ks d0.
Proof.
  revert d0; induction items as [|[t l] items IH]; intros d0 H; simpl in H.
  - ok_step H. by exists [].
  - ok_step H. ok_step E. destruct (IH _ H) as (ks & Hks & ->).
    exists ((len l - optimal_players (game v)) :: ks). split; [|done].
    simpl. unfold delta_at at 1. simpl. by rewrite E, Hks.
Qed.

Lemma filter_delta_length (tal : gmap Z TableAllocation)
  (items : list (Z * list Z)) (ks : list Z) (delta : Z) :
  map (delta_at tal) items = map Some ks ->
  length (filter (fun tl => delta_at tal tl = Some delta) items)
  = length (filter (fun x => x = delta) ks).
Proof.
  revert ks; induction items as [|tl items IH]; intros [|k ks] Hks;
    simpl in Hks; try discriminate; [done|].
  inversion Hks as [[Hk Hrest]]. rewrite !filter_cons, Hk.
  destruct (decide (k = delta)) as [->|Hne].
  - rewrite decide_True by done. simpl. by rewrite (IH ks).
  - rewrite decide_False by congruence. by apply IH.
Qed.

Lemma StronglySorted_strict {A : Type} (key : A -> Z) (l : list A) :
  StronglySorted (fun x y => key x <= key y) l -> NoDup (map key l) ->
  StronglySorted (fun x y => key x < key y) l.
Proof.
  induction 1 as [|x l Hs IH Hx]; intros Hnd; [constructor|].
  simpl in Hnd. apply NoDup_cons in Hnd as [Hnot Hnd].
  constructor; [by apply IH|].
  rewrite Forall_forall in Hx. apply Forall_forall. intros y Hy.
  specialize (Hx y Hy).
  assert (key y <> key x); [|lia].
  intros Heq. apply Hnot. rewrite <- Heq.
  change (map key l) with (key <$> l). apply list_elem_of_fmap. eauto.
Qed.

(** X17. When [evaluate_delta_from_sweetspot_breakdown] returns, every
    table of the allocation is a known table, the entries are in strictly
    ascending order of the delta, there is one entry for every delta that
    occurs, holding the number of tables that are that far from their
    sweet spot, and the counts add up to the number of tables. *)
Theorem delta_breakdown_counts_every_table
  (tal : gmap Z TableAllocation) (cur : allocations) (r : list (Z * nat)) :
  evaluate_delta_from_sweetspot_breakdown tal cur = Ok r ->
  (forall t, is_Some (cur !! t) -> is_Some (tal !! t))
  /\ StronglySorted (fun x y => fst x < fst y) r
  /\ counted r = size cur
  /\ forall delta c, (delta, c) ∈ r
       <-> (0 < c)%nat /\ c = tables_with_delta tal cur delta.
Proof.
  unfold evaluate_delta_from_sweetspot_breakdown. intros H.
  ok_step H. ok_step H.
  apply delta_of_items_tally in E as (ks & Hks & ->).
  pose proof (sorted_perm fst (map_to_list (tally ks ∅))) as Hperm.
  split; [|split; [|split]].
  - intros t [l Hl]. apply elem_of_map_to_list in Hl.
    apply list_elem_of_lookup_1 in Hl as [i Hi].
    assert (delta_at tal (t, l) ∈ map Some ks) as Hin.
    { rewrite <- Hks. change (map (delta_at tal) (map_to_list cur))
        with (delta_at tal <$> map_to_list cur).
      apply list_elem_of_fmap. exists (t, l). split; [done|].
      by eapply list_elem_of_lookup_2. }
    change (map Some ks) with (Some <$> ks) in Hin.
    apply list_elem_of_fmap in Hin as (k & Hk & _).
    unfold delta_at in Hk. simpl in Hk. by destruct (tal !! t).
  - apply StronglySorted_strict; [apply sorted_ascending|].
    rewrite <- Hperm. apply NoDup_fst_map_to_list.
  - rewrite <- (counted_perm _ _ Hperm), counted_tally, map_to_list_empty.
    simpl. rewrite <- length_map_to_list.
    rewrite <- (length_map (delta_at tal)), Hks. by rewrite length_map.
  - intros delta c. rewrite <- Hperm, elem_of_map_to_list.
    unfold tables_with_delta. rewrite (filter_delta_length tal _ ks) by done.
    apply tally_entry.
Qed.

Lemma delta_breakdown_counts_every_table_witness :
  (forall t, is_Some (two_moved !! t) -> is_Some (donor_and_empty !! t))
  /\ StronglySorted (fun x y => fst x < fst y) [(-1, 1%nat); (0, 1%nat)]
  /\ counted [(-1, 1%nat); (0, 1%nat)] = size two_moved
  /\ forall delta c, (delta, c) ∈ [(-1, 1%nat); (0, 1%nat)]
       <-> (0 < c)%nat /\ c = tables_with_delta donor_and_empty two_moved delta.
Proof.
  apply (delta_breakdown_counts_every_table donor_and_empty two_moved).
  vm_compute. reflexivity.
Defined.

(** ** Which exceptions can leave [allocate] *)

Lemma rbind_Raise {A B : Type} (r : result A) (k : A -> result B) (e : exn) :
  rbind r k = Raise e -> r = Raise e \/ exists a, r = Ok a /\ k a = Raise e.
Proof.
  destruct r as [a|e']; simpl; intros H; [right; eauto|].
  inversion H. by left.
Qed.

Lemma bind_Raise {A B : Type} (m : M A) (k : A -> M B) (g : rng) (e : exn) :
  bind m k g = Raise e ->
  m g = Raise e \/ exists a g1, m g = Ok (a, g1) /\ k a g1 = Raise e.
Proof.
  unfold bind. destruct (m g) as [[a g1]|e']; intros H; [right; eauto|].
  inversion H. by left.
Qed.

Lemma lift_Raise {A : Type} (r : result A) (g : rng) (e : exn) :
  lift r g = Raise e -> r = Raise e.
Proof. unfold lift. destruct r; intros H; inversion H. done. Qed.

Lemma getitem_Raise {A : Type} (o : option A) (e : exn) :
  getitem o = Raise e -> lookup_failure e.
Proof. destruct o; simpl; intros H; inversion H. by left. Qed.

Lemma py_remove_Raise (x : Z) (l : list Z) (e : exn) :
  py_remove x l = Raise e -> lookup_failure e.
Proof.
  unfold py_remove. destruct (list_remove_first x l); intros H; inversion H.
  by right.
Qed.

Lemma random_sample_Raise {A : Type} (l : list A) (g : rng) (e : exn) :
  random_sample l g = Raise e -> lookup_failure e.
Proof.
  destruct (random_sample_total l g) as (r & g' & ->). discriminate.
Qed.

Create HintDb raises.
#[local] Hint Resolve getitem_Raise py_remove_Raise random_sample_Raise
  : raises.

(** Follows a raised exception back to the call it comes from. *)
Ltac trace_raise H :=
  cbv beta in H;
  lazymatch type of H with
  | rbind _ _ = Raise _ =>
      apply rbind_Raise in H; destruct H as [H|(? & _ & H)];
      [trace_raise H | trace_raise H]
  | bind _ _ _ = Raise _ =>
      apply bind_Raise in H; destruct H as [H|(? & ? & _ & H)];
      [trace_raise H | trace_raise H]
  | lift _ _ = Raise _ => apply lift_Raise in H; trace_raise H
  | ret _ _ = Raise _ => discriminate H
  | Ok _ = Raise _ => discriminate H
  | (if ?c then _ else _) = Raise _ => destruct c; trace_raise H
  | (if ?c then _ else _) _ = Raise _ => destruct c; trace_raise H
  | match ?x with Some _ => _ | None => _ end = Raise _ =>
      destruct x; trace_raise H
  | match ?x with Some _ => _ | None => _ end _ = Raise _ =>
      destruct x; trace_raise H
  | _ => eauto with raises
  end.

Section Raises.

Context (tal : gmap Z TableAllocation).
Context (opp : gmap Z tiers).
Context (lpt : gmap Z (gmap Z nat)).

Lemma decorate_Raise (cur : allocations) (ids : list Z) (e : exn) :
  decorate tal cur ids = Raise e -> lookup_failure e.
Proof.
  induction ids as [|a ids IH]; intros H; simpl in H; [discriminate|].
  unfold missing_players in H. trace_raise H.
Qed.

Lemma polite_Raise (cur : allocations) (p : Z) (ids : list Z) (e : exn) :
  polite tal cur p ids = Raise e -> lookup_failure e.
Proof.
  induction ids as [|a ids IH]; intros H; simpl in H; [discriminate|].
  trace_raise H.
Qed.

Lemma move_and_join_Raise (cur : allocations) (p ta other other_ta : Z)
  (e : exn) :
  move_and_join cur p ta other other_ta = Raise e -> lookup_failure e.
Proof. unfold move_and_join. intros H. trace_raise H. Qed.

Lemma try_other_tables_Raise (cur : allocations) (p ta other : Z)
  (ids : list Z) (e : exn) :
  try_other_tables tal cur p ta other ids = Raise e -> lookup_failure e.
Proof.
  induction ids as [|a ids IH]; intros H; simpl in H; [discriminate|].
  pose proof move_and_join_Raise. trace_raise H.
Qed.

Lemma try_other_players_Raise (cur : allocations) (p : Z) (n : nat) (ta : Z)
  (others : list Z) (g : rng) (e : exn) :
  try_other_players tal opp lpt cur p n ta others g = Raise e ->
  lookup_failure e.
Proof.
  revert g; induction others as [|a others IH]; intros g H; simpl in H;
    [discriminate|].
  pose proof try_other_tables_Raise. trace_raise H.
Qed.

Lemma try_move_Raise (cur : allocations) (p : Z) (n : nat) (ids : list Z)
  (g : rng) (e : exn) :
  try_move tal opp lpt cur p n ids g = Raise e -> lookup_failure e.
Proof.
  revert g; induction ids as [|a ids IH]; intros g H; simpl in H;
    [discriminate|].
  pose proof try_other_players_Raise. trace_raise H.
Qed.

Lemma walk_tiers_Raise (cur : allocations) (p : Z) (n : nat) (rest : tiers)
  (g : rng) (e : exn) :
  walk_tiers tal opp lpt cur p n rest g = Raise e -> lookup_failure e.
Proof.
  revert n g; induction rest as [|ids rest IH]; intros n g H; simpl in H;
    [discriminate|].
  pose proof decorate_Raise. pose proof polite_Raise.
  pose proof try_move_Raise.
  unfold ta_ids_sorted_by_missing_players in H. trace_raise H.
Qed.

Lemma initial_allocate_Raise (cur : allocations) (p : Z) (g : rng) (e : exn) :
  initial_allocate tal opp lpt cur p g = Raise e -> lookup_failure e.
Proof.
  unfold initial_allocate. intros H. pose proof walk_tiers_Raise.
  trace_raise H.
Qed.

Lemma scan_players_Raise (ta d : Z) (ps : list Z) (e : exn) :
  scan_players opp lpt ta d ps = Raise e -> lookup_failure e.
Proof.
  induction ps as [|a ps IH]; intros H; simpl in H; [discriminate|].
  trace_raise H.
Qed.

Lemma scan_tables_Raise (cur : allocations) (ta : Z) (donors : list Z)
  (e : exn) :
  scan_tables opp lpt cur ta donors = Raise e -> lookup_failure e.
Proof.
  induction donors as [|a donors IH]; intros H; simpl in H; [discriminate|].
  pose proof scan_players_Raise. trace_raise H.
Qed.

Lemma select_players_Raise (cur : allocations) (sweet : Z)
  (selected cands : list (Z * Z)) (e : exn) :
  select_players tal cur sweet selected cands = Raise e ->
  lookup_failure e.
Proof.
  revert selected; induction cands as [|[d h] cands IH]; intros selected H;
    simpl in H; [discriminate|].
  trace_raise H.
Qed.

Lemma apply_moves_Raise (cur : allocations) (ta : Z) (moves : list (Z * Z))
  (e : exn) :
  apply_moves cur ta moves = Raise e -> lookup_failure e.
Proof.
  revert cur; induction moves as [|[d h] moves IH]; intros cur H;
    simpl in H; [discriminate|].
  trace_raise H.
Qed.

Lemma try_make_up_numbers_Raise (cur : allocations) (ta : Z)
  (donors : list Z) (g : rng) (e : exn) :
  try_make_up_numbers tal opp lpt cur ta donors g = Raise e ->
  lookup_failure e.
Proof.
  unfold try_make_up_numbers. intros H.
  pose proof scan_tables_Raise. pose proof select_players_Raise.
  pose proof apply_moves_Raise. trace_raise H.
Qed.

Lemma loss_of_players_Raise (t : Z) (ps : list Z) (e : exn) :
  loss_of_players lpt t ps = Raise e -> lookup_failure e.
Proof.
  induction ps as [|a ps IH]; intros H; simpl in H; [discriminate|].
  trace_raise H.
Qed.

Lemma evaluate_total_loss_Raise (cur : allocations) (e : exn) :
  evaluate_total_loss lpt cur = Raise e -> lookup_failure e.
Proof.
  unfold evaluate_total_loss.
  induction (map_to_list cur) as [|[t l] items IH]; intros H; simpl in H;
    [discriminate|].
  pose proof loss_of_players_Raise. trace_raise H.
Qed.

End Raises.

Lemma tables_where_Raise (test : Z -> Game -> bool) (cur : allocations)
  (tables : list TableAllocation) (e : exn) :
  tables_where test cur tables = Raise e -> lookup_failure e.
Proof.
  induction tables as [|ta tables IH]; intros H; simpl in H; [discriminate|].
  trace_raise H.
Qed.

Lemma none_too_many (tables : list TableAllocation) (cur : allocations) :
  within_capacity tables cur -> tables_where too_many cur tables = Ok [].
Proof.
  intros Hin. induction tables as [|ta rest IH]; [done|].
  simpl. destruct (Hin ta) as (l & Hl & Hmax); [by left|].
  rewrite Hl. simpl. rewrite IH by (intros x Hx; apply Hin; by right).
  simpl. unfold too_many. destruct (_ <? _) eqn:C; [|done].
  apply Z.ltb_lt in C. lia.
Qed.

Section TrialRaises.

Context (P : prepared).

(** A placement pass only gives up at a player that [initial_allocate]
    could not seat. *)
Lemma place_all_Raise (cur : allocations) (ps : list Z) (g : rng) (e : exn) :
  place_all P cur ps g = Raise e ->
  lookup_failure e
  \/ e = ValueError "Failed to allocate all players"
     /\ exists prefix p rest c g1 g2,
          ps = prefix ++ p :: rest
          /\ place_all P cur prefix g = Ok (c, g1)
          /\ initial_allocate (lookup_table P) (ordered P) (losses P) c p g1
             = Ok ((c, false), g2).
Proof.
  revert cur g; induction ps as [|p ps IH]; intros cur g H; simpl in H;
    [discriminate|].
  apply bind_Raise in H as [H|([c ok] & g1 & Hc & H)].
  - left. by eapply initial_allocate_Raise.
  - simpl in H. destruct ok.
    + destruct (IH _ _ H) as [Hl|(He & prefix & q & rest & c' & g2 & g3
                                  & -> & Hpre & Hq)]; [by left|].
      right. split; [done|].
      exists (p :: prefix), q, rest, c', g2, g3. repeat split; try done.
      simpl. unfold bind. by rewrite Hc.
    + right. inversion H. split; [done|].
      pose proof (initial_allocate_false _ _ _ _ _ _ _ _ Hc) as ->.
      by exists [], p, ps, cur, g, g1.
Qed.

Lemma make_up_all_Raise (cur : allocations) (targets : list Z) (g : rng)
  (e : exn) :
  make_up_all P cur targets g = Raise e ->
  lookup_failure e \/ e = ValueError "Failed to make up numbers".
Proof.
  revert cur g; induction targets as [|a targets IH]; intros cur g H;
    simpl in H; [discriminate|].
  apply bind_Raise in H as [H|(donors & g1 & _ & H)].
  { left. apply lift_Raise in H. by eapply tables_where_Raise. }
  apply bind_Raise in H as [H|([c ok] & g2 & _ & H)].
  { left. by eapply try_make_up_numbers_Raise. }
  simpl in H. destruct ok; [by eapply IH|].
  right. by inversion H.
Qed.

Hypothesis contract : input_contract (tables P).
Hypothesis lookup_built :
  lookup_table P = table_allocation_lookup (tables P).

Lemma place_trial_Raise (g : rng) (e : exn) :
  place_trial P g = Raise e ->
  lookup_failure e
  \/ e = ValueError "Failed to allocate all players"
     /\ exists ps g1, random_sample (players P) g = Ok (ps, g1)
          /\ place_all P (empty_allocations (tables P)) ps g1 = Raise e.
Proof.
  unfold place_trial. intros H.
  apply bind_Raise in H as [H|(ps & g1 & Hps & H)];
    [left; by eapply random_sample_Raise|].
  apply bind_Raise in H as [H|(c & g2 & Hc & H)].
  - destruct (place_all_Raise _ _ _ _ H) as [Hl|[He _]]; [by left|].
    right. split; [done|]. by exists ps, g1.
  - assert (within_capacity (tables P) c) as Hin.
    { eapply place_all_within_capacity; eauto.
      by apply empty_within_capacity. }
    unfold bind, lift in H. rewrite (none_too_many _ c Hin) in H.
    discriminate.
Qed.

Lemma trial_Raise (g : rng) (e : exn) :
  trial P g = Raise e ->
  lookup_failure e
  \/ e = ValueError "Failed to make up numbers"
  \/ e = ValueError "Failed to allocate all players"
     /\ exists ps g1, random_sample (players P) g = Ok (ps, g1)
          /\ place_all P (empty_allocations (tables P)) ps g1 = Raise e.
Proof.
  unfold trial. intros H.
  apply bind_Raise in H as [H|(placed & g1 & _ & H)].
  { destruct (place_trial_Raise _ _ H) as [Hl|Hp]; [by left|].
    right. by right. }
  apply bind_Raise in H as [H|(c & g2 & _ & H)].
  { unfold repair_trial in H.
    apply bind_Raise in H as [H|(targets & g3 & _ & H)].
    - left. apply lift_Raise in H. by eapply tables_where_Raise.
    - destruct (make_up_all_Raise _ _ _ _ H) as [Hl|He]; [by left|].
      right. by left. }
  apply bind_Raise in H as [H|(loss & g3 & _ & H)]; [|discriminate].
  left. apply lift_Raise in H. by eapply evaluate_total_loss_Raise.
Qed.

Lemma trials_Raise_from_a_trial (n : nat) (b : best) (g : rng) (e : exn) :
  trials P n b g = Raise e -> exists g1, trial P g1 = Raise e.
Proof.
  revert b g; induction n as [|n IH]; intros b g H; simpl in H;
    [discriminate|].
  apply bind_Raise in H as [H|(r & g1 & _ & H)]; [by exists g|].
  by eapply IH.
Qed.

End TrialRaises.

Lemma allocate_Raise_from_a_trial (tables : list TableAllocation) (g : rng)
  (e : exn) :
  allocate tables g = Raise e ->
  exists P g0 g1, prepare tables g = Ok (P, g0) /\ trial P g1 = Raise e.
Proof.
  unfold allocate. intros H.
  apply bind_Raise in H as [H|(P & g0 & HP & H)].
  - destruct (prepare_total tables g) as (P & g' & HP).
    rewrite HP in H. discriminate.
  - apply trials_Raise_from_a_trial in H as [g1 H]. by exists P, g0, g1.
Qed.

(** X18. For table allocations with unique ids and capacities
    [1 <= min <= optimal <= max], the [assert] after the placement pass
    never fails.  Whatever exception leaves [allocate] is a [KeyError], the
    [ValueError] of a [list.remove], or one of the two [ValueError]s that
    the loop over the trials raises itself. *)
Theorem allocate_never_fails_its_assertion
  (all_table_allocations : list TableAllocation) (g : rng) (e : exn) :
  input_contract all_table_allocations ->
  allocate all_table_allocations g = Raise e ->
  e <> AssertionError
  /\ (e = KeyError
      \/ e = ValueError "list.remove(x): x not in list"
      \/ e = ValueError "Failed to allocate all players"
      \/ e = ValueError "Failed to make up numbers").
Proof.
  intros Hc H.
  apply allocate_Raise_from_a_trial in H as (P & g0 & g1 & HP & H).
  pose proof (prepare_fields _ _ _ _ HP) as (Ht & Hl & _).
  rewrite <- Ht in Hc, Hl.
  destruct (trial_Raise P Hc Hl _ _ H) as [[->| ->]|[->|[-> _]]];
    (split; [discriminate|]); auto.
Qed.

Lemma allocate_never_fails_its_assertion_witness :
  input_contract picky_tables
  /\ allocate picky_tables []
     = Raise (ValueError "Failed to allocate all players")
  /\ ValueError "Failed to allocate all players" <> AssertionError
  /\ (ValueError "Failed to allocate all players" = KeyError
      \/ ValueError "Failed to allocate all players"
         = ValueError "list.remove(x): x not in list"
      \/ ValueError "Failed to allocate all players"
         = ValueError "Failed to allocate all players"
      \/ ValueError "Failed to allocate all players"
         = ValueError "Failed to make up numbers").
Proof.
  assert (input_contract picky_tables) as Hc.
  { split.
    - apply (bool_decide_unpack _). vm_compute. exact I.
    - repeat constructor; simpl; lia. }
  split; [exact Hc|]. split; [vm_compute; reflexivity|].
  apply (allocate_never_fails_its_assertion picky_tables [] _ Hc).
  vm_compute. reflexivity.
Defined.

(** ** Players who rated every table are always placed *)

Lemma initial_allocate_false_full
  (tal : gmap Z TableAllocation) (opp : gmap Z tiers)
  (lpt : gmap Z (gmap Z nat)) (cur c : allocations) (p : Z) (g g' : rng) :
  initial_allocate tal opp lpt cur p g = Ok ((c, false), g') ->
  exists tsp, opp !! p = Some tsp
              /\ forall t, t ∈ concat tsp -> full tal cur t.
Proof.
  intros H. unfold initial_allocate in H. ok_step H. ok_step E. ok_step E.
  exists v. split; [done|]. by eapply walk_tiers_false_full.
Qed.

Lemma seats_le_occupants (tables : list TableAllocation)
  (cur : allocations) :
  NoDup (map id_of tables) ->
  (forall ta, ta ∈ tables ->
     exists l, cur !! id_of ta = Some l /\ maximum_players (game ta) <= len l) ->
  total_seats tables <= len (occupants cur).
Proof.
  revert cur; induction tables as [|ta rest IH]; intros cur Hnd Hfull.
  - unfold total_seats, len. simpl. lia.
  - simpl in Hnd. apply NoDup_cons in Hnd as [Hnot Hnd].
    destruct (Hfull ta) as (l & Hl & Hmax); [by left|].
    unfold len. rewrite (occupants_delete cur _ l Hl), length_app.
    assert (total_seats rest <= len (occupants (delete (id_of ta) cur)))
      as Hrest.
    { apply IH; [done|]. intros x Hx.
      destruct (Hfull x) as (lx & Hlx & Hmx); [by right|].
      exists lx. split; [|done]. rewrite lookup_delete_ne; [done|].
      intros Heq. apply Hnot. rewrite Heq.
      change (map id_of rest) with (id_of <$> rest).
      apply list_elem_of_fmap. eauto. }
    unfold total_seats in *. simpl. unfold len in *. lia.
Qed.

Lemma rows_of_person_In (p : Z) (rows : list SessionPreference)
  (sp : SessionPreference) :
  sp ∈ rows -> person_id sp = p -> sp ∈ rows_of_person p rows.
Proof.
  intros Hin Hp. apply list_elem_of_In. unfold rows_of_person.
  apply List.filter_In. split; [by apply list_elem_of_In|].
  by apply Z.eqb_eq.
Qed.

Lemma all_rows_In (tables : list TableAllocation) (ta : TableAllocation)
  (sp : SessionPreference) :
  ta ∈ tables -> sp ∈ session_preferences ta -> sp ∈ all_rows tables.
Proof.
  intros Hta Hsp. apply list_elem_of_In. unfold all_rows.
  apply in_flat_map. exists ta. split; by apply list_elem_of_In.
Qed.

(** X19. Take table allocations with unique ids and capacities
    [1 <= min <= optimal <= max] whose preference rows carry the id of
    their table.  If every player who rated a table has rated all of them,
    and there are no more players than the sum of the maximum number of
    players for each game, then [initial_allocate] seats every player in
    every trial: [allocate] never raises "Failed to allocate all
    players". *)
Theorem players_who_rated_every_table_are_placed
  (all_table_allocations : list TableAllocation) (g : rng) (e : exn) :
  input_contract all_table_allocations ->
  rows_consistent all_table_allocations ->
  dense all_table_allocations ->
  len (all_preferences_by_player all_table_allocations)
  <= total_seats all_table_allocations ->
  allocate all_table_allocations g = Raise e ->
  e <> ValueError "Failed to allocate all players".
Proof.
  intros Hc Hrows Hdense Hseats H ->.
  apply allocate_Raise_from_a_trial in H as (P & g0 & g1 & HP & H).
  pose proof (prepare_fields _ _ _ _ HP) as (Ht & Hl & Hplayers & _).
  pose proof (players_of_prepare _ _ _ _ HP) as (_ & Hwho).
  subst all_table_allocations.
  destruct (trial_Raise P Hc Hl _ _ H)
    as [[He|He]|[He|(_ & ps & g2 & Hps & Hall)]]; try discriminate.
  destruct (place_all_Raise P _ _ _ _ Hall)
    as [[He|He]|(_ & prefix & p & rest & c & g3 & g4 & -> & Hpre & Hp)];
    try discriminate.
  (* the allocation just before the player who is turned away *)
  assert (within_capacity (tables P) c) as Hin.
  { eapply place_all_within_capacity; eauto.
    by apply empty_within_capacity. }
  pose proof (place_all_occupants P _ _ _ _ _ Hpre) as Hocc.
  rewrite (occupants_all_empty (empty_allocations (tables P))) in Hocc
    by apply empty_allocations_lookup.
  rewrite app_nil_r in Hocc.
  apply initial_allocate_false_full in Hp as (tsp & Htsp & Hfull).
  assert (p ∈ players P) as Hpin.
  { rewrite (random_sample_perm _ _ _ _ Hps). set_solver. }
  apply Hwho in Hpin as (ta0 & sp0 & Hta0 & Hsp0 & Hp0).
  assert (total_seats (tables P) <= len (occupants c)) as Hle.
  { apply seats_le_occupants; [by destruct Hc|]. intros ta Hta.
    destruct (Hdense ta0 sp0 ta Hta0 Hsp0 Hta) as (sp & Hsp & Hperson).
    destruct (Hfull (id_of ta)) as (l & t & Hl' & Ht' & Hmax).
    { rewrite <- (prepare_tiers _ _ _ _ _ _ HP Htsp).
      rewrite <- (Hrows ta sp Hta Hsp).
      change (map table_allocation_id ?l) with (table_allocation_id <$> l).
      apply list_elem_of_fmap. exists sp. split; [done|].
      apply rows_of_person_In; [by eapply all_rows_In | congruence]. }
    rewrite Hl in Ht'.
    destruct Hc as [Hids _].
    rewrite (table_allocation_lookup_complete _ Hids ta Hta) in Ht'.
    inversion Ht'; subst t. by exists l. }
  pose proof (random_sample_length _ _ _ _ Hps) as Hlen.
  rewrite Hplayers in Hlen. unfold len in *.
  rewrite Hocc in Hle. rewrite length_app in Hlen. simpl in Hlen.
  rewrite length_map in Hlen. lia.
Qed.

(** Case analysis on the membership of a concrete list. *)
Ltac cases_in H :=
  repeat first [ apply elem_of_nil in H; destruct H
               | apply elem_of_cons in H as [->|H] ].

Lemma players_who_rated_every_table_are_placed_witness :
  input_contract lonely_tables /\ rows_consistent lonely_tables
  /\ dense lonely_tables
  /\ len (all_preferences_by_player lonely_tables)
     <= total_seats lonely_tables
  /\ allocate lonely_tables [] = Raise (ValueError "Failed to make up numbers")
  /\ ValueError "Failed to make up numbers"
     <> ValueError "Failed to allocate all players".
Proof.
  assert (input_contract lonely_tables) as Hc.
  { split.
    - apply (bool_decide_unpack _). vm_compute. exact I.
    - repeat constructor; simpl; lia. }
  assert (rows_consistent lonely_tables) as Hrows.
  { intros ta sp Hta Hsp. unfold lonely_tables in Hta. cases_in Hta;
      simpl in Hsp; cases_in Hsp; reflexivity. }
  assert (dense lonely_tables) as Hdense.
  { intros ta sp ta' Hta Hsp Hta'. unfold lonely_tables in Hta, Hta'.
    cases_in Hta; simpl in Hsp; cases_in Hsp; cases_in Hta'; simpl;
      eexists; (split; [by left | reflexivity]). }
  assert (len (all_preferences_by_player lonely_tables)
          <= total_seats lonely_tables) as Hseats.
  { vm_compute. discriminate. }
  assert (allocate lonely_tables []
          = Raise (ValueError "Failed to make up numbers")) as Hrun.
  { vm_compute. reflexivity. }
  split; [exact Hc|]. split; [exact Hrows|]. split; [exact Hdense|].
  split; [exact Hseats|]. split; [exact Hrun|].
  exact (players_who_rated_every_table_are_placed lonely_tables [] _
           Hc Hrows Hdense Hseats Hrun).
Defined.

(** * The mock data of [create_mock_data] *)

Lemma randint_spec (a b x : Z) (g g' : rng) :
  randint a b g = Ok (x, g') -> a <= x <= b.
Proof.
  unfold randint. destruct (b <? a) eqn:C; [discriminate|].
  apply Z.ltb_ge in C. destruct (draw g) as [n g1]. intros H.
  inversion H; subst.
  pose proof (Z.mod_pos_bound (Z.of_nat n) (b - a + 1)). lia.
Qed.

Lemma randint_total (a b : Z) (g : rng) :
  a <= b -> exists x g', randint a b g = Ok (x, g').
Proof.
  intros Hab. unfold randint. destruct (b <? a) eqn:C;
    [apply Z.ltb_lt in C; lia|]. destruct (draw g); eauto.
Qed.

Lemma nth_mod_In {A : Type} (l : list A) (d : A) (n : nat) :
  l <> [] -> nth (n mod length l) l d ∈ l.
Proof.
  intros Hl. apply list_elem_of_In, nth_In.
  apply Nat.mod_upper_bound. by destruct l.
Qed.

Lemma choice_In {A : Type} (first : A) (others : list A) (x : A)
  (g g' : rng) :
  choice first others g = Ok (x, g') -> x ∈ first :: others.
Proof.
  unfold choice. destruct (draw g) as [n g1]. intros [= <- _].
  exact (nth_mod_In (first :: others) first n ltac:(done)).
Qed.

Lemma for_each_spec {A B : Type} (f : A -> M B) (l : list A) (r : list B)
  (g g' : rng) :
  for_each f l g = Ok (r, g') ->
  Forall2 (fun a b => exists g1 g2, f a g1 = Ok (b, g2)) l r.
Proof.
  revert r g; induction l as [|a l IH]; intros r g H; simpl in H.
  - ok_step H. constructor.
  - ok_step H. ok_step H. ok_step H. constructor; eauto.
Qed.

Lemma for_each_total {A B : Type} (f : A -> M B) (l : list A) (g : rng) :
  (forall a g1, exists b g2, f a g1 = Ok (b, g2)) ->
  exists r g', for_each f l g = Ok (r, g').
Proof.
  intros Hf. revert g; induction l as [|a l IH]; intros g; simpl.
  - unfold ret; eauto.
  - unfold bind. destruct (Hf a g) as (b & g1 & ->).
    destruct (IH g1) as (r & g2 & ->). unfold ret; eauto.
Qed.

Lemma for_each_map {A B C : Type} (f : A -> M B) (h : B -> C) (k : A -> C)
  (l : list A) (r : list B) (g g' : rng) :
  (forall a b g1 g2, f a g1 = Ok (b, g2) -> h b = k a) ->
  for_each f l g = Ok (r, g') -> map h r = map k l.
Proof.
  intros Hf H. apply for_each_spec in H.
  induction H as [|a b l r (g1 & g2 & Hab) _ IH]; simpl; [done|].
  by rewrite IH, (Hf a b g1 g2 Hab).
Qed.

Lemma range_NoDup (n : nat) : NoDup (range n).
Proof.
  unfold range. change (map Z.of_nat (seq 0 n)) with (Z.of_nat <$> seq 0 n).
  apply NoDup_fmap; [apply Nat2Z.inj'|apply NoDup_seq].
Qed.

Lemma mock_game_spec (i : Z) (ig : Z * Game) (g g' : rng) :
  mock_game i g = Ok (ig, g') ->
  fst ig = i
  /\ 2 <= minimum_players (snd ig) <= 4
  /\ minimum_players (snd ig) <= optimal_players (snd ig) <= 5
  /\ optimal_players (snd ig) <= maximum_players (snd ig) <= 7.
Proof.
  unfold mock_game. intros H. ok_step H. ok_step H. ok_step H. ok_step H.
  apply randint_spec in E, E0, E1. simpl. lia.
Qed.

Lemma mock_game_total (i : Z) (g : rng) :
  exists ig g', mock_game i g = Ok (ig, g').
Proof.
  unfold mock_game, bind.
  destruct (randint_total 2 4 g) as (x & g1 & Hx); [lia|]. rewrite Hx.
  apply randint_spec in Hx.
  destruct (randint_total x 5 g1) as (y & g2 & Hy); [lia|]. rewrite Hy.
  apply randint_spec in Hy.
  destruct (randint_total y 7 g2) as (z & g3 & Hz); [lia|]. rewrite Hz.
  unfold ret; eauto.
Qed.

Lemma make_preference_spec (d20 game_index score : Z) (g g' : rng) :
  make_preference d20 game_index g = Ok (score, g') ->
  score ∈ [0; 1; 2; 3; 4; 5; 20]
  /\ (POPULAR_GAMES game_index = true -> 3 <= score)
  /\ (UNPOPULAR_GAMES game_index = true -> score <= 2)
  /\ (score = 20 -> d20 <> 0 /\ UNPOPULAR_GAMES game_index = false).
Proof.
  assert (forall i, POPULAR_GAMES i = true -> UNPOPULAR_GAMES i = false)
    as Hdisjoint.
  { intros i. unfold POPULAR_GAMES, UNPOPULAR_GAMES, N_POPULAR_GAMES,
      N_UNPOPULAR_GAMES. lia. }
  unfold make_preference. intros H.
  destruct (POPULAR_GAMES game_index) eqn:Hp.
  - pose proof (Hdisjoint _ Hp) as Hu. rewrite Hu.
    destruct (Z.eqb_spec d20 0) as [Hd|Hd]; apply choice_In in H;
      cases_in H; (split; [set_solver|]); repeat split; try lia; done.
  - destruct (UNPOPULAR_GAMES game_index) eqn:Hu.
    + apply choice_In in H.
      cases_in H; (split; [set_solver|]); repeat split; try lia; done.
    + destruct (Z.eqb_spec d20 0) as [Hd|Hd]; apply choice_In in H;
        cases_in H; (split; [set_solver|]); repeat split; try lia; done.
Qed.

Lemma mock_preference_total (player : Person) (t : Z) (g : rng) :
  exists sp g', mock_preference player t g = Ok (sp, g').
Proof.
  unfold mock_preference, bind, make_preference, choice, ret.
  destruct (POPULAR_GAMES t), (UNPOPULAR_GAMES t), (golden_d20s player =? 0),
    (draw g); eauto.
Qed.

Lemma create_mock_data_total (g : rng) :
  exists d g', create_mock_data g = Ok (d, g').
Proof.
  unfold create_mock_data, bind.
  destruct (for_each_total mock_player (range N_PLAYERS) g)
    as (players & g1 & ->).
  { intros i g0. unfold mock_player, bind, choice, ret.
    destruct (draw g0); eauto. }
  destruct (for_each_total mock_game (range N_GAMES) g1)
    as (games & g2 & ->); [apply mock_game_total|].
  destruct (for_each_total
              (fun player => for_each (mock_preference player)
                               (map fst games)) players g2)
    as (rows & g3 & ->).
  { intros player g0. apply for_each_total. apply mock_preference_total. }
  unfold ret; eauto.
Qed.

(** X20. [create_mock_data] always returns, and what it generates meets
    the input contract of the allocator: the table allocations have the
    ids [0 .. N_GAMES - 1], each once, and every game has
    [2 <= min <= optimal <= max <= 7] with [min <= 4] and
    [optimal <= 5]. *)
Theorem mock_games_meet_the_input_contract (g : rng) :
  exists d g',
    create_mock_data g = Ok (d, g')
    /\ mock_table_allocations d = range N_GAMES
    /\ map fst (mock_games d) = mock_table_allocations d
    /\ NoDup (mock_table_allocations d)
    /\ Forall (fun ig =>
                 valid_capacities (snd ig)
                 /\ 2 <= minimum_players (snd ig) <= 4
                 /\ optimal_players (snd ig) <= 5
                 /\ maximum_players (snd ig) <= 7) (mock_games d).
Proof.
  destruct (create_mock_data_total g) as (d & g' & H).
  exists d, g'. split; [done|].
  unfold create_mock_data in H. ok_step H. ok_step H. ok_step H. ok_step H.
  simpl.
  assert (map fst v0 = range N_GAMES) as Hids.
  { rewrite (for_each_map mock_game fst id _ _ _ _ (fun a b g1 g2 Hab =>
               proj1 (mock_game_spec a b g1 g2 Hab)) E0).
    apply map_id. }
  split; [done|]. split; [done|]. split.
  { rewrite Hids. apply range_NoDup. }
  apply for_each_spec in E0. clear -E0.
  induction E0 as [|a b l r (g1 & g2 & Hab) _ IH]; constructor; [|done].
  apply mock_game_spec in Hab. unfold valid_capacities. lia.
Qed.

(** X21. In the generated preferences every player has exactly one row
    for every table allocation, player by player in the order of the
    tables.  Every score is one of 0, 1, 2, 3, 4, 5 and 20; a popular game
    never gets a score below 3, an unpopular game never one above 2, and
    the score 20 is only given by a player who holds a golden D20. *)
Theorem mock_preferences_rate_every_table (g : rng) :
  exists d g',
    create_mock_data g = Ok (d, g')
    /\ map id_of_person (mock_players d)
       = map (fun i => Z.of_nat N_GAMES + i) (range N_PLAYERS)
    /\ map (fun sp => (person_id sp, table_allocation_id sp))
         (mock_session_preferences d)
       = flat_map (fun player =>
                     map (fun t => (id_of_person player, t))
                       (mock_table_allocations d))
           (mock_players d)
    /\ forall sp, sp ∈ mock_session_preferences d ->
         preference sp ∈ [0; 1; 2; 3; 4; 5; 20]
         /\ (POPULAR_GAMES (table_allocation_id sp) = true ->
             3 <= preference sp)
         /\ (UNPOPULAR_GAMES (table_allocation_id sp) = true ->
             preference sp <= 2)
         /\ (preference sp = 20 ->
             exists player, player ∈ mock_players d
               /\ id_of_person player = person_id sp
               /\ golden_d20s player <> 0).
Proof.
  destruct (create_mock_data_total g) as (d & g' & H).
  exists d, g'. split; [done|].
  unfold create_mock_data in H. ok_step H. ok_step H. ok_step H. ok_step H.
  simpl. split; [|split].
  - apply (for_each_map mock_player id_of_person
             (fun i => Z.of_nat N_GAMES + i) _ _ _ _
             (fun a b g1 g2 Hab => ltac:(
                unfold mock_player in Hab; ok_step Hab; ok_step Hab;
                reflexivity)) E).
  - apply for_each_spec in E1. clear -E1.
    induction E1 as [|player r l rs (g1 & g2 & Hr) _ IH]; simpl; [done|].
    rewrite map_app, IH. f_equal.
    apply (for_each_map (mock_preference player)
             (fun sp => (person_id sp, table_allocation_id sp))
             (fun t => (id_of_person player, t)) _ _ _ _
             (fun a b g1 g2 Hab => ltac:(
                unfold mock_preference in Hab; ok_step Hab; ok_step Hab;
                reflexivity)) Hr).
  - intros sp Hsp. apply for_each_spec in E1. clear -E1 Hsp.
    induction E1 as [|player r l rs (g1 & g2 & Hr) _ IH]; simpl in Hsp.
    { by apply elem_of_nil in Hsp. }
    apply elem_of_app in Hsp as [Hsp|Hsp].
    + apply for_each_spec in Hr. clear -Hr Hsp.
      assert (exists t g3 g4, mock_preference player t g3 = Ok (sp, g4))
        as (t & g3 & g4 & Hm).
      { induction Hr as [|t b ts bs (g3 & g4 & Hb) _ IH'].
        - by apply elem_of_nil in Hsp.
        - apply elem_of_cons in Hsp as [->|Hsp]; eauto. }
      unfold mock_preference in Hm. ok_step Hm. ok_step Hm. simpl.
      apply make_preference_spec in E as (Hset & Hpop & Hunpop & Hgold).
      repeat split; try done.
      intros H20. exists player. split; [by left|]. split; [done|].
      by apply Hgold.
    + destruct (IH Hsp) as (Hset & Hpop & Hunpop & Hgold).
      repeat split; try done. intros H20.
      destruct (Hgold H20) as (q & Hq & Hid & Hg). exists q.
      split; [by right | done].
Qed.

(** * The template filter [extract_title] *)

Lemma prefix_length (s1 s2 : string) :
  String.prefix s1 s2 = true -> (String.length s1 <= String.length s2)%nat.
Proof.
  revert s2; induction s1 as [|a s1 IH]; intros [|b s2] H; simpl in *;
    try lia; try discriminate.
  destruct (Ascii.ascii_dec a b); [|discriminate]. apply IH in H. lia.
Qed.

Lemma index_Some_bounds (n m : nat) (s1 s2 : string) :
  String.index n s1 s2 = Some m ->
  (n <= m /\ m + String.length s1 <= String.length s2)%nat.
Proof.
  revert n m; induction s2 as [|b s2 IH]; intros [|n] m H;
    cbn [String.index] in H.
  - destruct s1; [|discriminate]. inversion H. simpl. lia.
  - discriminate.
  - destruct (String.prefix s1 (String b s2)) eqn:Hp.
    + inversion H. apply prefix_length in Hp. lia.
    + destruct (String.index 0 s1 s2) as [k|] eqn:E; [|discriminate].
      inversion H. apply IH in E. simpl. lia.
  - destruct (String.index n s1 s2) as [k|] eqn:E; [|discriminate].
    inversion H. apply IH in E. simpl. lia.
Qed.

Lemma index_first (n i : nat) (sub text : string) :
  sub <> ""%string -> (n <= i)%nat ->
  String.substring i (String.length sub) text = sub ->
  (forall p, (n <= p < i)%nat ->
             String.substring p (String.length sub) text <> sub) ->
  String.index n sub text = Some i.
Proof.
  intros Hsub Hn Hat Hfirst.
  destruct (String.index n sub text) as [m|] eqn:E.
  - destruct (Nat.lt_trichotomy m i) as [Hlt|[->|Hgt]]; [|done|].
    + exfalso. apply (Hfirst m); [|by eapply index_correct1].
      apply index_Some_bounds in E. lia.
    + exfalso. by apply (index_correct2 _ _ _ _ E i).
  - exfalso. by apply (index_correct3 _ i _ _ E).
Qed.

Lemma index_nowhere (n : nat) (sub text : string) :
  (forall p, String.substring p (String.length sub) text <> sub) ->
  String.index n sub text = None.
Proof.
  intros Hno. destruct (String.index n sub text) as [m|] eqn:E; [|done].
  exfalso. apply (Hno m). by eapply index_correct1.
Qed.

Lemma py_find_from (text sub : string) (start : nat) :
  py_find text sub (Z.of_nat start)
  = match String.index start sub text with
    | Some i => Z.of_nat i
    | None => -1
    end.
Proof.
  unfold py_find. destruct (Z.of_nat start <? 0) eqn:C;
    [apply Z.ltb_lt in C; lia|]. by rewrite Nat2Z.id.
Qed.

Lemma py_find_from_0 (text sub : string) :
  py_find text sub 0
  = match String.index 0 sub text with
    | Some i => Z.of_nat i
    | None => -1
    end.
Proof. apply (py_find_from text sub 0). Qed.

Lemma substring_nothing (n : nat) (s : string) :
  String.substring n 0 s = ""%string.
Proof.
  revert n; induction s as [|c s IH]; intros [|n]; simpl; try done.
Qed.

(** X22. A text that begins with the opening tag has the empty title:
    [find] returns 0 there, which [not title_start] takes for "not
    found". *)
Theorem extract_title_of_a_leading_tag_is_empty (rest : string) :
  extract_title ("<title>" ++ rest) = ""%string.
Proof. destruct rest; reflexivity. Qed.

(** X23. When the first ["<title>"] is at an index [i > 0] and the first
    ["</title>"] at or after [i] is at [j], [extract_title] returns the
    text from [i + 7] up to [j]. *)
Theorem extract_title_returns_the_text_between_the_tags
  (text : string) (i j : nat) :
  (0 < i)%nat ->
  String.substring i 7 text = "<title>"%string ->
  (forall p, (p < i)%nat -> String.substring p 7 text <> "<title>"%string) ->
  (i <= j)%nat ->
  String.substring j 8 text = "</title>"%string ->
  (forall p, (i <= p < j)%nat ->
             String.substring p 8 text <> "</title>"%string) ->
  extract_title text = String.substring (i + 7) (j - (i + 7)) text.
Proof.
  intros Hi Hopen Hfirst Hij Hclose Hnext.
  assert (String.index 0 "<title>" text = Some i) as E1.
  { apply index_first; try done; [lia|]. intros p Hp. apply Hfirst. lia. }
  assert (String.index i "</title>" text = Some j) as E2.
  { by apply index_first. }
  pose proof (index_Some_bounds _ _ _ _ E1) as [_ B1].
  pose proof (index_Some_bounds _ _ _ _ E2) as [_ B2].
  simpl in B1, B2.
  unfold extract_title. rewrite py_find_from_0, E1.
  destruct (Z.of_nat i =? 0) eqn:C; [apply Z.eqb_eq in C; lia|].
  rewrite py_find_from, E2. unfold py_slice.
  destruct (Z.of_nat i + 7 <? 0) eqn:C3; [apply Z.ltb_lt in C3; lia|].
  destruct (Z.of_nat j <? 0) eqn:C4; [apply Z.ltb_lt in C4; lia|].
  f_equal; lia.
Qed.

Lemma extract_title_returns_the_text_between_the_tags_witness :
  extract_title "<html><title>Games</title></html>"
  = String.substring (6 + 7) (18 - (6 + 7)) "<html><title>Games</title></html>".
Proof.
  apply (extract_title_returns_the_text_between_the_tags
           "<html><title>Games</title></html>" 6 18).
  - lia.
  - reflexivity.
  - intros p Hp.
    do 6 (destruct p as [|p]; [vm_compute; discriminate|]). lia.
  - lia.
  - reflexivity.
  - intros p Hp.
    do 18 (destruct p as [|p]; [vm_compute; discriminate|]). lia.
Defined.

(** X24. A text without ["<title>"] does not get the empty title: [find]
    returns [-1], which is not "not found" for [not title_start], and the
    result is the slice [text[6:-1]], the text without its first six
    characters and its last one. *)
Theorem extract_title_without_a_tag_is_a_slice_of_the_text (text : string) :
  (forall p, String.substring p 7 text <> "<title>"%string) ->
  extract_title text
  = String.substring 6 (String.length text - 7) text.
Proof.
  intros Hno.
  pose proof (index_nowhere 0 "<title>" text Hno) as E1.
  unfold extract_title. rewrite py_find_from_0, E1.
  change (-1 =? 0) with false. cbv iota. unfold py_find.
  change (-1 <? 0) with true. cbv iota.
  destruct (String.index _ "</title>" text) as [m|] eqn:E2.
  { apply index_Some_bounds in E2. simpl in E2. lia. }
  unfold py_slice. change (-1 + 7) with 6. change (6 <? 0) with false.
  change (-1 <? 0) with true. cbv iota.
  destruct (Nat.le_gt_cases 7 (String.length text)) as [Hlong|Hshort].
  - f_equal; lia.
  - replace (String.length text - 7)%nat with 0%nat by lia.
    match goal with
    | |- String.substring _ (Z.to_nat ?d) _ = _ =>
        replace (Z.to_nat d) with 0%nat by lia
    end.
    by rewrite !substring_nothing.
Qed.

Lemma extract_title_without_a_tag_is_a_slice_of_the_text_witness :
  extract_title "Hello, world!"
  = String.substring 6 (String.length "Hello, world!" - 7) "Hello, world!".
Proof.
  apply (extract_title_without_a_tag_is_a_slice_of_the_text "Hello, world!").
  intros p. do 13 (destruct p as [|p]; [vm_compute; discriminate|]).
  simpl. destruct p; discriminate.
Defined.

(** X25. When the first ["<title>"] is at an index [i > 0] and no
    ["</title>"] follows, [find] returns [-1] for the end and
    [extract_title] returns the rest of the text without its last
    character. *)
Theorem extract_title_without_a_closing_tag_drops_the_last_character
  (text : string) (i : nat) :
  (0 < i)%nat ->
  String.substring i 7 text = "<title>"%string ->
  (forall p, (p < i)%nat -> String.substring p 7 text <> "<title>"%string) ->
  (forall p, (i <= p)%nat -> String.substring p 8 text <> "</title>"%string) ->
  extract_title text
  = String.substring (i + 7) (String.length text - 1 - (i + 7)) text.
Proof.
  intros Hi Hopen Hfirst Hnever.
  assert (String.index 0 "<title>" text = Some i) as E1.
  { apply index_first; try done; [lia|]. intros p Hp. apply Hfirst. lia. }
  assert (String.index i "</title>" text = None) as E2.
  { destruct (String.index i "</title>" text) as [m|] eqn:E; [|done].
    exfalso. apply (Hnever m); [|exact (index_correct1 _ _ _ _ E)].
    apply index_Some_bounds in E. lia. }
  pose proof (index_Some_bounds _ _ _ _ E1) as [_ B1]. simpl in B1.
  unfold extract_title. rewrite py_find_from_0, E1.
  destruct (Z.of_nat i =? 0) eqn:C; [apply Z.eqb_eq in C; lia|].
  rewrite py_find_from, E2. unfold py_slice.
  destruct (Z.of_nat i + 7 <? 0) eqn:C3; [apply Z.ltb_lt in C3; lia|].
  change (-1 <? 0) with true. cbv iota. f_equal; lia.
Qed.

Lemma extract_title_without_a_closing_tag_drops_the_last_character_witness :
  extract_title "ab<title>xyz"
  = String.substring (2 + 7) (String.length "ab<title>xyz" - 1 - (2 + 7))
      "ab<title>xyz".
Proof.
  apply (extract_title_without_a_closing_tag_drops_the_last_character
           "ab<title>xyz" 2).
  - lia.
  - reflexivity.
  - intros p Hp.
    do 2 (destruct p as [|p]; [vm_compute; discriminate|]). lia.
  - intros p Hp.
    do 12 (destruct p as [|p]; [vm_compute; discriminate|]).
    simpl. destruct p; discriminate.
Defined.

(** * The best loss of a run is bounded *)

Lemma rows_unique_per_person (rows : list SessionPreference) (p : Z) :
  NoDup (map (fun sp => (person_id sp, table_allocation_id sp)) rows) ->
  NoDup (map table_allocation_id (rows_of_person p rows)).
Proof.
  induction rows as [|a rows IH]; intros Hnd; simpl; [constructor|].
  apply NoDup_cons in Hnd as [Hnot Hnd]. specialize (IH Hnd).
  unfold rows_of_person in *. simpl.
  destruct (person_id a =? p) eqn:C; [|done]. apply Z.eqb_eq in C.
  simpl. apply NoDup_cons. split; [|done].
  intros Hin. apply Hnot.
  change (map table_allocation_id ?l) with (table_allocation_id <$> l) in Hin.
  apply list_elem_of_fmap in Hin as (sp & Hta & Hsp).
  apply list_elem_of_In, List.filter_In in Hsp as [Hsp Hp].
  apply Z.eqb_eq in Hp.
  change (map ?f rows) with (f <$> rows). apply list_elem_of_fmap.
  exists sp. split; [|by apply list_elem_of_In]. congruence.
Qed.

Lemma list_sum_bound (ks : list nat) (m : nat) :
  Forall (fun k => (k <= m)%nat) ks -> (list_sum ks <= m * length ks)%nat.
Proof. induction 1 as [|k ks Hk _ IH]; simpl; lia. Qed.

Lemma seat_losses_In (lpt : gmap Z (gmap Z nat)) (cur : allocations)
  (o : option nat) :
  o ∈ seat_losses lpt cur -> exists q t, o = loss_at lpt q t.
Proof.
  unfold seat_losses. intros Hin.
  apply list_elem_of_In, in_flat_map in Hin as ([t l] & _ & Hin).
  apply in_map_iff in Hin as (q & <- & _). by exists q, t.
Qed.

(** X26. With one preference row per player and table and scores among
    0, 1, 2, 3, 4, 5 and 20, no player of the retained allocation has a
    loss above 6, so the best loss of a successful run is at most six
    times the number of players. *)
Theorem best_loss_at_most_six_times_the_players
  (all_table_allocations : list TableAllocation) (g g' : rng) (b : best) :
  NoDup (map (fun sp => (person_id sp, table_allocation_id sp))
           (all_rows all_table_allocations)) ->
  Forall (fun sp => preference sp ∈ [0; 1; 2; 3; 4; 5; 20])
    (all_rows all_table_allocations) ->
  allocate all_table_allocations g = Ok (b, g') ->
  exists loss,
    best_loss b = Some loss
    /\ (loss <= 6 * length (all_preferences_by_player all_table_allocations))%nat.
Proof.
  intros Hrows Hscores H.
  apply allocate_best_is_a_trial in H
    as (P & g0 & cur & loss & g1 & g2 & HP & Hcur & Hloss & Ht).
  exists loss. split; [done|].
  pose proof (trial_occupants P _ _ _ Ht) as Hocc. simpl in Hocc.
  pose proof (prepare_fields _ _ _ _ HP) as (_ & _ & Hplayers & Hlosses & Hord).
  unfold trial in Ht. ok_step Ht. ok_step Ht. ok_step Ht. ok_step Ht.
  ok_step E1. inversion Ht; subst v0 v1. clear Ht.
  rewrite evaluate_total_loss_sum in E1.
  apply sum_losses_Ok in E1 as (ks & Hks & ->).
  assert (length ks = length (all_preferences_by_player all_table_allocations))
    as <-.
  { rewrite <- (length_map Some ks), <- Hks, occupants_seats, Hocc, Hplayers.
    by rewrite length_map. }
  apply list_sum_bound. apply Forall_forall. intros k Hk.
  assert (Some k ∈ seat_losses (losses P) cur) as Hin.
  { rewrite Hks. change (map Some ks) with (Some <$> ks).
    apply list_elem_of_fmap. eauto. }
  apply seat_losses_In in Hin as (q & t & Hqt).
  rewrite Hlosses in Hqt. unfold loss_at, loss_by_player_and_table in Hqt.
  rewrite lookup_fmap in Hqt.
  destruct (ordered P !! q) as [ts|] eqn:Hts; [|done]. simpl in Hqt.
  destruct (ordered_preferences_by_player_sound _ _ _ _ _ _ _ Hord Hts)
    as [Hempty|(prefs & ga & gb & Hprefs & Horder)].
  { by rewrite lookup_empty in Hempty. }
  apply all_preferences_by_player_In in Hprefs. subst prefs.
  apply (loss_of_tiers_at_most_six
           (rows_of_person q (all_rows all_table_allocations)) ts ga gb t k);
    [|  |done|done].
  - by apply rows_unique_per_person.
  - rewrite Forall_forall in Hscores. apply Forall_forall. intros sp Hsp.
    apply Hscores. apply list_elem_of_In.
    apply list_elem_of_In, List.filter_In in Hsp as [Hsp _]. done.
Qed.

Lemma best_loss_at_most_six_times_the_players_witness :
  exists b g' loss,
    allocate indifferent_tables [0; 1]%nat = Ok (b, g')
    /\ best_loss b = Some loss
    /\ (loss <= 6 * length (all_preferences_by_player indifferent_tables))%nat.
Proof.
  destruct (allocate indifferent_tables [0; 1]%nat) as [[b g']|e] eqn:Ea;
    [|vm_compute in Ea; discriminate].
  destruct (best_loss_at_most_six_times_the_players indifferent_tables
              [0; 1]%nat g' b) as (loss & H).
  - apply (bool_decide_unpack _). vm_compute. exact I.
  - vm_compute. repeat constructor; set_solver.
  - exact Ea.
  - exists b, g', loss. split; [reflexivity | exact H].
Defined.

(** * When a repair succeeds *)

Lemma selected_from_cons (d : Z) (x : Z * Z) (l : list (Z * Z)) :
  selected_from d (x :: l)
  = (if fst x =? d then 1 else 0) + selected_from d l.
Proof.
  unfold selected_from, len. rewrite filter_cons.
  destruct (fst x =? d) eqn:C.
  - rewrite decide_True by (by apply Is_true_true). simpl. lia.
  - rewrite decide_False by (by rewrite Is_true_false). lia.
Qed.

Lemma selected_from_nil (d : Z) : selected_from d [] = 0.
Proof. reflexivity. Qed.

Lemma selected_from_snoc (d : Z) (l : list (Z * Z)) (x : Z * Z) :
  selected_from d (l ++ [x])
  = selected_from d l + (if fst x =? d then 1 else 0).
Proof.
  rewrite selected_from_app, selected_from_cons, selected_from_nil. lia.
Qed.

Lemma selected_from_perm (d : Z) (l l' : list (Z * Z)) :
  Permutation l l' -> selected_from d l = selected_from d l'.
Proof. intros H. unfold selected_from, len. by rewrite H. Qed.

Lemma sum_over_le (f h : Z -> Z) (D : list Z) :
  (forall d, d ∈ D -> f d <= h d) -> sum_over f D <= sum_over h D.
Proof.
  unfold sum_over. induction D as [|d D IH]; intros Hle; simpl; [lia|].
  pose proof (Hle d ltac:(by left)).
  assert (foldr (fun d s => f d + s) 0 D <= foldr (fun d s => h d + s) 0 D).
  { apply IH. intros x Hx. apply Hle. by right. }
  lia.
Qed.

Lemma sum_over_indicator (d0 : Z) (D : list Z) :
  NoDup D ->
  sum_over (fun d => if d0 =? d then 1 else 0) D
  = if bool_decide (d0 ∈ D) then 1 else 0.
Proof.
  unfold sum_over. induction 1 as [|d D Hd _ IH]; simpl; [done|].
  rewrite IH. destruct (Z.eqb_spec d0 d) as [->|Hne].
  - rewrite (bool_decide_true (d ∈ d :: D)) by (by left).
    by rewrite (bool_decide_false (d ∈ D)).
  - destruct (decide (d0 ∈ D)) as [Hin|Hout].
    + rewrite (bool_decide_true (d0 ∈ D)) by done.
      by rewrite (bool_decide_true (d0 ∈ d :: D)) by (by right).
    + rewrite (bool_decide_false (d0 ∈ D)) by done.
      rewrite (bool_decide_false (d0 ∈ d :: D)); [done|].
      intros Hin. apply elem_of_cons in Hin as [?|?]; done.
Qed.

Lemma sum_over_counts (D : list Z) (l : list (Z * Z)) :
  NoDup D -> (forall c, c ∈ l -> fst c ∈ D) ->
  sum_over (fun d => selected_from d l) D = len l.
Proof.
  intros Hnd. induction l as [|x l IH]; intros Hin.
  - unfold sum_over, selected_from, len. simpl. clear.
    induction D as [|d D IH]; simpl; [done|]. by rewrite IH.
  - assert (sum_over (fun d => selected_from d (x :: l)) D
            = sum_over (fun d => if fst x =? d then 1 else 0) D
              + sum_over (fun d => selected_from d l) D) as ->.
    { unfold sum_over. clear. induction D as [|d D IH]; simpl; [done|].
      rewrite IH, selected_from_cons. lia. }
    rewrite IH by (intros c Hc; apply Hin; by right).
    rewrite sum_over_indicator by done.
    rewrite bool_decide_true by (apply Hin; by left).
    unfold len. simpl. lia.
Qed.

Section Greedy.

Context (tal : gmap Z TableAllocation).

Lemma select_players_counts (cur : allocations) (sweet : Z)
  (selected cands r : list (Z * Z)) (d : Z) :
  select_players tal cur sweet selected cands = Ok r ->
  selected_from d selected <= selected_from d r
  <= selected_from d selected + selected_from d cands.
Proof.
  revert selected; induction cands as [|[d0 h] cands IH];
    intros selected H; simpl in H.
  - ok_step H. rewrite selected_from_nil. lia.
  - ok_step H. ok_step E. ok_step H. ok_step E0.
    rewrite (selected_from_cons d (d0, h) cands). simpl.
    pose proof (selected_from_snoc d selected (d0, h)) as Happ.
    simpl in Happ. pose proof (selected_from_nonneg d cands).
    destruct (_ <=? _) eqn:C.
    + specialize (IH _ H). destruct (d0 =? d); lia.
    + destruct (_ =? sweet).
      * ok_step H. destruct (d0 =? d); lia.
      * specialize (IH _ H). destruct (d0 =? d); lia.
Qed.

Lemma select_players_within_surplus (cur : allocations) (sweet : Z)
  (selected cands r : list (Z * Z)) :
  (forall d, selected_from d selected <= surplus tal cur d) ->
  select_players tal cur sweet selected cands = Ok r ->
  forall d, selected_from d r <= surplus tal cur d.
Proof.
  revert selected; induction cands as [|[d0 h] cands IH];
    intros selected Hs H; simpl in H.
  - by ok_step H.
  - ok_step H. ok_step E. ok_step H. ok_step E0.
    destruct (_ <=? _) eqn:C; [by eapply IH|]. apply Z.leb_gt in C.
    assert (forall d, selected_from d (selected ++ [(d0, h)])
                      <= surplus tal cur d) as Hs'.
    { intros d. rewrite selected_from_snoc. simpl.
      destruct (Z.eqb_spec d0 d) as [->|Hne]; [|specialize (Hs d); lia].
      unfold surplus. rewrite E, E0. lia. }
    destruct (_ =? sweet); [by ok_step H | by eapply IH].
Qed.

(** Short of the sweet-spot deficit the selection has gone through all
    candidates: from every table it took all of them, or as many as the
    table's surplus. *)
Lemma select_players_exhausts (cur : allocations) (sweet : Z)
  (selected cands r : list (Z * Z)) :
  select_players tal cur sweet selected cands = Ok r ->
  len r < sweet ->
  forall d, selected_from d r
            = selected_from d selected + selected_from d cands
            \/ surplus tal cur d <= selected_from d r.
Proof.
  revert selected; induction cands as [|[d0 h] cands IH];
    intros selected H Hshort d; simpl in H.
  - ok_step H. left. rewrite selected_from_nil. lia.
  - ok_step H. ok_step E. ok_step H. ok_step E0.
    rewrite (selected_from_cons d (d0, h) cands). simpl.
    destruct (_ <=? _) eqn:C.
    + apply Z.leb_le in C.
      destruct (IH _ H Hshort d) as [Hall|Hsat]; [|by right].
      destruct (Z.eqb_spec d0 d) as [->|Hne]; [|left; lia].
      right. pose proof (select_players_counts cur sweet selected cands r d H).
      pose proof (selected_from_nonneg d r).
      unfold surplus. rewrite E, E0. lia.
    + destruct (_ =? sweet) eqn:Cs.
      * ok_step H. apply Z.eqb_eq in Cs. lia.
      * destruct (IH _ H Hshort d) as [Hall|Hsat]; [|by right].
        left. rewrite Hall, selected_from_snoc. simpl. lia.
Qed.

Context (opp : gmap Z tiers).
Context (lpt : gmap Z (gmap Z nat)).

Lemma try_make_up_numbers_false_reason (cur c : allocations) (ta : Z)
  (donors : list Z) (g g' : rng) :
  try_make_up_numbers tal opp lpt cur ta donors g = Ok ((c, false), g') ->
  exists t l cands,
    tal !! ta = Some t /\ cur !! ta = Some l
    /\ scan_tables opp lpt cur ta donors = Ok cands
    /\ (len cands < minimum_players (game t) - len l
        \/ exists shuffled selected,
             Permutation cands shuffled
             /\ select_players tal cur
                  (optimal_players (game t) - len l) [] shuffled
                = Ok selected
             /\ len selected < minimum_players (game t) - len l).
Proof.
  intros H. unfold try_make_up_numbers in H.
  ok_step H. ok_step E. ok_step E. ok_step H. ok_step E0. ok_step E0.
  ok_step H. ok_step E1. exists v, v0, v1. repeat split; try done.
  destruct (len v1 <? _) eqn:C1; [left; by apply Z.ltb_lt in C1|].
  right. ok_step H. ok_step H. ok_step E3.
  destruct (len v3 <? _) eqn:C2.
  - exists v2, v3. repeat split; try done.
    + by eapply random_sample_perm.
    + by apply Z.ltb_lt in C2.
  - ok_step H. ok_step H. discriminate.
Qed.

Lemma movable_bounds_selection (cur : allocations) (sweet : Z)
  (cands shuffled selected : list (Z * Z)) :
  Permutation cands shuffled ->
  select_players tal cur sweet [] shuffled = Ok selected ->
  len selected <= movable tal cur cands
  /\ (len selected < sweet -> movable tal cur cands <= len selected).
Proof.
  intros Hperm Hsel.
  set (D := remove_dups (map fst cands)).
  assert (NoDup D) as HD by apply NoDup_remove_dups.
  assert (forall c, c ∈ selected -> fst c ∈ D) as Hin.
  { intros c Hc. apply select_players_incl in Hsel as (extra & -> & Hsub).
    simpl in Hc. unfold D. rewrite elem_of_remove_dups.
    change (map fst cands) with (fst <$> cands).
    apply list_elem_of_fmap. exists c. split; [done|].
    rewrite Hperm. by apply Hsub. }
  rewrite <- (sum_over_counts D selected HD Hin). unfold movable. fold D.
  pose proof selected_from_nil as Hnil.
  split.
  - apply sum_over_le. intros d _.
    pose proof (select_players_counts cur sweet [] shuffled selected d Hsel).
    pose proof (select_players_within_surplus cur sweet [] shuffled selected
                  ltac:(intros d'; rewrite Hnil; unfold surplus;
                        destruct (cur !! d'), (tal !! d'); lia) Hsel d).
    rewrite Hnil, <- (selected_from_perm d cands shuffled Hperm) in *. lia.
  - intros Hshort. rewrite (sum_over_counts D selected HD Hin) in Hshort.
    apply sum_over_le. intros d _.
    destruct (select_players_exhausts cur sweet [] shuffled selected Hsel
                Hshort d) as [Hall|Hsat].
    + rewrite Hnil, <- (selected_from_perm d cands shuffled Hperm) in Hall.
      lia.
    + lia.
Qed.

Lemma movable_le_candidates (cur : allocations) (cands : list (Z * Z)) :
  movable tal cur cands <= len cands.
Proof.
  set (D := remove_dups (map fst cands)).
  rewrite <- (sum_over_counts D cands).
  - apply sum_over_le. intros d _. lia.
  - apply NoDup_remove_dups.
  - intros c Hc. unfold D. rewrite elem_of_remove_dups.
    change (map fst cands) with (fst <$> cands).
    apply list_elem_of_fmap. eauto.
Qed.

End Greedy.

(** X27. Whether [try_make_up_numbers] succeeds does not depend on the
    shuffle of the candidates.  For a target whose minimum is at most its
    optimal size the call reports success exactly when enough players
    can move: when the candidates that the donors can give without
    falling below their sweet spot, table by table the smaller of the
    number of candidates and the surplus, are at least as many as the
    target lacks for its minimum. *)
Theorem try_make_up_numbers_succeeds_iff_enough_can_move
  (tal : gmap Z TableAllocation) (opp : gmap Z tiers)
  (lpt : gmap Z (gmap Z nat)) (cur c : allocations) (ta : Z)
  (donors : list Z) (ok : bool) (g g' : rng) (t : TableAllocation)
  (l : list Z) (cands : list (Z * Z)) :
  tal !! ta = Some t -> cur !! ta = Some l ->
  minimum_players (game t) <= optimal_players (game t) ->
  scan_tables opp lpt cur ta donors = Ok cands ->
  try_make_up_numbers tal opp lpt cur ta donors g = Ok ((c, ok), g') ->
  ok = true <-> minimum_players (game t) - len l <= movable tal cur cands.
Proof.
  intros Ht Hl Hmo Hscan H. destruct ok.
  - split; [intros _|done].
    apply try_make_up_numbers_true in H
      as (t0 & l0 & cands0 & shuffled & selected & Ht0 & Hl0 & Hscan0
          & Hperm & Hsel & Hmin & _).
    rewrite Ht in Ht0. rewrite Hl in Hl0. rewrite Hscan in Hscan0.
    inversion Ht0; inversion Hl0; inversion Hscan0; subst t0 l0 cands0.
    destruct (movable_bounds_selection tal cur _ _ _ _ Hperm Hsel) as [Hle _].
    lia.
  - split; [done|]. intros Henough. exfalso.
    apply try_make_up_numbers_false_reason in H
      as (t0 & l0 & cands0 & Ht0 & Hl0 & Hscan0 & Hwhy).
    rewrite Ht in Ht0. rewrite Hl in Hl0. rewrite Hscan in Hscan0.
    inversion Ht0; inversion Hl0; inversion Hscan0; subst t0 l0 cands0.
    destruct Hwhy as [Hfew|(shuffled & selected & Hperm & Hsel & Hshort)].
    + pose proof (movable_le_candidates tal cur cands). lia.
    + destruct (movable_bounds_selection tal cur _ _ _ _ Hperm Hsel)
        as [_ Hge].
      specialize (Hge ltac:(lia)). lia.
Qed.

Lemma try_make_up_numbers_succeeds_iff_enough_can_move_witness :
  true = true
  <-> minimum_players (game (table 2 (seats 2 3 4) [])) - len (@nil Z)
      <= movable donor_and_empty all_at_donor
           [(1, 11); (1, 12); (1, 13); (1, 14)].
Proof.
  apply (try_make_up_numbers_succeeds_iff_enough_can_move donor_and_empty
           four_friends_ordered
           (loss_by_player_and_table four_friends_ordered)
           all_at_donor two_moved 2 [1] true [] []
           (table 2 (seats 2 3 4) []) []
           [(1, 11); (1, 12); (1, 13); (1, 14)]).
  - vm_compute. reflexivity.
  - vm_compute. reflexivity.
  - simpl. lia.
  - vm_compute. reflexivity.
  - vm_compute. reflexivity.
Defined.
